(** * slack-llm-runner: output routing and session lifecycle

  A shallow embedding of the envelope stream parser
  ([src/streaming/envelopeParser.ts]), the ANSI stripper
  ([src/streaming/ansiStrip.ts]), the full-output streamer
  ([src/streaming/fullStreamer.ts]) and the session manager
  ([src/cli/session.ts], [src/cli/runner.ts], [src/commands/router.ts]),
  and of what stands around them: the log writer and the output router
  ([src/streaming/logWriter.ts], [src/streaming/router.ts]), the Markdown
  conversion ([src/utils/slackFormat.ts]), the command parser
  ([src/commands/parser.ts]), the authorizer, the command filter and the
  decision tree of incoming messages ([src/security/authorizer.ts],
  [src/security/commandFilter.ts], [src/commands/router.ts]), the
  scheduler ([src/scheduler/scheduler.ts]) and the upload of logs
  ([src/commands/logs.ts]).

  JavaScript strings are modelled as lists of code units; the code units
  are those below 256 ([ascii]), on which [toLowerCase], [trim] and the
  regular expressions of the sources are written out in full.  Every
  statement about a text is therefore a statement about a text of code
  units below 256; text with larger code units is outside the model.
  Glyphs of string literals that lie above that range are spelled by
  their UTF-8 bytes: only their identity matters.  Timers are handles
  in a pending set owned by the host: [setTimeout] adds a fresh handle,
  [clearTimeout] removes it, and a handle can fire only while it is
  pending.  Asynchronous methods are either run to their end in one
  step, with the answers of the reporting layer given by an oracle, or
  split at their [await]s, with the answers delivered as events. *)

From Stdlib Require Import Ascii String NArith ZArith Lia Bool.
From stdpp Require Import base option list strings pretty gmap.

Set Default Proof Using "Type".

Notation str := (list ascii).

(** A string literal of the source as a list of code units. *)
Definition js (s : string) : str := list_ascii_of_string s.

(** ** JavaScript string primitives *)
Module JsString.

Definition code (c : ascii) : nat := nat_of_ascii c.

Definition inRange (lo hi : nat) (c : ascii) : bool :=
  (lo <=? code c) && (code c <=? hi).

(** [String.prototype.toLowerCase] on one code unit below 256: A-Z and
    the Latin-1 capitals U+00C0..U+00DE (without the sign U+00D7) move
    up by 32, every other code unit stays.  On this range lower-casing
    maps one code unit to one code unit below 256, so that a string and
    its lower-cased copy have the same length and an index into one is
    an index into the other.  That is not so for all of UTF-16: U+0130
    lowers to the two code units U+0069 U+0307, and an index taken in
    the lower-cased copy of a buffer that holds it lies one further in
    the buffer itself.  Such text is not modelled. *)
Definition lowerChar (c : ascii) : ascii :=
  if inRange 65 90 c || (inRange 192 222 c && negb (code c =? 215))
  then ascii_of_nat (code c + 32) else c.

Definition toLowerCase (s : str) : str := map lowerChar s.

(** White space and line terminators removed by [String.prototype.trim]. *)
Definition isSpace (c : ascii) : bool :=
  inRange 9 13 c || (code c =? 32) || (code c =? 160).

Fixpoint dropWhile (f : ascii -> bool) (s : str) : str :=
  match s with
  | [] => []
  | c :: s' => if f c then dropWhile f s' else s
  end.

Fixpoint takeWhile (f : ascii -> bool) (s : str) : str :=
  match s with
  | [] => []
  | c :: s' => if f c then c :: takeWhile f s' else []
  end.

Definition trim (s : str) : str :=
  rev (dropWhile isSpace (rev (dropWhile isSpace s))).

(** [pat] is a prefix of [s]. *)
Fixpoint startsWith (pat s : str) : bool :=
  match pat, s with
  | [], _ => true
  | p :: pat', c :: s' => Ascii.eqb p c && startsWith pat' s'
  | _ :: _, [] => false
  end.

(** [s.indexOf(pat)]; [None] stands for -1. *)
Fixpoint indexOf (pat s : str) : option nat :=
  if startsWith pat s then Some 0
  else match s with
       | [] => None
       | _ :: s' => S <$> indexOf pat s'
       end.

(** [s.slice(-n)] for [0 < n]. *)
Definition sliceLast (n : nat) (s : str) : str := drop (length s - n) s.

(** Truthiness of a string. *)
Definition truthy (s : str) : bool :=
  match s with [] => false | _ => true end.

End JsString.
Import JsString.

(** ** ansiStrip.ts *)
Module AnsiStrip.

Definition ESC : ascii := ascii_of_nat 27.
Definition CR : ascii := ascii_of_nat 13.

(** One match of [ANSI_RE] at the head of [s]: the number of code units
    it spans.  The three classes of the CSI alternative are pairwise
    disjoint, so the greedy stars never give a code unit back. *)
Definition ansiMatchAt (s : str) : option nat :=
  match s with
  | e :: c :: r =>
      if negb (Ascii.eqb e ESC) then None
      else if inRange 64 90 c || inRange 92 95 c then Some 2
      else if Ascii.eqb c "["%char then
        let params := takeWhile (inRange 48 63) r in
        let r1 := drop (length params) r in
        let inter := takeWhile (inRange 32 47) r1 in
        match drop (length inter) r1 with
        | f :: _ =>
            if inRange 64 126 f
            then Some (2 + length params + length inter + 1)
            else None
        | [] => None
        end
      else None
  | _ => None
  end.

(** [str.replace(ANSI_RE, '')] with the global flag: matches are taken
    left to right and do not overlap; [skip] counts the code units of the
    current match still to be dropped. *)
Fixpoint removeAnsi (skip : nat) (s : str) : str :=
  match s with
  | [] => []
  | c :: s' =>
      match skip with
      | S k => removeAnsi k s'
      | 0 =>
          match ansiMatchAt s with
          | Some (S k) => removeAnsi k s'
          | _ => c :: removeAnsi 0 s'
          end
      end
  end.

Definition stripAnsi (s : str) : str :=
  filter (fun c => c <> CR) (removeAnsi 0 s).

End AnsiStrip.
Import AnsiStrip.

(** ** envelopeParser.ts *)
Module EnvelopeParser.

Inductive EnvelopeType := progress | question | warning | done | error.

Record EnvelopeMessage := mkMessage {
  type : option EnvelopeType;
  text : str;
  (** [None]: the field is absent from the emitted object. *)
  incomplete : option bool
}.

(** The flag as its readers test it ([msg.incomplete ? ... : ...]). *)
Definition isIncomplete (m : EnvelopeMessage) : bool :=
  match incomplete m with Some true => true | _ => false end.

Definition CLOSE_TAG : str := js "<<<end_slack>>>".
Definition SCAN_TAIL : nat := 40.

Definition typeName (t : EnvelopeType) : str :=
  match t with
  | progress => js "progress"
  | question => js "question"
  | warning => js "warning"
  | done => js "done"
  | error => js "error"
  end.

Definition VALID_TYPES : list EnvelopeType :=
  [progress; question; warning; done; error].

(** [VALID_TYPES.has(rawType) ? rawType : null]. *)
Definition validType (rawType : str) : option EnvelopeType :=
  find (fun t => bool_decide (typeName t = rawType)) VALID_TYPES.

(** *** The open tag: /<<<slack(?::(\w+))?>>>/i *)

(** [\w]; under the [i] flag without the [u] flag no code unit outside
    ASCII is added. *)
Definition isWord (c : ascii) : bool :=
  inRange 48 57 c || inRange 65 90 c || (code c =? 95) || inRange 97 122 c.

(** A literal of the pattern (given in lower case) matched against the
    head of [s] without regard to case; the rest of [s] on success. *)
Fixpoint matchLiteral (pat s : str) : option str :=
  match pat with
  | [] => Some s
  | p :: pat' =>
      match s with
      | c :: s' =>
          if Ascii.eqb (lowerChar c) p then matchLiteral pat' s' else None
      | [] => None
      end
  end.

Record RegExpMatch := mkMatch {
  index : nat;
  (** [match[0]], the text matched. *)
  matched : str;
  (** [match[1]], the type, when the optional group took part. *)
  group1 : option str
}.

(** The optional group [(?::(\w+))] followed by [>>>], tried first. *)
Definition matchTyped (r : str) : option str :=
  match r with
  | c :: r' =>
      if Ascii.eqb c ":"%char then
        let w := takeWhile isWord r' in
        if truthy w then
          match matchLiteral (js ">>>") (drop (length w) r') with
          | Some _ => Some w
          | None => None
          end
        else None
      else None
  | [] => None
  end.

(** A match of [OPEN_TAG_RE] that starts at the head of [s]. *)
Definition matchOpenAt (s : str) : option (str * option str) :=
  match matchLiteral (js "<<<slack") s with
  | None => None
  | Some r =>
      match matchTyped r with
      | Some w => Some (take (8 + 1 + length w + 3) s, Some w)
      | None =>
          match matchLiteral (js ">>>") r with
          | Some _ => Some (take (8 + 3) s, None)
          | None => None
          end
      end
  end.

(** [OPEN_TAG_RE.exec(s)]: the leftmost match. *)
Fixpoint exec (s : str) : option RegExpMatch :=
  match matchOpenAt s with
  | Some (m0, m1) => Some (mkMatch 0 m0 m1)
  | None =>
      match s with
      | [] => None
      | _ :: s' =>
          match exec s' with
          | Some m => Some (mkMatch (S (index m)) (matched m) (group1 m))
          | None => None
          end
      end
  end.

(** *** Parser state *)

Inductive State := scanning | capturing.

Definition Timer := nat.

Record Parser := mkParser {
  state : State;
  scanBuffer : str;
  captureBuffer : str;
  currentType : option EnvelopeType;
  activated : bool;
  activationTimer : Timer;
  unclosedTimer : option Timer;
  (** Host side: the timeouts scheduled and neither fired nor cleared,
      and the next fresh handle. *)
  pending : list Timer;
  nextTimer : Timer
}.

Global Instance State_eq_dec : EqDecision State.
Proof. solve_decision. Defined.
Global Instance EnvelopeType_eq_dec : EqDecision EnvelopeType.
Proof. solve_decision. Defined.

Definition setState (v : State) (p : Parser) : Parser :=
  mkParser v (scanBuffer p) (captureBuffer p) (currentType p) (activated p)
    (activationTimer p) (unclosedTimer p) (pending p) (nextTimer p).
Definition setScanBuffer (v : str) (p : Parser) : Parser :=
  mkParser (state p) v (captureBuffer p) (currentType p) (activated p)
    (activationTimer p) (unclosedTimer p) (pending p) (nextTimer p).
Definition setCaptureBuffer (v : str) (p : Parser) : Parser :=
  mkParser (state p) (scanBuffer p) v (currentType p) (activated p)
    (activationTimer p) (unclosedTimer p) (pending p) (nextTimer p).
Definition setCurrentType (v : option EnvelopeType) (p : Parser) : Parser :=
  mkParser (state p) (scanBuffer p) (captureBuffer p) v (activated p)
    (activationTimer p) (unclosedTimer p) (pending p) (nextTimer p).
Definition setActivated (v : bool) (p : Parser) : Parser :=
  mkParser (state p) (scanBuffer p) (captureBuffer p) (currentType p) v
    (activationTimer p) (unclosedTimer p) (pending p) (nextTimer p).
Definition setUnclosedTimer (v : option Timer) (p : Parser) : Parser :=
  mkParser (state p) (scanBuffer p) (captureBuffer p) (currentType p)
    (activated p) (activationTimer p) v (pending p) (nextTimer p).

(** [clearTimeout(t)]. *)
Definition clearTimeout (t : Timer) (p : Parser) : Parser :=
  mkParser (state p) (scanBuffer p) (captureBuffer p) (currentType p)
    (activated p) (activationTimer p) (unclosedTimer p)
    (filter (fun t' => t' <> t) (pending p)) (nextTimer p).

(** [this.unclosedTimer = setTimeout(() => this.flushPartial(), ...)]. *)
Definition armUnclosed (p : Parser) : Parser :=
  mkParser (state p) (scanBuffer p) (captureBuffer p) (currentType p)
    (activated p) (activationTimer p) (Some (nextTimer p))
    (nextTimer p :: pending p) (S (nextTimer p)).

(** The constructor: scanning, not activated, the activation timer
    scheduled. *)
Definition new : Parser :=
  mkParser scanning [] [] None false 0 None [0] 1.

(** What a call returns: the parser after it and the envelopes emitted
    during it, in order. *)
Definition Result : Type := Parser * list EnvelopeMessage.

Definition emitThen (m : EnvelopeMessage) (r : Result) : Result :=
  (r.1, m :: r.2).

(** [tryScanOpen], the branch without a match: keep the tail. *)
Definition trimScan (p : Parser) : Parser :=
  if SCAN_TAIL <? length (scanBuffer p)
  then setScanBuffer (sliceLast SCAN_TAIL (scanBuffer p)) p
  else p.

(** [tryScanOpen] from the match to the call of [tryClose]. *)
Definition openEnvelope (m : RegExpMatch) (p : Parser) : Parser :=
  let rawType := toLowerCase <$> group1 m in
  let p := setCurrentType (rawType ≫= fun r =>
                             if truthy r then validType r else None) p in
  let p := setCaptureBuffer
             (drop (index m + length (matched m)) (scanBuffer p)) p in
  let p := setScanBuffer [] p in
  let p := setState capturing p in
  armUnclosed p.

(** [tryClose], the timer part: [clearTimeout] and the field set to
    [null]. *)
Definition disarmUnclosed (p : Parser) : Parser :=
  match unclosedTimer p with
  | Some t => setUnclosedTimer None (clearTimeout t p)
  | None => p
  end.

(** [tryClose], the envelope emitted for a close tag at [idx]. *)
Definition closeMessage (idx : nat) (p : Parser) : EnvelopeMessage :=
  mkMessage (currentType p) (trim (stripAnsi (take idx (captureBuffer p))))
    None.

(** [tryClose], the parser after a close tag at [idx]: back to
    scanning, the remainder in the scan buffer. *)
Definition closeEnvelope (idx : nat) (p : Parser) : Parser :=
  let remainder := drop (idx + length CLOSE_TAG) (captureBuffer p) in
  setScanBuffer remainder
    (setCaptureBuffer [] (setState scanning (disarmUnclosed p))).

(** [tryClose], with [scanOpen] for its call of [tryScanOpen]. *)
Definition tryCloseWith (scanOpen : Parser -> Result) (p : Parser) : Result :=
  match indexOf CLOSE_TAG (toLowerCase (captureBuffer p)) with
  | None => (p, [])
  | Some idx =>
      let p2 := closeEnvelope idx p in
      emitThen (closeMessage idx p)
        (if 0 <? length (scanBuffer p2) then scanOpen p2 else (p2, []))
  end.

(** [tryScanOpen] and [tryClose] call each other; every call of
    [tryScanOpen] from [tryClose] is on a strictly shorter scan buffer,
    which [fuel] counts. *)
Fixpoint tryScanOpenFuel (fuel : nat) (p : Parser) : Result :=
  match exec (scanBuffer p) with
  | None => (trimScan p, [])
  | Some m =>
      match fuel with
      | 0 => (openEnvelope m p, [])
      | S fuel' => tryCloseWith (tryScanOpenFuel fuel') (openEnvelope m p)
      end
  end.

Definition tryScanOpen (p : Parser) : Result :=
  tryScanOpenFuel (S (length (scanBuffer p))) p.

Definition tryClose (p : Parser) : Result := tryCloseWith tryScanOpen p.

Definition push (data : str) (p : Parser) : Result :=
  if negb (activated p) then (p, [])
  else match state p with
       | scanning => tryScanOpen (setScanBuffer (scanBuffer p ++ data) p)
       | capturing => tryClose (setCaptureBuffer (captureBuffer p ++ data) p)
       end.

Definition reset (p : Parser) : Parser :=
  setCurrentType None
    (setCaptureBuffer [] (setScanBuffer [] (setState scanning p))).

Definition flush (p : Parser) : Result :=
  let p := clearTimeout (activationTimer p) p in
  let p := match unclosedTimer p with
           | Some t => clearTimeout t p
           | None => p
           end in
  let out :=
    if bool_decide (state p = capturing) && truthy (trim (captureBuffer p))
    then [mkMessage (currentType p) (trim (stripAnsi (captureBuffer p)))
            (Some true)]
    else [] in
  (reset p, out).

Definition flushPartial (p : Parser) : Result :=
  let text := trim (stripAnsi (captureBuffer p)) in
  let out := if truthy text
             then [mkMessage (currentType p) text (Some true)] else [] in
  (setCaptureBuffer [] (setState scanning p), out).

(** A timeout fires: the host drops the handle and runs its callback,
    the activation when the handle is the activation timer and
    [flushPartial] otherwise.  A handle that is not pending (cleared, or
    fired before) does not fire: nothing happens. *)
Definition fire (t : Timer) (p : Parser) : Result :=
  if bool_decide (t ∈ pending p) then
    let p := clearTimeout t p in
    if bool_decide (t = activationTimer p)
    then (setActivated true p, [])
    else flushPartial p
  else (p, []).

(** What happens to a parser during its life. *)
Inductive Event :=
| Push (data : str)
| Fire (t : Timer)
| Flush.

Definition step (e : Event) (p : Parser) : Result :=
  match e with
  | Push data => push data p
  | Fire t => fire t p
  | Flush => flush p
  end.

(** One call after another, the envelopes in order. *)
Definition andThen (r : Result) (f : Parser -> Result) : Result :=
  ((f r.1).1, r.2 ++ (f r.1).2).

Fixpoint run (evs : list Event) (p : Parser) : Result :=
  match evs with
  | [] => (p, [])
  | e :: evs' => andThen (step e p) (run evs')
  end.

(** Chunks pushed one after the other. *)
Fixpoint pushAll (chunks : list str) (p : Parser) : Result :=
  match chunks with
  | [] => (p, [])
  | c :: cs => andThen (push c p) (pushAll cs)
  end.

(** A parser whose activation delay has elapsed. *)
Definition activatedNew : Parser := (fire (activationTimer new) new).1.

(** The open marker [<<<SLACK:TYPE>>>] and the close marker
    [<<<END_SLACK>>>] of the wire format. *)
Definition openMarker (t : EnvelopeType) : str :=
  js "<<<SLACK:" ++ typeName t ++ js ">>>".

(** The parser states that the events of a parser's life lead to. *)
Definition reachable (p : Parser) : Prop :=
  exists evs, (run evs new).1 = p.


(** The shape of a text matched by [OPEN_TAG_RE]. *)
Definition OpenTag (m0 : str) (g : option str) : Prop :=
  exists a, toLowerCase a = js "<<<slack" /\
    ((g = None /\ m0 = a ++ js ">>>") \/
     (exists w, g = Some w /\ w <> [] /\ forallb isWord w = true /\
                m0 = a ++ ":"%char :: w ++ js ">>>")).

(** The calls of [tryScanOpen] and [tryClose] as derivations: one rule
    for each path through the two methods. *)
Inductive ScanOpen : Parser -> Result -> Prop :=
| ScanOpen_none p :
    exec (scanBuffer p) = None ->
    ScanOpen p (trimScan p, [])
| ScanOpen_match p m r :
    exec (scanBuffer p) = Some m ->
    Close (openEnvelope m p) r ->
    ScanOpen p r
with Close : Parser -> Result -> Prop :=
| Close_none p :
    indexOf CLOSE_TAG (toLowerCase (captureBuffer p)) = None ->
    Close p (p, [])
| Close_last p idx :
    indexOf CLOSE_TAG (toLowerCase (captureBuffer p)) = Some idx ->
    scanBuffer (closeEnvelope idx p) = [] ->
    Close p (closeEnvelope idx p, [closeMessage idx p])
| Close_more p idx r :
    indexOf CLOSE_TAG (toLowerCase (captureBuffer p)) = Some idx ->
    scanBuffer (closeEnvelope idx p) <> [] ->
    ScanOpen (closeEnvelope idx p) r ->
    Close p (emitThen (closeMessage idx p) r).

Scheme ScanOpen_ind' := Minimality for ScanOpen Sort Prop
  with Close_ind' := Minimality for Close Sort Prop.
Combined Scheme ScanOpen_Close_ind from ScanOpen_ind', Close_ind'.

(** What holds of every parser that the events of its life lead to. *)
Definition wellFormed (p : Parser) : Prop :=
  activationTimer p = 0 /\ 0 < nextTimer p /\
  match state p with
  | scanning => captureBuffer p = [] /\ exec (scanBuffer p) = None
  | capturing =>
      scanBuffer p = [] /\ activated p = true /\
      exists t, unclosedTimer p = Some t /\ t ∈ pending p /\ t <> 0
  end.


(** What [tryScanOpen] keeps of a scan buffer without a match. *)
Definition keepTail (s : str) : str :=
  if SCAN_TAIL <? length s then sliceLast SCAN_TAIL s else s.

(** The buffer in use: the scan buffer while scanning, the capture
    buffer while capturing. *)
Definition buf (p : Parser) : str :=
  match state p with
  | scanning => scanBuffer p
  | capturing => captureBuffer p
  end.

(** A parser that has not been activated and holds no capture. *)
Definition dormant (p : Parser) : Prop :=
  activated p = false /\ activationTimer p = activationTimer new /\
  captureBuffer p = [].

(** A parser in the middle of a capture. *)
Definition capturingExample : Parser :=
  (pushAll [js "noise <<<SLACK:warning>>> disk "; js "almost full"]
     activatedNew).1.

End EnvelopeParser.

(** ** The outbound reporting interface (slack/reporter.ts) *)
Module Reporter.

(** A call made on the reporter. *)
Inductive Call :=
| PostMessage (channelId text : str) (threadTs : option str)
| UpdateMessage (channelId ts text : str).

(** How the reporting layer answers: [postMessage] resolves to the
    timestamp of the new message or rejects ([None]); [updateMessage]
    resolves ([true]) or rejects ([false]). *)
Record Reporter := mkReporter {
  postMessage : str -> str -> option str -> option str;
  updateMessage : str -> str -> str -> bool
}.

End Reporter.

(** ** fullStreamer.ts *)
Module FullStreamer.
Import Reporter.

Record Options := mkOptions {
  channelId : str;
  threadTs : str;
  flushIntervalMs : nat;
  (** A character count. *)
  maxCharsPerMessage : nat
}.

Record Streamer := mkStreamer {
  buffer : str;
  currentTs : option str;
  (** The handle of the interval, and whether the host still runs it. *)
  flushTimer : option nat;
  ticking : bool;
  stopped : bool
}.

(** What an asynchronous method leaves behind: the streamer, the calls
    made on the reporter in order, the number of errors logged, and
    whether the promise was rejected. *)
Record Outcome := mkOutcome {
  after : Streamer;
  calls : list Call;
  logged : nat;
  rejected : bool
}.

Definition new : Streamer := mkStreamer [] None None false false.

Definition setBuffer (v : str) (s : Streamer) : Streamer :=
  mkStreamer v (currentTs s) (flushTimer s) (ticking s) (stopped s).
Definition setCurrentTs (v : option str) (s : Streamer) : Streamer :=
  mkStreamer (buffer s) v (flushTimer s) (ticking s) (stopped s).

Definition LF : ascii := ascii_of_nat 10.

(** The template [```\n${text}\n```]. *)
Definition block (text : str) : str :=
  js "```" ++ LF :: text ++ LF :: js "```".

Definition RUNNING : str := js "⏳ Running…".
Definition CONTINUED : str := js "⏳ …".

(** Truthiness of [this.currentTs]. *)
Definition tsOf (s : Streamer) : option str :=
  match currentTs s with
  | Some ts => if truthy ts then Some ts else None
  | None => None
  end.

Definition start (o : Options) (r : Reporter) (s : Streamer) : Outcome :=
  match postMessage r (channelId o) RUNNING (Some (threadTs o)) with
  | None =>
      mkOutcome s [PostMessage (channelId o) RUNNING (Some (threadTs o))]
        0 true
  | Some ts =>
      mkOutcome
        (mkStreamer (buffer s) (Some ts) (Some 1) true (stopped s))
        [PostMessage (channelId o) RUNNING (Some (threadTs o))] 0 false
  end.

Definition push (data : str) (s : Streamer) : Streamer :=
  if stopped s then s
  else setBuffer (buffer s ++ stripAnsi data) s.

Definition finish (o : Options) (r : Reporter) (exitCode : Z)
    (s : Streamer) : Outcome :=
  let s := mkStreamer (buffer s) (currentTs s) (flushTimer s)
             (match flushTimer s with Some _ => false | None => ticking s end)
             true in
  let status := if (exitCode =? 0)%Z then js "✅" else js "❌" in
  let code := if truthy (trim (buffer s))
              then block (trim (buffer s)) ++ [LF] else [] in
  match tsOf s with
  | Some ts =>
      let text := code ++ status ++ js " Exited with code "
                  ++ js (pretty exitCode) in
      let call := UpdateMessage (channelId o) ts text in
      if updateMessage r (channelId o) ts text
      then mkOutcome (setBuffer [] s) [call] 0 false
      else mkOutcome s [call] 0 true
  | None => mkOutcome (setBuffer [] s) [] 0 false
  end.

Definition flush (o : Options) (r : Reporter) (s : Streamer) : Outcome :=
  match tsOf s with
  | None => mkOutcome s [] 0 false
  | Some ts =>
      if negb (truthy (buffer s)) || stopped s then mkOutcome s [] 0 false
      else if maxCharsPerMessage o <? length (buffer s) then
        let chunk := take (maxCharsPerMessage o) (buffer s) in
        let s1 := setBuffer (drop (maxCharsPerMessage o) (buffer s)) s in
        let update := UpdateMessage (channelId o) ts (block chunk) in
        let post := PostMessage (channelId o) CONTINUED (Some (threadTs o)) in
        if updateMessage r (channelId o) ts (block chunk) then
          match postMessage r (channelId o) CONTINUED (Some (threadTs o)) with
          | Some ts' =>
              mkOutcome (setCurrentTs (Some ts') s1) [update; post] 0 false
          | None => mkOutcome s1 [update; post] 1 false
          end
        else mkOutcome s1 [update] 1 false
      else
        let update := UpdateMessage (channelId o) ts (block (buffer s)) in
        if updateMessage r (channelId o) ts (block (buffer s))
        then mkOutcome s [update] 0 false
        else mkOutcome s [update] 1 false
  end.

(** The interval fires: [flush] runs while the host still has the
    interval; after [clearInterval] there is no tick. *)
Definition tick (o : Options) (r : Reporter) (s : Streamer) : Outcome :=
  if ticking s then flush o r s else mkOutcome s [] 0 false.

(** A reporter whose calls all succeed, and one whose calls all fail. *)
Definition reliable (ts : str) : Reporter :=
  mkReporter (fun _ _ _ => Some ts) (fun _ _ _ => true).
Definition failing : Reporter :=
  mkReporter (fun _ _ _ => None) (fun _ _ _ => false).

(** A streamer in the middle of a run, with a ceiling of four. *)
Definition sampleOptions : Options :=
  mkOptions (js "C1") (js "100.1") 2000 4.

Definition sampleStreamer (buf : str) : Streamer :=
  mkStreamer buf (Some (js "100.2")) (Some 1) true false.

End FullStreamer.

(** ** SHA-1 ([createHash('sha1')] of node:crypto) *)
Module Sha1.
Local Open Scope N_scope.

Definition mask32 : N := 0xFFFFFFFF.
Definition add32 (a b : N) : N := (a + b) mod 0x100000000.
Definition rotl (n x : N) : N :=
  N.land (N.lor (N.shiftl x n) (N.shiftr x (32 - n))) mask32.
Definition not32 (x : N) : N := N.lxor x mask32.

(** The string as the bytes that [update] hashes: UTF-8, one byte below
    128 and two bytes from 128 to 255. *)
Definition utf8 (s : str) : list N :=
  flat_map (fun c => let n := N_of_ascii c in
                     if n <? 128 then [n]
                     else [N.lor 0xC0 (N.shiftr n 6);
                           N.lor 0x80 (N.land n 0x3F)]) s.

Definition be64 (n : N) : list N :=
  map (fun i => N.shiftr n (8 * i) mod 256) [7; 6; 5; 4; 3; 2; 1; 0].

(** Padding: the bit 1, zeros up to 56 modulo 64, the bit length. *)
Definition pad (msg : list N) : list N :=
  let len := length msg in
  let zeros := ((55 + 64 - len mod 64) mod 64)%nat in
  msg ++ 0x80 :: repeat 0 zeros ++ be64 (8 * N.of_nat len).

Fixpoint blocks (fuel : nat) (bytes : list N) : list (list N) :=
  match fuel, bytes with
  | S fuel', _ :: _ => take 64 bytes :: blocks fuel' (drop 64 bytes)
  | _, _ => []
  end.

Fixpoint words (fuel : nat) (bytes : list N) : list N :=
  match fuel, bytes with
  | S fuel', a :: b :: c :: d :: rest =>
      (N.shiftl a 24 + N.shiftl b 16 + N.shiftl c 8 + d)
        :: words fuel' rest
  | _, _ => []
  end.

(** The message schedule, latest word first. *)
Fixpoint schedule (n : nat) (rev_w : list N) : list N :=
  match n with
  | O => rev_w
  | S n' =>
      let w := rotl 1 (N.lxor (N.lxor (nth 2 rev_w 0) (nth 7 rev_w 0))
                         (N.lxor (nth 13 rev_w 0) (nth 15 rev_w 0))) in
      schedule n' (w :: rev_w)
  end.

Record Hash := mkHash { h0 : N; h1 : N; h2 : N; h3 : N; h4 : N }.

Definition init : Hash :=
  mkHash 0x67452301 0xEFCDAB89 0x98BADCFE 0x10325476 0xC3D2E1F0.

Definition round (t : nat) (st : Hash) (w : N) : Hash :=
  let '(mkHash a b c d e) := st in
  let '(f, k) :=
    if (t <? 20)%nat
    then (N.lor (N.land b c) (N.land (not32 b) d), 0x5A827999)
    else if (t <? 40)%nat then (N.lxor (N.lxor b c) d, 0x6ED9EBA1)
    else if (t <? 60)%nat
    then (N.lor (N.lor (N.land b c) (N.land b d)) (N.land c d), 0x8F1BBCDC)
    else (N.lxor (N.lxor b c) d, 0xCA62C1D6) in
  let temp := add32 (add32 (add32 (add32 (rotl 5 a) f) e) k) w in
  mkHash temp a (rotl 30 b) c d.

Fixpoint rounds (t : nat) (ws : list N) (st : Hash) : Hash :=
  match ws with
  | [] => st
  | w :: ws' => rounds (S t) ws' (round t st w)
  end.

Definition compress (st : Hash) (block : list N) : Hash :=
  let ws := rev (schedule 64 (rev (words 16 block))) in
  let st' := rounds 0 ws st in
  mkHash (add32 (h0 st) (h0 st')) (add32 (h1 st) (h1 st'))
    (add32 (h2 st) (h2 st')) (add32 (h3 st) (h3 st'))
    (add32 (h4 st) (h4 st')).

Definition hash (msg : list N) : Hash :=
  let padded := pad msg in
  fold_left compress (blocks (length padded) padded) init.

Definition wordBytes (w : N) : list N :=
  [N.shiftr w 24 mod 256; N.shiftr w 16 mod 256; N.shiftr w 8 mod 256;
   w mod 256].

Definition digest (msg : list N) : list N :=
  let h := hash msg in
  wordBytes (h0 h) ++ wordBytes (h1 h) ++ wordBytes (h2 h)
    ++ wordBytes (h3 h) ++ wordBytes (h4 h).

Definition hexDigit (n : N) : ascii :=
  match n with
  | 0 => "0" | 1 => "1" | 2 => "2" | 3 => "3" | 4 => "4" | 5 => "5"
  | 6 => "6" | 7 => "7" | 8 => "8" | 9 => "9" | 10 => "a" | 11 => "b"
  | 12 => "c" | 13 => "d" | 14 => "e" | _ => "f"
  end%char.

Definition hexByte (b : N) : str := [hexDigit (b / 16); hexDigit (b mod 16)].

(** [digest('hex')]. *)
Definition digestHex (msg : list N) : str := flat_map hexByte (digest msg).

End Sha1.

(** ** session.ts: identifiers *)
Module SessionId.
Local Open Scope N_scope.

Definition NAMESPACE_UUID : str := js "6ba7b810-9dad-11d1-80b4-00c04fd430c8".

(** [s.substring(a, b)] for [a <= b]. *)
Definition substring (a b : nat) (s : str) : str := take (b - a) (drop a s).

Definition hexValue (c : ascii) : option N :=
  let n := N_of_ascii c in
  if (48 <=? n) && (n <=? 57) then Some (n - 48)
  else if (97 <=? n) && (n <=? 102) then Some (n - 87)
  else if (65 <=? n) && (n <=? 70) then Some (n - 55)
  else None.

(** [parseInt(s, 16)] on a string without sign, white space or prefix:
    the value of the longest run of hexadecimal digits at its start;
    [None] is NaN. *)
Fixpoint parseHexFrom (acc : N) (s : str) : N :=
  match s with
  | c :: s' => match hexValue c with
               | Some d => parseHexFrom (16 * acc + d) s'
               | None => acc
               end
  | [] => acc
  end.

Definition parseInt16 (s : str) : option N :=
  match s with
  | c :: _ => match hexValue c with
              | Some _ => Some (parseHexFrom 0 s)
              | None => None
              end
  | [] => None
  end.

(** The operand of a bit operation: NaN becomes 0. *)
Definition toInt32 (x : option N) : N := default 0 x.

Fixpoint hexDigits (fuel : nat) (n : N) (acc : str) : str :=
  match fuel with
  | O => acc
  | S fuel' =>
      if n <? 16 then Sha1.hexDigit n :: acc
      else hexDigits fuel' (n / 16) (Sha1.hexDigit (n mod 16) :: acc)
  end.

(** [n.toString(16)]. *)
Definition toString16 (n : N) : str := hexDigits (S (N.size_nat n)) n [].

(** [s.padStart(n, '0')]. *)
Definition padStart0 (n : nat) (s : str) : str :=
  repeat "0"%char (n - length s) ++ s.

Fixpoint join (sep : str) (parts : list str) : str :=
  match parts with
  | [] => []
  | [x] => x
  | x :: rest => x ++ sep ++ join sep rest
  end.

(** The five groups cut out of the hexadecimal digest. *)
Definition uuidOfHash (hash : str) : str :=
  let parts :=
    [substring 0 8 hash;
     substring 8 12 hash;
     "5"%char :: substring 13 16 hash;
     padStart0 2
       (toString16
          (N.lor (N.land (toInt32 (parseInt16 (substring 16 18 hash))) 0x3f)
             0x80))
       ++ substring 18 20 hash;
     substring 20 32 hash] in
  join (js "-") parts.

Definition stringToUuid (input : str) : str :=
  let hash :=
    Sha1.digestHex
      (Sha1.utf8 (filter (fun c => c <> "-"%char) NAMESPACE_UUID)
         ++ Sha1.utf8 input) in
  uuidOfHash hash.

(** *** The format xxxxxxxx-xxxx-5xxx-[89ab]xxx-xxxxxxxxxxxx *)

Definition isLowerHex (c : ascii) : bool :=
  let n := N_of_ascii c in
  ((48 <=? n) && (n <=? 57)) || ((97 <=? n) && (n <=? 102)).

(** The groups of [s] between hyphens. *)
Fixpoint splitHyphen (cur : str) (s : str) : list str :=
  match s with
  | [] => [rev cur]
  | c :: s' =>
      if Ascii.eqb c "-"%char then rev cur :: splitHyphen [] s'
      else splitHyphen (c :: cur) s'
  end.

Definition isUuidV5 (s : str) : bool :=
  match splitHyphen [] s with
  | [g1; g2; g3; g4; g5] =>
      forallb isLowerHex (g1 ++ g2 ++ g3 ++ g4 ++ g5) &&
      bool_decide (map length [g1; g2; g3; g4; g5] = [8; 4; 4; 4; 12]%nat) &&
      bool_decide (head g3 = Some "5"%char) &&
      bool_decide (head g4 ∈ [Some "8"%char; Some "9"%char; Some "a"%char;
                              Some "b"%char])
  | _ => false
  end.

(** The fourth group: the variant byte and the byte after it. *)
Definition variantGroup (hi lo : ascii) : str :=
  padStart0 2
    (toString16
       (N.lor (N.land (toInt32 (parseInt16 [hi; lo])) 0x3f) 0x80)).

Definition variantGroupOk (b : N) : bool :=
  match variantGroup (Sha1.hexDigit (b / 16)) (Sha1.hexDigit (b mod 16)) with
  | [d1; d2] =>
      bool_decide (d1 ∈ ["8"; "9"; "a"; "b"]%char) && isLowerHex d2
  | _ => false
  end.

End SessionId.

(** ** cli/runner.ts and commands/router.ts: the session manager *)
Module SessionManager.
Import SessionId.

Inductive SessionMode := interactive | oneShot.
Inductive SessionStatus := running | exited | timed_out.

Record CommandConfig := mkCommand {
  prefix : str;
  binary : str;
  args : option (list str);
  mode : SessionMode;
  envelope : bool;
  description : str;
  timeout : option bool;
  promptFlag : option str;
  sessionFlag : option str;
  sessionIdFlag : option str;
  resumeFlag : option str
}.

Record SessionSpawnOptions := mkSpawnOptions {
  channelId : str;
  threadTs : str;
  command : str;
  config : CommandConfig;
  cwd : option str;
  sessionId : option str;
  isContinuation : option bool
}.

Record ThreadBinding := mkBinding {
  bindingPrefix : str;
  bindingSessionId : str;
  bindingChannelId : str
}.

(** A session object; [startedAt] is left out. *)
Record Session := mkSession {
  id : str;
  sessionChannelId : str;
  sessionThreadTs : str;
  messageTs : option str;
  sessionCommand : str;
  sessionConfig : CommandConfig;
  status : SessionStatus;
  exitCode : option Z;
  process : nat;
  router : nat;
  timeoutHandle : option nat
}.

(** What the manager does to the outside, in order. *)
Inductive Effect :=
| SpawnProcess (bin : str) (argv : list str)
| RouterStart (r : nat)
| RouterFinish (r : nat) (code : Z)
| PostMessage (channel text thread : str)
| PostMessageWithButton (channel text thread : str)
| UpdateMessage (channel ts text : str)
| UpdateMessageWithButton (channel ts text : str)
| Kill (proc : nat)
| SessionsDelete (thread : str) (found : bool).

(** The closure of [handle.onExit]: its thread and its flag [exited]. *)
Record ExitListener := mkListener {
  listenerThreadTs : str;
  exitedFlag : bool
}.

(** The closure of the session timeout. *)
Record Timeout := mkTimeout {
  timeoutThreadTs : str;
  timeoutProcess : nat
}.

(** A call of [finalise] suspended at one of its [await]s. *)
Inductive Stage := AwaitRouterFinish | AwaitNotice.
Record Finalising := mkFinalising {
  finalisingThreadTs : str;
  finalisingExitCode : Z;
  finalisingSession : nat;
  stage : Stage
}.

(** The manager: the session objects (referred to by number, so that a
    suspended [finalise] and the map share one object), the two maps of
    the class, the closures the host holds, the suspended calls, and
    the effects so far. *)
Record Manager := mkManager {
  objects : gmap nat Session;
  sessions : gmap str nat;
  threadBindings : gmap str ThreadBinding;
  listeners : gmap nat ExitListener;
  timeouts : gmap nat Timeout;
  finalising : list Finalising;
  effects : list Effect;
  fresh : nat
}.

Definition empty : Manager := mkManager ∅ ∅ ∅ ∅ ∅ [] [] 0.

(** An optional string used as a condition: set and not empty. *)
Definition given (x : option str) : option str :=
  match x with
  | Some v => if truthy v then Some v else None
  | None => None
  end.

Definition LF : ascii := ascii_of_nat 10.

Definition slackSessionId (channel thread : str) : str :=
  js "slack-" ++ channel ++ js "-" ++ thread.

Definition bindingKey (channel thread : str) : str :=
  channel ++ js ":" ++ thread.

(** [options.sessionId ?? (cmdConfig.sessionIdFlag ?
    stringToUuid(slackSessionId) : slackSessionId)], as [spawn] writes
    it for the flags and again for the thread binding. *)
Definition continuationId (o : SessionSpawnOptions) : str :=
  match sessionId o with
  | Some v => v
  | None =>
      match given (sessionIdFlag (config o)) with
      | Some _ => stringToUuid (slackSessionId (channelId o) (threadTs o))
      | None => slackSessionId (channelId o) (threadTs o)
      end
  end.

Definition isTrue (x : option bool) : bool :=
  match x with Some true => true | _ => false end.

Definition finalCommand (promptText : str) (o : SessionSpawnOptions) : str :=
  match mode (config o) with
  | oneShot =>
      if envelope (config o) && truthy promptText
      then promptText ++ [LF; LF] ++ command o
      else command o
  | interactive => command o
  end.

(** The session flag and id that a one-shot spawn injects. *)
Definition sessionArgs (o : SessionSpawnOptions) : list str :=
  let cfg := config o in
  match given (sessionFlag cfg) with
  | Some f => [f; continuationId o]
  | None =>
      match given (sessionIdFlag cfg) with
      | Some create =>
          match (if isTrue (isContinuation o)
                 then given (resumeFlag cfg) else None) with
          | Some resume => [resume; continuationId o]
          | None => [create; continuationId o]
          end
      | None => []
      end
  end.

(** The prompt flag and the command, or the command alone. *)
Definition promptArgs (promptText : str) (o : SessionSpawnOptions)
    : list str :=
  match given (promptFlag (config o)) with
  | Some pf => [pf; finalCommand promptText o]
  | None => [finalCommand promptText o]
  end.

(** The arguments handed to [spawnProcess]. *)
Definition spawnArgs (promptText : str) (o : SessionSpawnOptions)
    : list str :=
  let cfg := config o in
  match mode cfg with
  | oneShot =>
      default [] (args cfg) ++ sessionArgs o ++ promptArgs promptText o
  | interactive =>
      default [] (args cfg) ++
        match given (sessionIdFlag cfg) with
        | Some create =>
            [create;
             stringToUuid (slackSessionId (channelId o) (threadTs o))]
        | None => []
        end
  end.

(** The thread binding that [spawn] registers. *)
Definition registerBinding (o : SessionSpawnOptions)
    (b : gmap str ThreadBinding) : gmap str ThreadBinding :=
  let cfg := config o in
  if (bool_decide (is_Some (given (sessionFlag cfg)))
      || bool_decide (is_Some (given (sessionIdFlag cfg))))
     && negb (isTrue (isContinuation o))
  then <[bindingKey (channelId o) (threadTs o) :=
           mkBinding (prefix cfg) (continuationId o) (channelId o)]> b
  else b.

(** How [spawnProcess] ends. *)
Inductive SpawnOutcome := Started | Failed (err : str).

Definition appendEffects (es : list Effect) (m : Manager) : Manager :=
  mkManager (objects m) (sessions m) (threadBindings m) (listeners m)
    (timeouts m) (finalising m) (effects m ++ es) (fresh m).

(** [spawn], when nothing else happens during its [await]s.  [sid] is
    the generated session id, [startTs] the timestamp that the start
    notification gets.  The delayed write of the prompt to an
    interactive process and the audit line are left out. *)
Definition spawn (promptText sid startTs : str) (outcome : SpawnOutcome)
    (o : SessionSpawnOptions) (m : Manager) : Manager :=
  let cfg := config o in
  let call := SpawnProcess (binary cfg) (spawnArgs promptText o) in
  match outcome with
  | Failed err =>
      appendEffects
        [call;
         PostMessage (channelId o)
           (js "❌ Failed to start `" ++ binary cfg ++ js "`: " ++ err)
           (threadTs o)] m
  | Started =>
      let handle := fresh m in
      let timer := S (fresh m) in
      let notify := negb (isTrue (isContinuation o)) in
      let started :=
        match mode cfg with
        | oneShot =>
            PostMessage (channelId o)
              (js "🚀 Session started — " ++ description cfg) (threadTs o)
        | interactive =>
            PostMessageWithButton (channelId o)
              (js "🚀 Session started — " ++ description cfg
                 ++ js " (log: `" ++ sid ++ js "`)") (threadTs o)
        end in
      let timed := negb (bool_decide (timeout cfg = Some false)) in
      let session :=
        mkSession sid (channelId o) (threadTs o)
          (if notify then Some startTs else None) (command o) cfg running
          None handle handle (if timed then Some timer else None) in
      mkManager
        (<[handle := session]> (objects m))
        (<[threadTs o := handle]> (sessions m))
        (registerBinding o (threadBindings m))
        (<[handle := mkListener (threadTs o) false]> (listeners m))
        (if timed
         then <[timer := mkTimeout (threadTs o) handle]> (timeouts m)
         else timeouts m)
        (finalising m)
        (effects m ++ [call; RouterStart handle]
           ++ (if notify then [started] else []))
        (S (S (fresh m)))
  end.

(** *** commands/router.ts *)

(** [handleCli]: the options of a first spawn, the thread rooted at
    the message [ts]. *)
Definition cliOptions (channel ts commandArgs : str) (cfg : CommandConfig)
    : SessionSpawnOptions :=
  mkSpawnOptions channel ts commandArgs cfg None None None.

(** [handleMessage], step 3: the options of the continuation spawn for
    a message in a thread that has a binding. *)
Definition continuationOptions (commands : list CommandConfig)
    (channel text : str) (thread : option str) (m : Manager)
    : option SessionSpawnOptions :=
  match given thread with
  | None => None
  | Some ts =>
      match threadBindings m !! bindingKey channel ts with
      | None => None
      | Some binding =>
          match find (fun c => bool_decide (prefix c = bindingPrefix binding))
                  commands with
          | None => None
          | Some cfg =>
              Some (mkSpawnOptions channel ts text cfg None
                      (Some (bindingSessionId binding)) (Some true))
          end
      end
  end.

(** *** Exit, timeout and finalisation *)

Definition label (code : Z) : str :=
  if (code =? -1)%Z then js "⏱️ Session timed out"
  else if (code =? 0)%Z then js "✅ Session complete (exit code 0)"
  else js "❌ Session ended (exit code " ++ js (pretty code) ++ js ")".

Definition completionNotice (session : Session) (code : Z) : Effect :=
  let text := js "🚀 Session started — "
              ++ description (sessionConfig session) ++ LF :: label code in
  let ts := default [] (messageTs session) in
  match mode (sessionConfig session) with
  | oneShot => UpdateMessage (sessionChannelId session) ts text
  | interactive => UpdateMessageWithButton (sessionChannelId session) ts text
  end.

(** [finalise] up to its first [await]: the lookup, the timeout
    cleared, status and exit code set, [router.finish] called. *)
Definition finalise (thread : str) (code : Z) (m : Manager) : Manager :=
  match sessions m !! thread with
  | None => m
  | Some ref =>
      match objects m !! ref with
      | None => m
      | Some session =>
          let session' :=
            mkSession (id session) (sessionChannelId session)
              (sessionThreadTs session) (messageTs session)
              (sessionCommand session) (sessionConfig session)
              (if (code =? -1)%Z then timed_out else exited) (Some code)
              (process session) (router session) (timeoutHandle session) in
          mkManager
            (<[ref := session']> (objects m))
            (sessions m) (threadBindings m) (listeners m)
            (match timeoutHandle session with
             | Some t => delete t (timeouts m)
             | None => timeouts m
             end)
            (finalising m ++ [mkFinalising thread code ref AwaitRouterFinish])
            (effects m ++ [RouterFinish (router session) code])
            (fresh m)
      end
  end.

(** The end of [finalise]: the session leaves the map. *)
Definition removeSession (k : nat) (f : Finalising) (m : Manager) : Manager :=
  mkManager (objects m)
    (delete (finalisingThreadTs f) (sessions m))
    (threadBindings m) (listeners m) (timeouts m)
    (take k (finalising m) ++ drop (S k) (finalising m))
    (effects m ++
       [SessionsDelete (finalisingThreadTs f)
          (bool_decide (is_Some (sessions m !! finalisingThreadTs f)))])
    (fresh m).

(** The [k]-th suspended [finalise] runs on to its next [await] or to
    its end. *)
Definition resume (k : nat) (m : Manager) : Manager :=
  match finalising m !! k with
  | None => m
  | Some f =>
      match objects m !! finalisingSession f, stage f with
      | Some session, AwaitRouterFinish =>
          match given (messageTs session) with
          | Some _ =>
              mkManager (objects m) (sessions m) (threadBindings m)
                (listeners m) (timeouts m)
                (<[k := mkFinalising (finalisingThreadTs f)
                          (finalisingExitCode f) (finalisingSession f)
                          AwaitNotice]> (finalising m))
                (effects m ++ [completionNotice session (finalisingExitCode f)])
                (fresh m)
          | None => removeSession k f m
          end
      | _, _ => removeSession k f m
      end
  end.

(** The callback of [handle.onExit]. *)
Definition onExit (proc : nat) (code : Z) (m : Manager) : Manager :=
  match listeners m !! proc with
  | None => m
  | Some l =>
      if exitedFlag l then m
      else
        finalise (listenerThreadTs l) code
          (mkManager (objects m) (sessions m) (threadBindings m)
             (<[proc := mkListener (listenerThreadTs l) true]> (listeners m))
             (timeouts m) (finalising m) (effects m) (fresh m))
  end.

(** The session timeout fires; a timer that was cleared does not. *)
Definition onTimeout (timer : nat) (m : Manager) : Manager :=
  match timeouts m !! timer with
  | None => m
  | Some t =>
      finalise (timeoutThreadTs t) (-1)
        (mkManager (objects m) (sessions m) (threadBindings m) (listeners m)
           (delete timer (timeouts m)) (finalising m)
           (effects m ++ [Kill (timeoutProcess t)]) (fresh m))
  end.

(** What the event loop delivers. *)
Inductive Event :=
| ExitCallback (proc : nat) (code : Z)
| TimeoutFires (timer : nat)
| Resume (k : nat).

Definition step (e : Event) (m : Manager) : Manager :=
  match e with
  | ExitCallback proc code => onExit proc code m
  | TimeoutFires timer => onTimeout timer m
  | Resume k => resume k m
  end.

Definition run (evs : list Event) (m : Manager) : Manager :=
  fold_left (fun m e => step e m) evs m.

(** The finalisation side effects in a log. *)
Definition isRouterFinish (e : Effect) : bool :=
  match e with RouterFinish _ _ => true | _ => false end.
Definition isCompletionNotice (e : Effect) : bool :=
  match e with
  | UpdateMessage _ _ _ | UpdateMessageWithButton _ _ _ => true
  | _ => false
  end.
Definition isSessionsDelete (e : Effect) : bool :=
  match e with SessionsDelete _ _ => true | _ => false end.

Definition count (f : Effect -> bool) (m : Manager) : nat :=
  length (filter (fun e => f e = true) (effects m)).

(** *** Sample configurations *)

Definition kimi : CommandConfig :=
  mkCommand (js "kimi") (js "kimi") (Some [js "--quiet"]) oneShot true
    (js "Kimi Code") None (Some (js "-p")) (Some (js "-S")) None None.

Definition claude : CommandConfig :=
  mkCommand (js "claude") (js "claude") (Some [js "--print"]) oneShot true
    (js "Claude Code") None (Some (js "-p")) None (Some (js "--session-id"))
    (Some (js "--resume")).

Definition shell : CommandConfig :=
  mkCommand (js "run") (js "/usr/bin/bash") (Some [js "-c"]) oneShot false
    (js "Shell") None None None None None.

(** A full-output one-shot session with the default timeout, running. *)
Definition runningShell : Manager :=
  spawn [] (js "session_1") (js "100.2") Started
    (cliOptions (js "C1") (js "100.1") (js "sleep 4000") shell) empty.

End SessionManager.

(** ** envelopeParser.ts: the timers and buffers of a parser *)
Module ParserTimers.
Import EnvelopeParser.

(** The unclosed-envelope timeouts that are scheduled on the host. *)
Definition pendingUnclosed (p : Parser) : list Timer :=
  filter (fun t => t <> activationTimer p) (pending p).

(** The unclosed-envelope timeouts that the parser accounts for: the one
    in its field while it captures, none while it scans (the field may
    then hold the handle of a timeout that fired or was cleared). *)
Definition ownedUnclosed (p : Parser) : list Timer :=
  match state p, unclosedTimer p with
  | capturing, Some t => [t]
  | _, _ => []
  end.

(** What holds of the timers and of the scan buffer of every parser
    that the events of its life lead to. *)
Definition tidy (p : Parser) : Prop :=
  wellFormed p /\ pendingUnclosed p = ownedUnclosed p /\
  length (scanBuffer p) <= SCAN_TAIL.

(** A parser that was stopped before its activation. *)
Definition deaf (p : Parser) : Prop :=
  activated p = false /\ pending p = [] /\ state p = scanning.

End ParserTimers.

(** ** fullStreamer.ts: a streamer over its life *)
Module StreamerRun.
Import Reporter FullStreamer.

(** What happens to a started streamer before [finish]: a chunk is
    pushed, or the interval fires. *)
Inductive Action :=
| Push (data : str)
| Tick.

Definition act (o : Options) (r : Reporter) (a : Action) (s : Streamer)
    : Outcome :=
  match a with
  | Push data => mkOutcome (push data s) [] 0 false
  | Tick => tick o r s
  end.

(** The outcomes of the actions, one after the other, and the streamer
    after the last one. *)
Fixpoint runActions (o : Options) (r : Reporter) (acts : list Action)
    (s : Streamer) : list Outcome * Streamer :=
  match acts with
  | [] => ([], s)
  | a :: acts' =>
      let out := act o r a s in
      let rest := runActions o r acts' (after out) in
      (out :: rest.1, rest.2)
  end.

End StreamerRun.

(** ** fullStreamer.ts: the flush loop on the event loop *)
Module FlushLoop.
Import Reporter FullStreamer.

(** Where a call of [flush] is suspended: at the [await] of the update
    of a split, of the post that follows it, or of the update in
    place. *)
Inductive Stage := AwaitSplitUpdate | AwaitPost | AwaitUpdate.

(** How the reporting layer settles a call: the promise resolves with
    a value ([updateMessage] resolves with [undefined], [None]) or it
    rejects. *)
Inductive Answer := Resolves (value : option str) | Rejects.

(** A suspended call of [flush] and the call on the reporter that it
    awaits. *)
Record Suspended := mkSuspended {
  stage : Stage;
  awaited : Call
}.

(** The streamer, the calls of [flush] that await the reporter, the
    calls settled so far with their answers, in the order of the
    answers, and the number of errors logged. *)
Record Loop := mkLoop {
  streamer : Streamer;
  suspended : list Suspended;
  settled : list (Call * Answer);
  errors : nat
}.

(** The interval fires: [flush] up to its first [await].  A split cuts
    the buffer and calls the reporter before anything is awaited. *)
Definition fire (o : Options) (l : Loop) : Loop :=
  let s := streamer l in
  if negb (ticking s) then l
  else
    match tsOf s with
    | None => l
    | Some ts =>
        if negb (truthy (buffer s)) || stopped s then l
        else if maxCharsPerMessage o <? length (buffer s) then
          let chunk := take (maxCharsPerMessage o) (buffer s) in
          mkLoop (setBuffer (drop (maxCharsPerMessage o) (buffer s)) s)
            (suspended l ++
               [mkSuspended AwaitSplitUpdate
                  (UpdateMessage (channelId o) ts (block chunk))])
            (settled l) (errors l)
        else
          mkLoop s
            (suspended l ++
               [mkSuspended AwaitUpdate
                  (UpdateMessage (channelId o) ts (block (buffer s)))])
            (settled l) (errors l)
    end.

(** The reporter answers the call that the [k]-th suspended [flush]
    awaits, and that [flush] runs on: to the post of the next message
    after the update of a split, to the assignment of [currentTs]
    after that post, to its end otherwise; a rejection is caught and
    logged. *)
Definition settle (o : Options) (k : nat) (a : Answer) (l : Loop) : Loop :=
  match suspended l !! k with
  | None => l
  | Some f =>
      let log := settled l ++ [(awaited f, a)] in
      match a with
      | Rejects =>
          mkLoop (streamer l) (delete k (suspended l)) log (S (errors l))
      | Resolves v =>
          match stage f with
          | AwaitSplitUpdate =>
              mkLoop (streamer l)
                (<[k := mkSuspended AwaitPost
                          (PostMessage (channelId o) CONTINUED
                             (Some (threadTs o)))]> (suspended l))
                log (errors l)
          | AwaitPost =>
              mkLoop (setCurrentTs v (streamer l)) (delete k (suspended l))
                log (errors l)
          | AwaitUpdate =>
              mkLoop (streamer l) (delete k (suspended l)) log (errors l)
          end
      end
  end.

(** What the event loop delivers to a started streamer before
    [finish]. *)
Inductive Event :=
| Push (data : str)
| Fire
| Settle (k : nat) (a : Answer).

Definition step (o : Options) (e : Event) (l : Loop) : Loop :=
  match e with
  | Push data =>
      mkLoop (push data (streamer l)) (suspended l) (settled l) (errors l)
  | Fire => fire o l
  | Settle k a => settle o k a l
  end.

Definition run (o : Options) (evs : list Event) (l : Loop) : Loop :=
  fold_left (fun l e => step o e l) evs l.

(** A streamer with no call of [flush] under way. *)
Definition idle (s : Streamer) : Loop := mkLoop s [] [] 0.

(** The chunks pushed, in order. *)
Definition pushed (evs : list Event) : list str :=
  omap (fun e => match e with Push d => Some d | _ => None end) evs.

(** The answer of a reporter that answers at once, and a suspended
    [flush] run on with it. *)
Definition answerOf (r : Reporter) (c : Call) : Answer :=
  match c with
  | UpdateMessage ch ts text =>
      if updateMessage r ch ts text then Resolves None else Rejects
  | PostMessage ch text th =>
      match postMessage r ch text th with
      | Some ts => Resolves (Some ts)
      | None => Rejects
      end
  end.

Definition answered (o : Options) (r : Reporter) (l : Loop) : Loop :=
  match suspended l !! 0 with
  | Some f => settle o 0 (answerOf r (awaited f)) l
  | None => l
  end.

(** *** The thread as the chat shows it *)

(** The messages of the thread in the order of their posting, each
    with its timestamp and its text. *)
Definition Chat : Type := list (str * str).

(** An accepted update replaces the text of the message with that
    timestamp; an accepted post appends a message with the timestamp
    that the post resolves with. *)
Definition show (chat : Chat) (ca : Call * Answer) : Chat :=
  match ca with
  | (UpdateMessage _ ts text, Resolves _) =>
      (fun m : str * str => if bool_decide (m.1 = ts) then (ts, text) else m)
        <$> chat
  | (PostMessage _ text _, Resolves (Some ts)) => chat ++ [(ts, text)]
  | _ => chat
  end.

Definition thread (log : list (Call * Answer)) (chat : Chat) : Chat :=
  fold_left show log chat.

(** *** Orderly schedules *)

(** An event that keeps the order: the interval does not fire while a
    call of [flush] is suspended; the two calls of a split are
    accepted; a post resolves with a timestamp that is not empty and
    that no message of the thread has yet. *)
Definition admissible (chat0 : Chat) (e : Event) (l : Loop) : bool :=
  match e with
  | Push _ => true
  | Fire => bool_decide (suspended l = [])
  | Settle k a =>
      match suspended l !! k with
      | None => true
      | Some f =>
          match stage f, a with
          | AwaitUpdate, _ => true
          | AwaitSplitUpdate, Resolves _ => true
          | AwaitPost, Resolves (Some ts) =>
              truthy ts
              && bool_decide (ts ∉ (thread (settled l) chat0).*1)
          | _, _ => false
          end
      end
  end.

Fixpoint orderly (o : Options) (chat0 : Chat) (evs : list Event) (l : Loop)
    : bool :=
  match evs with
  | [] => true
  | e :: evs' => admissible chat0 e l && orderly o chat0 evs' (step o e l)
  end.

(** The text of the current message between two ticks: what it was at
    the start, the placeholder, or a block of the beginning of the
    buffer. *)
Definition upToDate (text0 buf cur : str) : Prop :=
  cur = text0 \/ cur = CONTINUED \/
  exists p, p `prefix_of` buf /\ cur = block p.

(** How a loop and the thread hold the output [total] on an orderly
    schedule: the messages before the last one show the slices cut so
    far, the last one is the current target, and the slices, the slice
    under way and the buffer make up [total]. *)
Definition accountsFor (o : Options) (text0 total : str) (chat : Chat)
    (l : Loop) : Prop :=
  let s := streamer l in
  stopped s = false /\
  exists (closed : Chat) (slices : list str) (ts cur : str),
    chat = closed ++ [(ts, cur)] /\
    closed.*2 = block <$> slices /\
    Forall (fun c => length c = maxCharsPerMessage o) slices /\
    NoDup (chat.*1) /\
    currentTs s = Some ts /\ truthy ts = true /\
    match suspended l with
    | [] => concat slices ++ buffer s = total /\ upToDate text0 (buffer s) cur
    | [f] =>
        match stage f with
        | AwaitUpdate =>
            (exists p, awaited f = UpdateMessage (channelId o) ts (block p) /\
                       p `prefix_of` buffer s) /\
            concat slices ++ buffer s = total /\
            upToDate text0 (buffer s) cur
        | AwaitSplitUpdate =>
            exists c, awaited f = UpdateMessage (channelId o) ts (block c) /\
                      length c = maxCharsPerMessage o /\
                      concat slices ++ c ++ buffer s = total
        | AwaitPost =>
            exists c, awaited f = PostMessage (channelId o) CONTINUED
                                    (Some (threadTs o)) /\
                      cur = block c /\
                      length c = maxCharsPerMessage o /\
                      concat slices ++ c ++ buffer s = total
        end
    | _ => False
    end.

End FlushLoop.

(** ** runner.ts: the other methods of the session manager *)
Module SessionApi.
Import SessionManager.

(** [hasSession]. *)
Definition hasSession (thread : str) (m : Manager) : bool :=
  bool_decide (is_Some (sessions m !! thread)).

(** [getThreadBinding]. *)
Definition getThreadBinding (channel thread : str) (m : Manager)
    : option ThreadBinding :=
  threadBindings m !! bindingKey channel thread.

(** [removeThreadBinding]: whether the binding was there, and the
    manager without it. *)
Definition removeThreadBinding (channel thread : str) (m : Manager)
    : bool * Manager :=
  (bool_decide (is_Some (threadBindings m !! bindingKey channel thread)),
   mkManager (objects m) (sessions m)
     (delete (bindingKey channel thread) (threadBindings m))
     (listeners m) (timeouts m) (finalising m) (effects m) (fresh m)).

(** [getBindingCount]. *)
Definition getBindingCount (m : Manager) : nat := size (threadBindings m).

(** [this.sessions.get(threadTs)]. *)
Definition sessionAt (thread : str) (m : Manager) : option Session :=
  sessions m !! thread ≫= fun ref => objects m !! ref.

(** [sendInput]: the write made on a process, if any. *)
Definition sendInput (thread text : str) (m : Manager)
    : option (nat * str) :=
  match sessionAt thread m with
  | None => None
  | Some session =>
      match status session with
      | running => Some (process session, text ++ [LF])
      | _ => None
      end
  end.

(** What changes the manager: an event of the event loop, a call of
    [spawn], the Close button. *)
Inductive Happening :=
| Lifecycle (e : Event)
| Spawn (promptText sid startTs : str) (outcome : SpawnOutcome)
    (o : SessionSpawnOptions)
| Close (channel thread : str).

Definition happen (h : Happening) (m : Manager) : Manager :=
  match h with
  | Lifecycle e => step e m
  | Spawn promptText sid startTs outcome o =>
      spawn promptText sid startTs outcome o m
  | Close channel thread => (removeThreadBinding channel thread m).2
  end.

Definition happenAll (hs : list Happening) (m : Manager) : Manager :=
  fold_left (fun m h => happen h m) hs m.

(** The happenings that write the binding under [key]: a spawn that
    starts a process of a command with a session flag and is not a
    continuation, and the Close button, on a channel and thread with
    that key. *)
Definition rebinds (key : str) (h : Happening) : bool :=
  match h with
  | Lifecycle _ => false
  | Spawn _ _ _ outcome o =>
      match outcome with
      | Started =>
          bool_decide (bindingKey (channelId o) (threadTs o) = key)
          && (bool_decide (is_Some (given (sessionFlag (config o))))
              || bool_decide (is_Some (given (sessionIdFlag (config o)))))
          && negb (isTrue (isContinuation o))
      | Failed _ => false
      end
  | Close channel thread => bool_decide (bindingKey channel thread = key)
  end.

(** The effects of a manager since [m]. *)
Definition effectsSince (m m' : Manager) : list Effect :=
  drop (length (effects m)) (effects m').

End SessionApi.

(** ** utils/slackFormat.ts *)
Module SlackFormat.

(** The line terminators below 256: what [.] does not match and what
    [^] and [$] look at under the [m] flag. *)
Definition isLineTerminator (c : ascii) : bool :=
  (code c =? 10) || (code c =? 13).

(** [String.prototype.replace] with a pattern that has the [g] flag and
    never matches the empty string.  [matchAt prev s] is the match of
    the pattern at the head of [s], the code unit before it being
    [prev]: the text that replaces it and the number of code units it
    spans.  Matches are taken left to right and do not overlap; [skip]
    counts the code units of the current match still to be passed. *)
Fixpoint replaceGlobal (matchAt : option ascii -> str -> option (str * nat))
    (skip : nat) (prev : option ascii) (s : str) : str :=
  match s with
  | [] => []
  | c :: s' =>
      match skip with
      | S k => replaceGlobal matchAt k (Some c) s'
      | 0 =>
          match matchAt prev s with
          | Some (rep, S k) => rep ++ replaceGlobal matchAt k (Some c) s'
          | _ => c :: replaceGlobal matchAt 0 (Some c) s'
          end
      end
  end.

(** [^] under the [m] flag. *)
Definition atLineStart (prev : option ascii) : bool :=
  match prev with
  | None => true
  | Some c => isLineTerminator c
  end.

(** /^#{1,6}\s+(.+)$/gm replaced by [*$1*].  The hashes are the whole
    run of them (after fewer, [\s] would meet a hash), at most six.
    [\s+] is greedy: it gives back white space until the code unit
    after it exists and is no line terminator; [(.+)] then runs up to
    the next line terminator or the end, where [$] holds. *)
Definition headerAt (prev : option ascii) (s : str) : option (str * nat) :=
  if negb (atLineStart prev) then None
  else
    let h := length (takeWhile (Ascii.eqb "#"%char) s) in
    if (h =? 0) || (6 <? h) then None
    else
      let r := drop h s in
      let w := length (takeWhile isSpace r) in
      match find (fun k => match r !! k with
                           | Some c => negb (isLineTerminator c)
                           | None => false
                           end) (rev (seq 1 w)) with
      | Some k =>
          let d := takeWhile (fun c => negb (isLineTerminator c))
                     (drop k r) in
          Some ("*"%char :: d ++ ["*"%char], h + k + length d)
      | None => None
      end.

(** /dd([^d]+)dd/g replaced by [r$1r], for a delimiter [d]: the class
    runs as far as it can, and giving back brings no delimiter. *)
Definition pairAt (d r : ascii) (prev : option ascii) (s : str)
    : option (str * nat) :=
  match s with
  | a :: b :: s' =>
      if Ascii.eqb a d && Ascii.eqb b d then
        let run := takeWhile (fun c => negb (Ascii.eqb c d)) s' in
        match run, drop (length run) s' with
        | _ :: _, x :: y :: _ =>
            if Ascii.eqb x d && Ascii.eqb y d
            then Some (r :: run ++ [r], 2 + length run + 2)
            else None
        | _, _ => None
        end
      else None
  | _ => None
  end.

Definition markdownToSlack (text : str) : str :=
  let text := replaceGlobal headerAt 0 None text in
  let text := replaceGlobal (pairAt "*" "*") 0 None text in
  let text := replaceGlobal (pairAt "_" "*") 0 None text in
  replaceGlobal (pairAt "~" "~") 0 None text.

(** A text without any of the four marks of the patterns. *)
Definition plain (s : str) : Prop :=
  Forall (fun c => c <> "#"%char /\ c <> "*"%char /\ c <> "_"%char /\
                   c <> "~"%char) s.

End SlackFormat.

(** ** streaming/logWriter.ts *)
Module LogWriter.

Definition LF : ascii := ascii_of_nat 10.

(** The writer: whether its stream is open, and the content of the log
    file. *)
Record LogWriter := mkLogWriter {
  stream : bool;
  file : str
}.

(** The constructor, the log file holding [content] (nothing, unless a
    session of that id was logged before). *)
Definition new (content : str) : LogWriter := mkLogWriter false content.

Definition header (now : str) : str :=
  js "=== Session started: " ++ now ++ js " ===" ++ [LF].

Definition footer (now : str) (exitCode : Z) : str :=
  LF :: js "=== Session ended: " ++ now ++ js " | exit code: "
     ++ js (pretty exitCode) ++ js " ===" ++ [LF].

(** [open]: the stream appends; [now] is the time in ISO format. *)
Definition open (now : str) (w : LogWriter) : LogWriter :=
  mkLogWriter true (file w ++ header now).

(** [write]: [this.stream?.write(data)]. *)
Definition write (data : str) (w : LogWriter) : LogWriter :=
  if stream w then mkLogWriter true (file w ++ data) else w.

Definition close (now : str) (exitCode : Z) (w : LogWriter) : LogWriter :=
  if stream w then mkLogWriter false (file w ++ footer now exitCode)
  else w.

End LogWriter.

(** ** streaming/router.ts *)
Module OutputRouter.
Import Reporter.

Record Options := mkOptions {
  channelId : str;
  threadTs : str;
  envelope : bool;
  flushIntervalMs : nat;
  maxCharsPerMessage : nat
}.

Definition streamOptions (o : Options) : FullStreamer.Options :=
  FullStreamer.mkOptions (channelId o) (threadTs o) (flushIntervalMs o)
    (maxCharsPerMessage o).

Record Router := mkRouter {
  logWriter : LogWriter.LogWriter;
  parser : option EnvelopeParser.Parser;
  streamer : option FullStreamer.Streamer
}.

(** The constructor: a parser in envelope mode, a streamer otherwise;
    [content] is what the log file holds. *)
Definition new (o : Options) (content : str) : Router :=
  if envelope o
  then mkRouter (LogWriter.new content) (Some EnvelopeParser.new) None
  else mkRouter (LogWriter.new content) None (Some FullStreamer.new).

(** [ENVELOPE_PREFIX[msg.type]]. *)
Definition ENVELOPE_PREFIX (t : EnvelopeParser.EnvelopeType) : str :=
  match t with
  | EnvelopeParser.progress => js "🔄 "
  | EnvelopeParser.question => js "🤔 "
  | EnvelopeParser.warning => js "⚠️ "
  | EnvelopeParser.done => js "✅ "
  | EnvelopeParser.error => js "❌ "
  end.

(** [onEnvelope]: the post made for an envelope; a failure of the post
    is logged and goes no further. *)
Definition onEnvelope (o : Options) (msg : EnvelopeParser.EnvelopeMessage)
    : Call :=
  let prefix := match EnvelopeParser.type msg with
                | Some t => ENVELOPE_PREFIX t
                | None => []
                end in
  let incTag := if EnvelopeParser.isIncomplete msg
                then js " ⚠️ *(incomplete)*" else [] in
  PostMessage (channelId o)
    (prefix ++ SlackFormat.markdownToSlack (EnvelopeParser.text msg)
       ++ incTag)
    (Some (threadTs o)).

(** What a method leaves: the router, the calls made on the reporter in
    order, and whether its promise was rejected. *)
Record Outcome := mkOutcome {
  after : Router;
  calls : list Call;
  rejected : bool
}.

(** The envelopes that a call on the parser emitted, posted in order. *)
Definition withParser (o : Options) (rt : Router)
    (f : EnvelopeParser.Parser -> EnvelopeParser.Result) : Outcome :=
  match parser rt with
  | Some p =>
      mkOutcome (mkRouter (logWriter rt) (Some (f p).1) (streamer rt))
        (onEnvelope o <$> (f p).2) false
  | None => mkOutcome rt [] false
  end.

(** [start]; [now] is the time when the log is opened. *)
Definition start (o : Options) (r : Reporter) (now : str) (rt : Router)
    : Outcome :=
  let lw := LogWriter.open now (logWriter rt) in
  match streamer rt with
  | Some s =>
      let out := FullStreamer.start (streamOptions o) r s in
      mkOutcome (mkRouter lw (parser rt) (Some (FullStreamer.after out)))
        (FullStreamer.calls out) (FullStreamer.rejected out)
  | None => mkOutcome (mkRouter lw (parser rt) (streamer rt)) [] false
  end.

(** [push]: the log first, then the track of the mode. *)
Definition push (o : Options) (data : str) (rt : Router) : Outcome :=
  let rt := mkRouter (LogWriter.write data (logWriter rt)) (parser rt)
              (streamer rt) in
  let out := withParser o rt (EnvelopeParser.push data) in
  mkOutcome
    (mkRouter (logWriter (after out)) (parser (after out))
       (FullStreamer.push data <$> streamer (after out)))
    (calls out) false.

(** A timeout of the parser fires. *)
Definition fire (o : Options) (t : EnvelopeParser.Timer) (rt : Router)
    : Outcome :=
  withParser o rt (EnvelopeParser.fire t).

(** The interval of the streamer fires. *)
Definition tick (o : Options) (r : Reporter) (rt : Router) : Outcome :=
  match streamer rt with
  | Some s =>
      let out := FullStreamer.tick (streamOptions o) r s in
      mkOutcome (mkRouter (logWriter rt) (parser rt)
                   (Some (FullStreamer.after out)))
        (FullStreamer.calls out) false
  | None => mkOutcome rt [] false
  end.

(** [finish]: the parser flushed, the streamer finished (a rejection is
    caught and logged), the log closed at time [now]. *)
Definition finish (o : Options) (r : Reporter) (now : str) (exitCode : Z)
    (rt : Router) : Outcome :=
  let out := withParser o rt EnvelopeParser.flush in
  let rt := after out in
  let fin := FullStreamer.finish (streamOptions o) r exitCode
               <$> streamer rt in
  mkOutcome
    (mkRouter (LogWriter.close now exitCode (logWriter rt)) (parser rt)
       (FullStreamer.after <$> fin))
    (calls out ++ default [] (FullStreamer.calls <$> fin)) false.

(** What happens to a router between [start] and [finish], and after
    [finish]. *)
Inductive Event :=
| Push (data : str)
| Fire (t : EnvelopeParser.Timer)
| Tick.

Definition step (o : Options) (r : Reporter) (e : Event) (rt : Router)
    : Outcome :=
  match e with
  | Push data => push o data rt
  | Fire t => fire o t rt
  | Tick => tick o r rt
  end.

(** The events one after the other: the router after them and the
    calls made, in order. *)
Fixpoint run (o : Options) (r : Reporter) (evs : list Event) (rt : Router)
    : Router * list Call :=
  match evs with
  | [] => (rt, [])
  | e :: evs' =>
      let out := step o r e rt in
      let rest := run o r evs' (after out) in
      (rest.1, calls out ++ rest.2)
  end.

(** The chunks pushed, in order. *)
Definition pushed (evs : list Event) : list str :=
  omap (fun e => match e with Push d => Some d | _ => None end) evs.

Definition envelopeOptions : Options :=
  mkOptions (js "C1") (js "100.1") true 2000 3000.
Definition fullOptions : Options :=
  mkOptions (js "C1") (js "100.1") false 2000 3000.

End OutputRouter.

(** ** commands/parser.ts *)
Module CommandParser.
Import SessionManager.

Record ParsedCommand := mkParsed {
  isControl : bool;
  parsedPrefix : str;
  parsedArgs : str
}.

Definition CONTROLS : list str :=
  [js "/status"; js "/stop"; js "/jobs"; js "/logs"; js "/help"].

(** [text === ctrl || text.startsWith(ctrl + ' ')]. *)
Definition isControlOf (text ctrl : str) : bool :=
  bool_decide (text = ctrl) || startsWith (ctrl ++ js " ") text.

(** [text.toLowerCase().startsWith(trigger.toLowerCase())]. *)
Definition triggers (text : str) (cmd : CommandConfig) : bool :=
  startsWith (toLowerCase (prefix cmd ++ js ":")) (toLowerCase text).

(** The two loops return at their first match. *)
Definition parseCommand (text : str) (commands : list CommandConfig)
    : option ParsedCommand :=
  match find (isControlOf text) CONTROLS with
  | Some ctrl => Some (mkParsed true ctrl (trim (drop (length ctrl) text)))
  | None =>
      match find (triggers text) commands with
      | Some cmd =>
          Some (mkParsed false (prefix cmd)
                  (trim (drop (length (prefix cmd ++ js ":")) text)))
      | None => None
      end
  end.

End CommandParser.

(** ** security/authorizer.ts *)
Module Authorizer.

Record AuthRule := mkRule {
  channels : list str;
  users : list str;
  allowed_prefixes : list str
}.

(** [Array.prototype.includes] on strings. *)
Definition includes (x : str) (l : list str) : bool := bool_decide (x ∈ l).

Definition isChannelAllowed (rules : list AuthRule) (channelId : str)
    : bool :=
  existsb (fun r => includes channelId (channels r)) rules.

Definition isUserAllowed (rules : list AuthRule) (userId channelId : str)
    : bool :=
  existsb (fun r => includes channelId (channels r)
                    && (includes (js "*") (users r)
                        || includes userId (users r))) rules.

Definition isPrefixAllowed (rules : list AuthRule) (prefix channelId : str)
    : bool :=
  existsb (fun r => includes prefix (allowed_prefixes r))
    (List.filter (fun r => includes channelId (channels r)) rules).

End Authorizer.

(** ** security/commandFilter.ts *)
Module CommandFilter.
Import EnvelopeParser SlackFormat.

Definition wordAt (c : option ascii) : bool :=
  match c with Some c => isWord c | None => false end.

(** [\b] between the code unit [prev] and the head of [s]. *)
Definition boundary (prev : option ascii) (s : str) : bool :=
  xorb (wordAt prev) (wordAt (head s)).

(** [[a-z]] under the [i] flag. *)
Definition isLetter (c : ascii) : bool :=
  inRange 65 90 c || inRange 97 122 c.

(** [\s+] at the head of [s]: what follows the run of white space.  What
    follows [\s+] in the patterns is no white space, so the run is
    taken whole. *)
Definition spaces (s : str) : option str :=
  match takeWhile isSpace s with
  | [] => None
  | w => Some (drop (length w) s)
  end.

(** /\brm\s+-[a-z]*r[a-z]*f\b/i at the head of [s].  The last [\b] puts
    the [f] at the end of the run of letters after the dash, before a
    code unit that is no word character; the [r] is anywhere before
    it in the run. *)
Definition rmAt (prev : option ascii) (s : str) : bool :=
  boundary prev s &&
  match matchLiteral (js "rm") s ≫= spaces with
  | Some (d :: r) =>
      Ascii.eqb d "-"%char &&
      let letters := takeWhile isLetter r in
      match rev (toLowerCase letters) with
      | f :: before =>
          Ascii.eqb f "f"%char && existsb (Ascii.eqb "r"%char) before
          && negb (wordAt (head (drop (length letters) r)))
      | [] => false
      end
  | _ => false
  end.

(** /\bformat\s+[A-Za-z]:/i. *)
Definition formatAt (prev : option ascii) (s : str) : bool :=
  boundary prev s &&
  match matchLiteral (js "format") s ≫= spaces with
  | Some (l :: c :: _) => isLetter l && Ascii.eqb c ":"%char
  | _ => false
  end.

(** /\bshutdown\b/i. *)
Definition shutdownAt (prev : option ascii) (s : str) : bool :=
  boundary prev s &&
  match matchLiteral (js "shutdown") s with
  | Some r => negb (wordAt (head r))
  | None => false
  end.

(** /\bpowershell[^|]*-command\s+.*remove/i: [-command] after any
    number of code units other than a bar; white space; [remove]
    before the next line terminator. *)
Definition powershellAt (prev : option ascii) (s : str) : bool :=
  boundary prev s &&
  match matchLiteral (js "powershell") s with
  | Some r =>
      existsb (fun k =>
                 forallb (fun c => negb (Ascii.eqb c "|"%char)) (take k r)
                 && match matchLiteral (js "-command") (drop k r) ≫= spaces
                    with
                    | Some line =>
                        bool_decide
                          (is_Some
                             (indexOf (js "remove")
                                (toLowerCase
                                   (takeWhile
                                      (fun c => negb (isLineTerminator c))
                                      line))))
                    | None => false
                    end)
        (seq 0 (S (length r)))
  | None => false
  end.

(** /\b<name>\s+\/[sS]\b/i, for [del] and [rmdir]. *)
Definition slashSAt (name : str) (prev : option ascii) (s : str) : bool :=
  boundary prev s &&
  match matchLiteral name s ≫= spaces with
  | Some (d :: c :: r) =>
      Ascii.eqb d "/"%char && Ascii.eqb (lowerChar c) "s"%char
      && negb (wordAt (head r))
  | _ => false
  end.

(** [re.test(command)]: a match at some position. *)
Fixpoint test (at_ : option ascii -> str -> bool) (prev : option ascii)
    (s : str) : bool :=
  at_ prev s ||
  match s with
  | [] => false
  | c :: s' => test at_ (Some c) s'
  end.

(** The code unit before what follows [a], [prev] being the one before
    [a]. *)
Definition lastOr (prev : option ascii) (a : str) : option ascii :=
  match last a with Some c => Some c | None => prev end.

(** The blocklist: each pattern with its source text. *)
Definition BLOCKED : list ((option ascii -> str -> bool) * str) :=
  [(rmAt, js "/\brm\s+-[a-z]*r[a-z]*f\b/i");
   (formatAt, js "/\bformat\s+[A-Za-z]:/i");
   (shutdownAt, js "/\bshutdown\b/i");
   (powershellAt, js "/\bpowershell[^|]*-command\s+.*remove/i");
   (slashSAt (js "del"), js "/\bdel\s+\/[sS]\b/i");
   (slashSAt (js "rmdir"), js "/\brmdir\s+\/[sS]\b/i")].

Definition checkCommand (command : str) : option str :=
  match find (fun re => test re.1 None command) BLOCKED with
  | Some re => Some (js "Matches blocked pattern `" ++ re.2 ++ js "`")
  | None => None
  end.

End CommandFilter.

(** ** commands/router.ts *)
Module CommandRouter.
Import SessionManager SessionApi CommandParser Authorizer CommandFilter.

Record IncomingMessage := mkMessage {
  channelId : str;
  userId : str;
  text : str;
  threadTs : option str;
  ts : str
}.

Record AppConfig := mkConfig {
  commands : list CommandConfig;
  rules : list AuthRule
}.

(** What a handler does. *)
Inductive Action :=
| NoAction
| Post (channel text thread : str)
| SpawnSession (o : SessionSpawnOptions)
| SendInput (thread text : str)
| HandleControl (cmd : ParsedCommand) (channel thread : str)
(** [spawn] called without a configuration: a rejected promise. *)
| Throw.

(** [handleCli]. *)
Definition handleCli (cfg : AppConfig) (cmd : ParsedCommand)
    (channel ts : str) : Action :=
  if negb (isPrefixAllowed (rules cfg) (parsedPrefix cmd) channel) then
    Post channel
      (js "Command `" ++ parsedPrefix cmd
         ++ js "` is not allowed in this channel.") ts
  else
    match checkCommand (parsedArgs cmd) with
    | Some blocked => Post channel (js "🚫 " ++ blocked) ts
    | None =>
        if negb (truthy (parsedArgs cmd)) then
          Post channel
            (js "Please provide a command after `" ++ parsedPrefix cmd
               ++ js ":`.") ts
        else
          match find (fun c => bool_decide (prefix c = parsedPrefix cmd))
                  (commands cfg) with
          | Some c => SpawnSession (cliOptions channel ts (parsedArgs cmd) c)
          | None => Throw
          end
    end.

(** [handleMessage]: the decision tree. *)
Definition handleMessage (cfg : AppConfig) (msg : IncomingMessage)
    (m : Manager) : Action :=
  if negb (isChannelAllowed (rules cfg) (channelId msg)) then NoAction
  else if negb (isUserAllowed (rules cfg) (userId msg) (channelId msg)) then
    Post (channelId msg) (js "You are not authorized to run commands here.")
      (ts msg)
  else
    match continuationOptions (commands cfg) (channelId msg) (text msg)
            (threadTs msg) m with
    | Some o => SpawnSession o
    | None =>
        match (given (threadTs msg) ≫= fun thread =>
                 if hasSession thread m then Some thread else None) with
        | Some thread => SendInput thread (text msg)
        | None =>
            match parseCommand (text msg) (commands cfg) with
            | None => NoAction
            | Some parsed =>
                if isControl parsed
                then HandleControl parsed (channelId msg) (ts msg)
                else handleCli cfg parsed (channelId msg) (ts msg)
            end
        end
    end.

End CommandRouter.

(** ** scheduler/scheduler.ts *)
Module Scheduler.
Import SessionManager.

Record JobDefinition := mkJob {
  name : str;
  cron : str;
  jobCommand : str;
  channel : str;
  jobCwd : option str;
  label : option str
}.

(** [fire]: the options of the spawn, [win32] telling the platform and
    [thread] being the timestamp of the notice just posted. *)
Definition jobOptions (win32 : bool) (job : JobDefinition) (thread : str)
    : SessionSpawnOptions :=
  mkSpawnOptions (channel job) thread (jobCommand job)
    (mkCommand (name job) (if win32 then js "cmd" else js "bash")
       (Some [if win32 then js "/c" else js "-c"]) oneShot false
       (default (name job) (label job)) None None None None None)
    (jobCwd job) None None.

End Scheduler.

(** ** commands/logs.ts *)
Module LogsCommand.

Definition MAX_UPLOAD_BYTES : N := 20 * 1024 * 1024.

(** [Buffer.byteLength(content)]. *)
Definition byteLength (content : str) : N :=
  N.of_nat (length (Sha1.utf8 content)).

(** The loop of [doUpload]; each turn drops the first half.  [fuel]
    bounds the number of turns. *)
Fixpoint dropHalves (fuel : nat) (content : str) : str :=
  if (MAX_UPLOAD_BYTES <? byteLength content)%N then
    match fuel with
    | 0 => content
    | S fuel' => dropHalves fuel' (drop (length content / 2) content)
    end
  else content.

(** What [doUpload] does with the content of a log file: the content
    uploaded, and whether the notice of truncation is posted. *)
Definition doUpload (content : str) : str * bool :=
  if (MAX_UPLOAD_BYTES <? byteLength content)%N
  then (dropHalves (length content) content, true)
  else (content, false).

End LogsCommand.

(** ** Tactics *)

(** A statement about one code unit, checked on all 256 of them. *)
Ltac all_chars c :=
destruct c as [[] [] [] [] [] [] [] []]; vm_compute; try reflexivity;
try discriminate; try tauto.

(** The fields of a manager, of a session and of the closures, read off
    a record that is written out. *)
Ltac manager_fields H :=
cbn [SessionManager.objects SessionManager.sessions
SessionManager.threadBindings SessionManager.listeners
SessionManager.timeouts SessionManager.finalising SessionManager.effects
SessionManager.fresh SessionManager.finalisingThreadTs
SessionManager.finalisingExitCode SessionManager.finalisingSession
SessionManager.stage SessionManager.exitedFlag
SessionManager.listenerThreadTs SessionManager.timeoutThreadTs
SessionManager.timeoutProcess SessionManager.id
SessionManager.sessionChannelId SessionManager.sessionThreadTs
SessionManager.messageTs SessionManager.sessionCommand
SessionManager.sessionConfig SessionManager.status SessionManager.exitCode
SessionManager.process SessionManager.router SessionManager.timeoutHandle]
in H.
Ltac manager_fields_goal :=
cbn [SessionManager.objects SessionManager.sessions
SessionManager.threadBindings SessionManager.listeners
SessionManager.timeouts SessionManager.finalising SessionManager.effects
SessionManager.fresh SessionManager.finalisingThreadTs
SessionManager.finalisingExitCode SessionManager.finalisingSession
SessionManager.stage SessionManager.exitedFlag
SessionManager.listenerThreadTs SessionManager.timeoutThreadTs
SessionManager.timeoutProcess SessionManager.id
SessionManager.sessionChannelId SessionManager.sessionThreadTs
SessionManager.messageTs SessionManager.sessionCommand
SessionManager.sessionConfig SessionManager.status SessionManager.exitCode
SessionManager.process SessionManager.router SessionManager.timeoutHandle
option_fmap fmap option_map].

(** * Properties *)

(** ** Code units and literals *)
Module StringFacts.
Import EnvelopeParser.

Lemma lowerChar_lt c : lowerChar c = "<"%char -> c = "<"%char.
Proof. all_chars c. Qed.

Lemma lowerChar_gt c : lowerChar c = ">"%char -> c = ">"%char.
Proof. all_chars c. Qed.

Lemma isWord_lowerChar c : isWord (lowerChar c) = isWord c.
Proof. all_chars c. Qed.

Lemma toLowerCase_app s t :
  toLowerCase (s ++ t) = toLowerCase s ++ toLowerCase t.
Proof. apply map_app. Qed.

Lemma toLowerCase_length s : length (toLowerCase s) = length s.
Proof. apply length_map. Qed.

Lemma toLowerCase_drop n s : toLowerCase (drop n s) = drop n (toLowerCase s).
Proof. unfold toLowerCase. apply (fmap_drop lowerChar). Qed.

Lemma toLowerCase_take n s : toLowerCase (take n s) = take n (toLowerCase s).
Proof. unfold toLowerCase. apply (fmap_take lowerChar). Qed.

Lemma eqb_true_iff (a b : ascii) : Ascii.eqb a b = true <-> a = b.
Proof. apply Ascii.eqb_eq. Qed.

(** *** [startsWith] and [indexOf] *)

Lemma startsWith_spec pat s :
  startsWith pat s = true <-> exists r, s = pat ++ r.
Proof.
  revert s. induction pat as [|p pat IH]; intros s; simpl.
  - split; [intros _; by exists s|done].
  - destruct s as [|c s].
    + split; [done|]. intros [r Hr]. discriminate.
    + rewrite andb_true_iff, eqb_true_iff, IH. split.
      * intros [-> [r ->]]. by exists r.
      * intros [r Hr]. injection Hr as -> ->. split; [done|by exists r].
Qed.

Lemma startsWith_app pat r : startsWith pat (pat ++ r) = true.
Proof. apply startsWith_spec. by exists r. Qed.


(** A prefix test only looks at the first [length pat] code units. *)
Lemma startsWith_app_fits pat s t :
  length pat <= length s ->
  startsWith pat (s ++ t) = startsWith pat s.
Proof.
  revert s. induction pat as [|p pat IH]; intros s Hlen; simpl; [done|].
  destruct s as [|c s]; simpl in *; [lia|].
  rewrite IH by lia. done.
Qed.

Lemma indexOf_cons pat c s :
  indexOf pat (c :: s)
  = if startsWith pat (c :: s) then Some 0 else S <$> indexOf pat s.
Proof. reflexivity. Qed.

Lemma indexOf_Some pat s i :
  indexOf pat s = Some i <->
  i <= length s /\ startsWith pat (drop i s) = true /\
  forall j, j < i -> startsWith pat (drop j s) = false.
Proof.
  revert i. induction s as [|c s IH]; intros i.
  - simpl. destruct (startsWith pat []) eqn:Hp.
    + split.
      * intros [= <-]. split; [simpl; lia|]. split; [done|]. intros; lia.
      * intros (Hi & Hd & Hj). destruct i; [done|]. simpl in Hi. lia.
    + split; [done|]. intros (Hi & Hd & Hj).
      rewrite drop_nil in Hd. congruence.
  - rewrite indexOf_cons. destruct (startsWith pat (c :: s)) eqn:Hp.
    + split.
      * intros [= <-]. split; [simpl; lia|]. split; [done|]. intros; lia.
      * intros (Hi & Hd & Hj). destruct i; [done|].
        specialize (Hj 0 ltac:(lia)). simpl in Hj. congruence.
    + split.
      * intros Hk. destruct i as [|i].
        { destruct (indexOf pat s); discriminate. }
        assert (indexOf pat s = Some i) as Hi.
        { destruct (indexOf pat s); simpl in Hk; congruence. }
        apply IH in Hi as (Hi & Hd & Hj). split; [simpl; lia|]. split; [done|].
        intros [|j] Hlt; [done|]. simpl. apply Hj. lia.
      * intros (Hi & Hd & Hj). destruct i as [|i]; [simpl in *; congruence|].
        simpl in *.
        assert (indexOf pat s = Some i) as ->; [|done].
        apply IH. split; [lia|]. split; [done|].
        intros j Hlt. apply (Hj (S j)). lia.
Qed.

Lemma indexOf_None pat s :
  indexOf pat s = None <->
  forall j, j <= length s -> startsWith pat (drop j s) = false.
Proof.
  induction s as [|c s IH].
  - simpl. destruct (startsWith pat []) eqn:Hp.
    + split; [done|]. intros H. specialize (H 0 ltac:(lia)). simpl in H. congruence.
    + split; [|done]. intros _ j _. by rewrite drop_nil.
  - rewrite indexOf_cons. destruct (startsWith pat (c :: s)) eqn:Hp.
    + split; [done|]. intros H. specialize (H 0 ltac:(simpl; lia)).
      simpl in H. congruence.
    + split.
      * intros Hk [|j] Hj; [done|]. simpl. apply IH; [|simpl in Hj; lia].
        destruct (indexOf pat s); [discriminate|done].
      * intros H. assert (indexOf pat s = None) as ->; [|done].
        apply IH. intros j Hj. apply (H (S j)). simpl. lia.
Qed.


(** *** [takeWhile] *)

Lemma takeWhile_split f s :
  s = takeWhile f s ++ drop (length (takeWhile f s)) s.
Proof.
  induction s as [|c s IH]; simpl; [done|].
  destruct (f c); simpl; [by rewrite <- IH|done].
Qed.

Lemma takeWhile_forallb f s : forallb f (takeWhile f s) = true.
Proof.
  induction s as [|c s IH]; simpl; [done|].
  destruct (f c) eqn:Hc; simpl; [by rewrite Hc|done].
Qed.

Lemma takeWhile_app_stop f w c t :
  forallb f w = true -> f c = false -> takeWhile f (w ++ c :: t) = w.
Proof.
  intros Hw Hc. induction w as [|x w IH]; simpl in *.
  - by rewrite Hc.
  - apply andb_true_iff in Hw as [-> Hw]. by rewrite IH.
Qed.

(** *** Literals of the open tag *)

Lemma matchLiteral_spec pat s r :
  matchLiteral pat s = Some r <->
  exists u, s = u ++ r /\ toLowerCase u = pat.
Proof.
  revert s. induction pat as [|p pat IH]; intros s; simpl.
  - split.
    + intros [= ->]. by exists [].
    + intros (u & -> & Hu). apply fmap_nil_inv in Hu as ->. done.
  - destruct s as [|c s].
    + split; [done|]. intros (u & Hs & Hu).
      destruct u; [discriminate|discriminate].
    + destruct (Ascii.eqb (lowerChar c) p) eqn:Hc.
      * apply eqb_true_iff in Hc as <-. rewrite IH. split.
        -- intros (u & -> & <-). by exists (c :: u).
        -- intros (u & Hs & Hu). destruct u as [|c' u]; [discriminate|].
           simpl in *. injection Hs as <- ->. injection Hu as Hu.
           by exists u.
      * split; [done|]. intros (u & Hs & Hu).
        destruct u as [|c' u]; [discriminate|]. simpl in *.
        injection Hs as <- ->. injection Hu as Hc' _.
        apply eqb_true_iff in Hc'. congruence.
Qed.

Lemma matchLiteral_app pat u r :
  toLowerCase u = pat -> matchLiteral pat (u ++ r) = Some r.
Proof. intros Hu. apply matchLiteral_spec. by exists u. Qed.

(** A code unit sequence that reads [>>>] in lower case is [>>>]. *)
Lemma lower_gt3 b : toLowerCase b = js ">>>" -> b = js ">>>".
Proof.
  destruct b as [|b1 [|b2 [|b3 [|]]]]; try discriminate.
  intros [= ->%lowerChar_gt ->%lowerChar_gt ->%lowerChar_gt]. done.
Qed.

Lemma matchTyped_spec r w :
  matchTyped r = Some w <->
  exists r', r = ":"%char :: w ++ js ">>>" ++ r' /\ w <> [] /\
             forallb isWord w = true.
Proof.
  unfold matchTyped. split.
  - destruct r as [|c r0]; [done|].
    destruct (Ascii.eqb c ":") eqn:Hc; [|done].
    apply eqb_true_iff in Hc as ->.
    destruct (truthy (takeWhile isWord r0)) eqn:Hw; [|done].
    destruct (matchLiteral (js ">>>") _) as [r'|] eqn:Hl; [|done].
    intros [= <-]. apply matchLiteral_spec in Hl as (b & Hd & ->%lower_gt3).
    exists r'. split; [|split].
    + f_equal. rewrite (takeWhile_split isWord r0) at 1. by rewrite Hd.
    + by destruct (takeWhile isWord r0).
    + apply takeWhile_forallb.
  - intros (r' & -> & Hne & Hw).
    rewrite Ascii.eqb_refl.
    change (js ">>>" ++ r') with (">"%char :: js ">>" ++ r').
    rewrite takeWhile_app_stop by done.
    destruct w as [|x w]; [done|]. cbn [truthy].
    rewrite drop_app_length.
    change (">"%char :: js ">>" ++ r') with (js ">>>" ++ r').
    by rewrite matchLiteral_app.
Qed.

Lemma matchTyped_gt r : matchTyped (js ">>>" ++ r) = None.
Proof. reflexivity. Qed.

Lemma lower_length8 a : toLowerCase a = js "<<<slack" -> length a = 8.
Proof. intros H. by rewrite <- toLowerCase_length, H. Qed.

Lemma matchOpenAt_spec s m0 g :
  matchOpenAt s = Some (m0, g) <-> OpenTag m0 g /\ exists r, s = m0 ++ r.
Proof.
  unfold matchOpenAt, OpenTag. split.
  - destruct (matchLiteral (js "<<<slack") s) as [r1|] eqn:Ha; [|done].
    apply matchLiteral_spec in Ha as (a & -> & Ha).
    pose proof (lower_length8 _ Ha) as Hlen.
    destruct (matchTyped r1) as [w|] eqn:Ht.
    + apply matchTyped_spec in Ht as (r' & -> & Hne & Hw).
      assert (take (8 + 1 + length w + 3) (a ++ ":"%char :: w ++ js ">>>" ++ r')
              = a ++ ":"%char :: w ++ js ">>>") as ->.
      { replace (a ++ ":"%char :: w ++ js ">>>" ++ r')
          with ((a ++ ":"%char :: w ++ js ">>>") ++ r')
          by (rewrite <- !app_assoc; simpl; by rewrite <- !app_assoc).
        apply take_app_length'. rewrite length_app. simpl.
        rewrite length_app. simpl. lia. }
      intros [= <- <-].
      split.
      * exists a. split; [done|]. right. by exists w.
      * exists r'. rewrite <- !app_assoc. simpl. by rewrite <- !app_assoc.
    + destruct (matchLiteral (js ">>>") r1) as [r'|] eqn:Hb; [|done].
      apply matchLiteral_spec in Hb as (b & -> & ->%lower_gt3).
      assert (take (8 + 3) (a ++ js ">>>" ++ r') = a ++ js ">>>") as ->.
      { rewrite app_assoc. apply take_app_length'.
        rewrite length_app. simpl. lia. }
      intros [= <- <-].
      split.
      * exists a. split; [done|]. by left.
      * exists r'. by rewrite <- app_assoc.
  - intros [(a & Ha & Hcase) (r & ->)].
    pose proof (lower_length8 _ Ha) as Hlen.
    destruct Hcase as [[-> ->]|(w & -> & Hne & Hw & ->)].
    + rewrite <- app_assoc, (matchLiteral_app _ a) by done.
      rewrite matchTyped_gt, (matchLiteral_app _ (js ">>>")) by done.
      f_equal. f_equal. rewrite app_assoc. apply take_app_length'.
      rewrite length_app. simpl. lia.
    + assert ((a ++ ":"%char :: w ++ js ">>>") ++ r
              = a ++ ":"%char :: w ++ js ">>>" ++ r) as Heq
        by (rewrite <- !app_assoc; simpl; by rewrite <- !app_assoc).
      rewrite Heq, (matchLiteral_app _ a) by done.
      assert (matchTyped (":"%char :: w ++ js ">>>" ++ r) = Some w) as ->
        by (apply matchTyped_spec; by exists r).
      f_equal. f_equal. rewrite <- Heq. apply take_app_length'.
      rewrite length_app. simpl. rewrite length_app. simpl. lia.
Qed.


Lemma matchOpenAt_fits s t m0 g :
  matchOpenAt (s ++ t) = Some (m0, g) -> length m0 <= length s ->
  matchOpenAt s = Some (m0, g).
Proof.
  intros [Htag [r Hr]]%matchOpenAt_spec Hlen. apply matchOpenAt_spec.
  split; [done|]. exists (drop (length m0) s).
  rewrite <- (take_drop (length m0) s) at 1. f_equal.
  apply (f_equal (take (length m0))) in Hr.
  rewrite take_app_le in Hr by done. by rewrite take_app_length in Hr.
Qed.

Lemma matchOpenAt_length s m0 g :
  matchOpenAt s = Some (m0, g) -> length m0 <= length s.
Proof.
  intros [_ [r ->]]%matchOpenAt_spec. rewrite length_app. lia.
Qed.

Lemma isWord_not_lt c : isWord c = true -> c <> "<"%char.
Proof. intros H ->. discriminate. Qed.

(** An open tag begins with three [<] and has none further on. *)
Lemma OpenTag_shape m0 g :
  OpenTag m0 g ->
  exists rest, m0 = js "<<<" ++ rest /\
               Forall (fun c => c <> "<"%char) rest /\ 8 <= length rest.
Proof.
  intros (a & Ha & Hcase).
  destruct a as [|a1 [|a2 [|a3 [|a4 [|a5 [|a6 [|a7 [|a8 [|]]]]]]]]];
    try discriminate.
  injection Ha as ->%lowerChar_lt ->%lowerChar_lt ->%lowerChar_lt H4 H5 H6 H7 H8.
  assert (Forall (fun c => c <> "<"%char) [a4; a5; a6; a7; a8]) as Hmid.
  { repeat constructor; intros ->; discriminate. }
  destruct Hcase as [[-> ->]|(w & -> & Hne & Hw & ->)].
  - exists ([a4; a5; a6; a7; a8] ++ js ">>>"). split; [done|]. split.
    + apply Forall_app. split; [done|]. by repeat constructor.
    + simpl. lia.
  - exists ([a4; a5; a6; a7; a8] ++ ":"%char :: w ++ js ">>>").
    split; [done|]. split.
    + apply Forall_app. split; [done|]. constructor; [done|].
      apply Forall_app. split; [|by repeat constructor].
      apply Forall_forall. intros c Hc. apply isWord_not_lt.
      rewrite forallb_forall in Hw. apply Hw. by apply list_elem_of_In.
    + rewrite length_app. simpl. rewrite length_app. simpl. lia.
Qed.

(** *** [exec]: the leftmost match *)

Lemma exec_cons c s :
  exec (c :: s)
  = match matchOpenAt (c :: s) with
    | Some (m0, m1) => Some (mkMatch 0 m0 m1)
    | None => match exec s with
              | Some m => Some (mkMatch (S (index m)) (matched m) (group1 m))
              | None => None
              end
    end.
Proof. reflexivity. Qed.

Lemma matchOpenAt_nil : matchOpenAt [] = None.
Proof. reflexivity. Qed.

Lemma exec_nil : exec [] = None.
Proof. reflexivity. Qed.

Lemma exec_Some s m :
  exec s = Some m <->
  index m <= length s /\
  matchOpenAt (drop (index m) s) = Some (matched m, group1 m) /\
  forall j, j < index m -> matchOpenAt (drop j s) = None.
Proof.
  revert m. induction s as [|c s IH]; intros m.
  - rewrite exec_nil. split; [done|]. intros (_ & Hm & _).
    rewrite drop_nil, matchOpenAt_nil in Hm. done.
  - rewrite exec_cons. destruct (matchOpenAt (c :: s)) as [[m0 m1]|] eqn:Hc.
    + split.
      * intros [= <-]. simpl. split; [lia|]. split; [done|]. intros; lia.
      * intros (Hi & Hd & Hj). destruct m as [[|i] m0' g']; simpl in *.
        -- congruence.
        -- specialize (Hj 0 ltac:(lia)). simpl in Hj. congruence.
    + split.
      * intros Hk. destruct (exec s) as [m'|] eqn:He; [|done].
        injection Hk as <-. simpl.
        destruct (IH m') as [(Hi & Hd & Hj) _]; [done|].
        split; [lia|]. split; [done|].
        intros [|j] Hlt; [done|]. simpl. apply Hj. lia.
      * intros (Hi & Hd & Hj). destruct m as [[|i] m0' g']; simpl in *.
        -- congruence.
        -- assert (exec s = Some (mkMatch i m0' g')) as ->; [|done].
           apply IH. simpl. split; [lia|]. split; [done|].
           intros j Hlt. apply (Hj (S j)). lia.
Qed.

Lemma exec_None s :
  exec s = None <->
  forall j, j <= length s -> matchOpenAt (drop j s) = None.
Proof.
  induction s as [|c s IH].
  - rewrite exec_nil. split; [|done]. intros _ j _. by rewrite drop_nil.
  - rewrite exec_cons. destruct (matchOpenAt (c :: s)) as [[m0 m1]|] eqn:Hc.
    + split; [done|]. intros H. specialize (H 0 ltac:(simpl; lia)).
      simpl in H. congruence.
    + split.
      * intros Hk [|j] Hj; [done|]. simpl. apply IH; [|simpl in Hj; lia].
        destruct (exec s); [discriminate|done].
      * intros H. assert (exec s = None) as ->; [|done].
        apply IH. intros j Hj. apply (H (S j)). simpl. lia.
Qed.

(** Two open tags do not overlap: a match that starts before another
    one ends before it. *)
Lemma matchOpenAt_no_overlap s j i m0 g m0' g' :
  j < i ->
  matchOpenAt (drop i s) = Some (m0, g) ->
  matchOpenAt (drop j s) = Some (m0', g') ->
  j + length m0' <= i + 2.
Proof.
  intros Hji [Htag [r Hr]]%matchOpenAt_spec [Htag' [r' Hr']]%matchOpenAt_spec.
  apply OpenTag_shape in Htag as (rest & -> & _ & _).
  apply OpenTag_shape in Htag' as (rest' & -> & Hall & _).
  destruct (decide (j + length (js "<<<" ++ rest') <= i + 2)) as [|Hgt];
    [done|exfalso].
  assert (s !! (i + 2) = Some "<"%char) as Hlt.
  { rewrite <- (lookup_drop s i 2), Hr. done. }
  assert (s !! (i + 2) = rest' !! (i + 2 - j - 3)) as Hrest.
  { replace (i + 2) with (j + (3 + (i + 2 - j - 3))) at 1 by lia.
    rewrite <- (lookup_drop s j), Hr', <- app_assoc.
    rewrite (lookup_app_r (js "<<<")) by (simpl; lia).
    simpl. rewrite length_app in Hgt. simpl in Hgt.
    rewrite lookup_app_l by lia. f_equal. lia. }
  rewrite Hlt in Hrest. symmetry in Hrest.
  apply list_elem_of_lookup_2 in Hrest.
  rewrite Forall_forall in Hall. by apply Hall in Hrest.
Qed.


End StringFacts.

(** ** The recursion of [tryScanOpen] and [tryClose] *)
Module ParserFacts.
Import EnvelopeParser.

Lemma captureBuffer_disarmUnclosed p :
  captureBuffer (disarmUnclosed p) = captureBuffer p.
Proof. unfold disarmUnclosed. by destruct (unclosedTimer p). Qed.

Lemma scanBuffer_closeEnvelope idx p :
  scanBuffer (closeEnvelope idx p)
  = drop (idx + length CLOSE_TAG) (captureBuffer p).
Proof. reflexivity. Qed.

Lemma tryCloseWith_ext (f g : Parser -> Result) (p : Parser) :
  (forall q, 0 < length (scanBuffer q) < length (captureBuffer p) ->
             f q = g q) ->
  tryCloseWith f p = tryCloseWith g p.
Proof.
  intros Hfg. unfold tryCloseWith.
  destruct (indexOf CLOSE_TAG (toLowerCase (captureBuffer p))) as [idx|];
    [|reflexivity].
  destruct (0 <? length (scanBuffer (closeEnvelope idx p))) eqn:Hrem;
    [|reflexivity].
  apply Nat.ltb_lt in Hrem. rewrite Hfg; [reflexivity|].
  rewrite scanBuffer_closeEnvelope, length_drop in *. simpl in *. lia.
Qed.

Lemma captureBuffer_openEnvelope m p :
  captureBuffer (openEnvelope m p)
  = drop (index m + length (matched m)) (scanBuffer p).
Proof. reflexivity. Qed.

Lemma tryScanOpenFuel_enough n m p :
  length (scanBuffer p) < n -> length (scanBuffer p) < m ->
  tryScanOpenFuel n p = tryScanOpenFuel m p.
Proof.
  revert m p. induction n as [|n IH]; intros m p Hn Hm; [lia|].
  destruct m as [|m]; [lia|]. simpl.
  destruct (exec (scanBuffer p)) as [mt|]; [|reflexivity].
  apply tryCloseWith_ext. intros q Hq.
  rewrite captureBuffer_openEnvelope, length_drop in Hq.
  apply IH; lia.
Qed.

(** [tryScanOpen] as the source writes it. *)
Lemma tryScanOpen_eq p :
  tryScanOpen p
  = match exec (scanBuffer p) with
    | None => (trimScan p, [])
    | Some m => tryClose (openEnvelope m p)
    end.
Proof.
  unfold tryScanOpen at 1. simpl.
  destruct (exec (scanBuffer p)) as [mt|]; [|reflexivity].
  unfold tryClose. apply tryCloseWith_ext. intros q Hq.
  rewrite captureBuffer_openEnvelope, length_drop in Hq.
  unfold tryScanOpen. apply tryScanOpenFuel_enough; lia.
Qed.

Lemma tryClose_eq p :
  tryClose p
  = match indexOf CLOSE_TAG (toLowerCase (captureBuffer p)) with
    | None => (p, [])
    | Some idx =>
        let p2 := closeEnvelope idx p in
        emitThen (closeMessage idx p)
          (if 0 <? length (scanBuffer p2) then tryScanOpen p2 else (p2, []))
    end.
Proof. reflexivity. Qed.

Lemma tryScanOpen_tryClose_rules n :
  (forall p, length (scanBuffer p) < n -> ScanOpen p (tryScanOpen p)) /\
  (forall p, length (captureBuffer p) < n -> Close p (tryClose p)).
Proof.
  induction n as [|n [IHs IHc]]; [split; intros; lia|]. split.
  - intros p Hp. rewrite tryScanOpen_eq.
    destruct (exec (scanBuffer p)) as [m|] eqn:He; [|by constructor].
    apply ScanOpen_match with m; [done|]. apply IHc.
    rewrite captureBuffer_openEnvelope, length_drop.
    apply StringFacts.exec_Some in He as (_ & Hm & _).
    pose proof (StringFacts.matchOpenAt_length _ _ _ Hm) as Hlen.
    apply StringFacts.matchOpenAt_spec in Hm as [Htag _].
    apply StringFacts.OpenTag_shape in Htag as (rest & Hrest & _ & _).
    rewrite Hrest, length_app, length_drop in Hlen. simpl in Hlen.
    rewrite Hrest, length_app. simpl. lia.
  - intros p Hp. rewrite tryClose_eq.
    destruct (indexOf CLOSE_TAG (toLowerCase (captureBuffer p)))
      as [idx|] eqn:Hi; [|by constructor].
    cbn zeta.
    destruct (0 <? length (scanBuffer (closeEnvelope idx p))) eqn:Hrem.
    + apply Nat.ltb_lt in Hrem. apply Close_more; [done| |].
      * by destruct (scanBuffer (closeEnvelope idx p)); [simpl in Hrem; lia|].
      * apply IHs. rewrite scanBuffer_closeEnvelope, length_drop in *.
        simpl in *. lia.
    + apply Nat.ltb_ge in Hrem.
      destruct (scanBuffer (closeEnvelope idx p)) eqn:Hsb;
        [|simpl in Hrem; lia].
      by apply Close_last.
Qed.

Lemma tryScanOpen_rules p : ScanOpen p (tryScanOpen p).
Proof.
  apply (proj1 (tryScanOpen_tryClose_rules (S (length (scanBuffer p))))).
  lia.
Qed.

Lemma tryClose_rules p : Close p (tryClose p).
Proof.
  apply (proj2 (tryScanOpen_tryClose_rules (S (length (captureBuffer p))))).
  lia.
Qed.

(** *** What holds of every parser a run leads to *)

Lemma exec_None_drop d s : exec s = None -> exec (drop d s) = None.
Proof.
  rewrite !StringFacts.exec_None. intros H j Hj. rewrite drop_drop.
  destruct (decide (d + j <= length s)) as [Hle|Hgt]; [by apply H|].
  rewrite drop_ge by lia. done.
Qed.

Lemma wellFormed_trimScan p :
  wellFormed p -> state p = scanning -> wellFormed (trimScan p).
Proof.
  unfold wellFormed, trimScan. intros (Ha & Hn & Hs) Hst.
  destruct (SCAN_TAIL <? length (scanBuffer p)); [|done].
  rewrite Hst in Hs. simpl. rewrite Hst.
  destruct Hs as [Hc He]. repeat split; try done.
  by apply exec_None_drop.
Qed.

Lemma elem_of_filter_ne (t : Timer) (l : list Timer) (u : Timer) :
  t ∈ l -> t <> u -> t ∈ filter (fun t' => t' <> u) l.
Proof. intros. by apply list_elem_of_filter. Qed.

Lemma disarmUnclosed_fields p :
  activationTimer (disarmUnclosed p) = activationTimer p /\
  nextTimer (disarmUnclosed p) = nextTimer p /\
  activated (disarmUnclosed p) = activated p /\
  state (disarmUnclosed p) = state p /\
  scanBuffer (disarmUnclosed p) = scanBuffer p /\
  currentType (disarmUnclosed p) = currentType p.
Proof. unfold disarmUnclosed. by destruct (unclosedTimer p). Qed.

Lemma activated_trimScan p : activated (trimScan p) = activated p.
Proof. unfold trimScan. by destruct (_ <? _). Qed.

Lemma wellFormed_scan_exec p :
  wellFormed p -> exec (scanBuffer p) = None.
Proof.
  intros (_ & _ & Hs). destruct (state p); [by destruct Hs|].
  destruct Hs as [-> _]. done.
Qed.

Lemma wellFormed_rules :
  (forall p r, ScanOpen p r ->
     activationTimer p = 0 -> 0 < nextTimer p -> activated p = true ->
     state p = scanning -> captureBuffer p = [] ->
     wellFormed r.1 /\ activated r.1 = activated p) /\
  (forall p r, Close p r ->
     wellFormed p -> state p = capturing ->
     wellFormed r.1 /\ activated r.1 = activated p).
Proof.
  apply ScanOpen_Close_ind.
  - intros p He Ha Hn Hac Hst Hcb. simpl. split; [|apply activated_trimScan].
    apply wellFormed_trimScan; [|done]. unfold wellFormed. by rewrite Hst.
  - intros p m r He _ IH Ha Hn Hac Hst Hcb.
    destruct IH as [Hwf Hact]; [|done|by rewrite Hact].
    unfold wellFormed. simpl. repeat split; [done|lia|done|].
    exists (nextTimer p). repeat split; [apply list_elem_of_here|lia].
  - intros p Hi Hwf Hst. done.
  - intros p idx Hi Hsb Hwf Hst. simpl.
    destruct (disarmUnclosed_fields p) as (E1 & E2 & E3 & _).
    destruct Hwf as (Ha & Hn & _). split; [|done].
    unfold wellFormed. simpl. rewrite E1, E2. repeat split; try done.
    rewrite scanBuffer_closeEnvelope in Hsb. simpl in Hsb. by rewrite Hsb.
  - intros p idx r Hi Hsb _ IH Hwf Hst.
    destruct (disarmUnclosed_fields p) as (E1 & E2 & E3 & _).
    destruct Hwf as (Ha & Hn & Hs). rewrite Hst in Hs.
    destruct Hs as (_ & Hac & _).
    destruct IH as [Hwf' Hact]; try done; simpl; try congruence.
    split; [done|]. by rewrite Hact.
Qed.

Lemma wellFormed_push data p :
  wellFormed p ->
  wellFormed (push data p).1 /\ activated (push data p).1 = activated p.
Proof.
  intros Hwf. unfold push. destruct (activated p) eqn:Hact; [|done].
  simpl. pose proof Hwf as (Ha & Hn & Hs).
  destruct (state p) eqn:Hst.
  - destruct (proj1 wellFormed_rules _ _ (tryScanOpen_rules
      (setScanBuffer (scanBuffer p ++ data) p))) as [H1 H2]; try done.
    + by destruct Hs.
    + split; [done|]. by rewrite H2.
  - destruct (proj2 wellFormed_rules _ _ (tryClose_rules
      (setCaptureBuffer (captureBuffer p ++ data) p))) as [H1 H2]; try done.
    + unfold wellFormed. simpl. by rewrite Hst.
    + split; [done|]. by rewrite H2.
Qed.

Lemma wellFormed_flushPartial p :
  activationTimer p = 0 -> 0 < nextTimer p -> exec (scanBuffer p) = None ->
  wellFormed (flushPartial p).1.
Proof. intros Ha Hn He. unfold wellFormed. simpl. done. Qed.

Lemma wellFormed_fire t p : wellFormed p -> wellFormed (fire t p).1.
Proof.
  intros Hwf. unfold fire.
  destruct (bool_decide (t ∈ pending p)); [|done].
  pose proof Hwf as (Ha & Hn & Hs).
  destruct (bool_decide (t = activationTimer (clearTimeout t p))) eqn:Ht.
  - apply bool_decide_eq_true in Ht. simpl in Ht.
    unfold wellFormed. simpl. repeat split; try done.
    destruct (state p); [done|].
    destruct Hs as (Hsb & Hac & u & Hu & Hin & Hne). split; [done|].
    split; [done|]. exists u. repeat split; try done.
    apply elem_of_filter_ne; [done|]. congruence.
  - apply wellFormed_flushPartial; try done.
    by apply (wellFormed_scan_exec p).
Qed.

Lemma wellFormed_flush p : wellFormed p -> wellFormed (flush p).1.
Proof.
  intros (Ha & Hn & _). unfold flush, wellFormed. simpl.
  destruct (unclosedTimer p); simpl; repeat split; try done.
Qed.

Lemma wellFormed_new : wellFormed new.
Proof. unfold wellFormed. simpl. repeat split; lia. Qed.




End ParserFacts.


(** ** One envelope, from open marker to close marker *)
Module RoundTrip.
Import EnvelopeParser StringFacts ParserFacts.

(** The close tag has no border: it does not begin inside a copy of
    itself. *)
Lemma close_tag_no_border u :
  0 < length u < length CLOSE_TAG ->
  startsWith CLOSE_TAG (u ++ CLOSE_TAG) = false.
Proof.
  intros Hlen. destruct (startsWith _ _) eqn:Hs; [exfalso|done].
  apply startsWith_spec in Hs as [r Hr]. simpl in Hlen.
  do 15 (destruct u as [|? u]; [simpl in Hlen; try lia; simplify_eq/=|]).
  simpl in Hlen. lia.
Qed.

Lemma indexOf_close_after body c :
  toLowerCase c = CLOSE_TAG ->
  indexOf CLOSE_TAG (toLowerCase body) = None ->
  indexOf CLOSE_TAG (toLowerCase (body ++ c)) = Some (length body).
Proof.
  intros Hc Hnone. rewrite toLowerCase_app, Hc.
  rewrite indexOf_None in Hnone. apply indexOf_Some.
  split; [rewrite length_app, toLowerCase_length; lia|]. split.
  - rewrite <- (toLowerCase_length body), drop_app_length.
    apply (startsWith_app CLOSE_TAG []).
  - intros j Hj. rewrite drop_app_le by (rewrite toLowerCase_length; lia).
    destruct (decide (length CLOSE_TAG <= length (drop j (toLowerCase body))))
      as [Hfit|Hshort].
    + rewrite startsWith_app_fits by done. apply Hnone.
      rewrite toLowerCase_length. lia.
    + apply close_tag_no_border.
      rewrite length_drop, toLowerCase_length in *. lia.
Qed.

(** An open tag after text without one is the leftmost match. *)
Lemma exec_app_tag s o g r :
  exec s = None -> OpenTag o g ->
  exec (s ++ o ++ r) = Some (mkMatch (length s) o g).
Proof.
  intros Hnone Htag. apply exec_Some. simpl.
  assert (matchOpenAt (drop (length s) (s ++ o ++ r)) = Some (o, g)) as Hhere.
  { rewrite drop_app_length. apply matchOpenAt_spec. split; [done|by exists r]. }
  split; [rewrite length_app; lia|]. split; [done|].
  intros j Hj.
  destruct (matchOpenAt (drop j (s ++ o ++ r))) as [[m0' g']|] eqn:Hm; [|done].
  exfalso.
  pose proof (matchOpenAt_no_overlap _ _ _ _ _ _ _ Hj Hhere Hm) as Hov.
  rewrite exec_None in Hnone.
  rewrite drop_app_le in Hm by lia.
  destruct (decide (length m0' <= length (drop j s))) as [Hfit|Hout].
  - apply matchOpenAt_fits in Hm; [|done].
    rewrite Hnone in Hm by lia. done.
  - rewrite length_drop in Hout.
    apply matchOpenAt_spec in Hm as [Htag' [r' Hr']].
    apply OpenTag_shape in Htag' as (rest' & -> & Hall & Hl8).
    apply OpenTag_shape in Htag as (rest & -> & _ & _).
    rewrite length_app in Hov, Hout. simpl in Hov, Hout.
    (* the last code unit of the earlier match is one of the first two
       of the tag [o] *)
    assert ((drop j s ++ (js "<<<" ++ rest) ++ r)
              !! (3 + (length rest' - 1))
            = rest' !! (length rest' - 1)) as Hlast.
    { rewrite Hr', <- app_assoc.
      rewrite (lookup_app_r (js "<<<")) by (simpl; lia).
      change (length (js "<<<")) with 3.
      rewrite lookup_app_l by lia. f_equal. lia. }
    assert ((drop j s ++ (js "<<<" ++ rest) ++ r)
              !! (3 + (length rest' - 1)) = Some "<"%char) as Hlt.
    { rewrite lookup_app_r by (rewrite length_drop; lia).
      rewrite length_drop.
      destruct (3 + (length rest' - 1) - (length s - j)) as [|[|k]] eqn:Hk;
        [done|done|lia]. }
    rewrite Hlt in Hlast. symmetry in Hlast.
    apply list_elem_of_lookup_2 in Hlast.
    rewrite Forall_forall in Hall. by apply Hall in Hlast.
Qed.

Lemma typeName_word ty : forallb isWord (typeName ty) = true.
Proof. by destruct ty. Qed.

Lemma validType_typeName ty : validType (typeName ty) = Some ty.
Proof. by destruct ty. Qed.

Lemma typeName_truthy ty : truthy (typeName ty) = true.
Proof. by destruct ty. Qed.

Lemma forallb_isWord_lower w :
  forallb isWord (toLowerCase w) = forallb isWord w.
Proof.
  induction w as [|c w IH]; simpl; [done|].
  by rewrite isWord_lowerChar, IH.
Qed.

(** A marker that reads [<<<slack:TYPE>>>] in lower case is an open
    tag whose type group reads [TYPE] in lower case. *)
Lemma openTag_of_marker ty o :
  toLowerCase o = toLowerCase (openMarker ty) ->
  exists w, OpenTag o (Some w) /\ toLowerCase w = typeName ty.
Proof.
  assert (toLowerCase (openMarker ty)
          = js "<<<slack" ++ ":"%char :: typeName ty ++ js ">>>") as ->
    by by destruct ty.
  intros Ho. unfold toLowerCase in Ho.
  apply fmap_app_inv in Ho as (a & o1 & Ha & Ho1 & ->).
  destruct o1 as [|colon o2]; [discriminate|].
  simpl in Ho1. injection Ho1 as Hcolon Ho2. symmetry in Ho2.
  apply (fmap_app_inv lowerChar) in Ho2 as (w & b & Hw & Hb & ->).
  assert (colon = ":"%char) as ->.
  { clear -Hcolon. revert Hcolon. all_chars colon. }
  exists w. split; [|done].
  exists a. split; [done|]. right. exists w.
  rewrite (lower_gt3 b) by done. repeat split; try done.
  - intros ->. by destruct ty.
  - rewrite <- forallb_isWord_lower.
    replace (toLowerCase w) with (typeName ty) by exact Hw.
    apply typeName_word.
Qed.

Lemma closeMarker_length c : toLowerCase c = CLOSE_TAG -> length c = 15.
Proof. intros H. by rewrite <- toLowerCase_length, H. Qed.

(** The three steps of a well-formed envelope, seen from a parser that
    is scanning and has no open tag in its scan buffer. *)
Lemma push_open ty o rest p :
  activated p = true -> state p = scanning -> exec (scanBuffer p) = None ->
  toLowerCase o = toLowerCase (openMarker ty) ->
  push (o ++ rest) p
  = tryClose (mkParser capturing [] rest (Some ty) true (activationTimer p)
                (Some (nextTimer p)) (nextTimer p :: pending p)
                (S (nextTimer p))).
Proof.
  intros Hact Hst Hnone Ho. unfold push. rewrite Hact, Hst. simpl.
  apply openTag_of_marker in Ho as (w & Htag & Hw).
  rewrite tryScanOpen_eq. simpl.
  rewrite (exec_app_tag _ _ _ rest Hnone Htag). f_equal.
  unfold openEnvelope, armUnclosed. simpl.
  rewrite <- drop_drop, drop_app_length, drop_app_length.
  rewrite Hw, typeName_truthy.
  by rewrite validType_typeName, Hact.
Qed.

Lemma tryClose_body_close ty body c a n pend :
  toLowerCase c = CLOSE_TAG ->
  indexOf CLOSE_TAG (toLowerCase body) = None ->
  tryClose (mkParser capturing [] (body ++ c) (Some ty) true a (Some n)
              pend (S n))
  = (mkParser scanning [] [] (Some ty) true a None
       (filter (fun t' => t' <> n) pend) (S n),
     [mkMessage (Some ty) (trim (stripAnsi body)) None]).
Proof.
  intros Hc Hnone. rewrite tryClose_eq. simpl.
  rewrite (indexOf_close_after _ _ Hc Hnone). cbn zeta.
  unfold closeEnvelope, closeMessage, disarmUnclosed. simpl.
  rewrite drop_app_ge by lia.
  rewrite (drop_ge c) by (rewrite (closeMarker_length c Hc); lia).
  simpl. unfold emitThen. simpl.
  by rewrite take_app_length.
Qed.


Lemma indexOf_close_nil : indexOf CLOSE_TAG (toLowerCase []) = None.
Proof. reflexivity. Qed.

Lemma roundtrip_one_chunk ty o body c p :
  activated p = true -> state p = scanning -> exec (scanBuffer p) = None ->
  toLowerCase o = toLowerCase (openMarker ty) ->
  toLowerCase c = CLOSE_TAG ->
  indexOf CLOSE_TAG (toLowerCase body) = None ->
  push (o ++ body ++ c) p
  = (mkParser scanning [] [] (Some ty) true (activationTimer p) None
       (filter (fun t' => t' <> nextTimer p) (nextTimer p :: pending p))
       (S (nextTimer p)),
     [mkMessage (Some ty) (trim (stripAnsi body)) None]).
Proof.
  intros Hact Hst Hnone Ho Hc Hb.
  rewrite (push_open ty) by done. by apply tryClose_body_close.
Qed.


End RoundTrip.

(** ** Chunk boundaries *)
Module Chunking.
Import EnvelopeParser StringFacts ParserFacts.




Lemma setScanBuffer_id p : setScanBuffer (scanBuffer p) p = p.
Proof. by destruct p. Qed.

Lemma trimScan_eq p : trimScan p = setScanBuffer (keepTail (scanBuffer p)) p.
Proof.
  unfold trimScan, keepTail. destruct (_ <? _); [done|].
  by rewrite setScanBuffer_id.
Qed.






















End Chunking.

(** ** The activation gate, the round trip and the unclosed timeout *)
Module EnvelopeProperties.
Import EnvelopeParser StringFacts ParserFacts RoundTrip.

Lemma push_not_activated data p :
  activated p = false -> push data p = (p, []).
Proof. intros H. unfold push. by rewrite H. Qed.

Lemma dormant_step e p :
  dormant p -> e <> Fire (activationTimer new) ->
  dormant (step e p).1 /\ (step e p).2 = [].
Proof.
  intros (Hact & Ha & Hcb) He. destruct e as [data|t|]; simpl.
  - by rewrite push_not_activated.
  - unfold fire. destruct (bool_decide (t ∈ pending p)); [|done].
    rewrite bool_decide_eq_false_2 by (simpl; congruence).
    unfold flushPartial. simpl. by rewrite Hcb.
  - unfold flush. simpl.
    assert (captureBuffer
              match unclosedTimer p with
              | Some t => clearTimeout t (clearTimeout (activationTimer p) p)
              | None => clearTimeout (activationTimer p) p
              end = []) as Hcb'
      by (by destruct (unclosedTimer p)).
    rewrite Hcb'. rewrite andb_false_r.
    by destruct (unclosedTimer p).
Qed.

(** C7: as long as the activation timer has not fired, nothing that
    happens to the parser (chunks pushed, also chunks with well-formed
    open and close markers, other timers, a flush) makes it emit an
    envelope, and the parser stays not activated. *)
Theorem no_envelope_before_activation (evs : list Event) :
  Forall (fun e => e <> Fire (activationTimer new)) evs ->
  (run evs new).2 = [] /\ activated (run evs new).1 = false.
Proof.
  assert (forall p, dormant p ->
            Forall (fun e => e <> Fire (activationTimer new)) evs ->
            (run evs p).2 = [] /\ activated (run evs p).1 = false) as Hgen.
  { induction evs as [|e evs IH]; intros p Hd Hall.
    - split; [done|]. by destruct Hd.
    - apply Forall_cons in Hall as [He Hall].
      destruct (dormant_step e p Hd He) as [Hd' Hout].
      destruct (IH _ Hd' Hall) as [Hm Ha].
      simpl. by rewrite Hout, Hm. }
  apply Hgen. by unfold dormant.
Qed.

Lemma no_envelope_before_activation_witness :
  (run [Push (js "<<<SLACK:done>>>finished<<<END_SLACK>>>"); Flush;
        Push (js "<<<SLACK>>>again<<<END_SLACK>>>")] new).2 = [] /\
  activated
    (run [Push (js "<<<SLACK:done>>>finished<<<END_SLACK>>>"); Flush;
          Push (js "<<<SLACK>>>again<<<END_SLACK>>>")] new).1 = false.
Proof.
  apply (no_envelope_before_activation
           [Push (js "<<<SLACK:done>>>finished<<<END_SLACK>>>"); Flush;
            Push (js "<<<SLACK>>>again<<<END_SLACK>>>")]).
  repeat constructor; discriminate.
Defined.











End EnvelopeProperties.

(** ** The full-output streamer *)
Module StreamerProperties.
Import Reporter FullStreamer.

Lemma flush_never_rejects o r s : rejected (flush o r s) = false.
Proof.
  unfold flush. destruct (tsOf s); [|done].
  destruct (negb (truthy (buffer s)) || stopped s); [done|].
  destruct (_ <? _).
  - destruct (updateMessage r _ _ _); [|done].
    by destruct (postMessage r _ _ _).
  - by destruct (updateMessage r _ _ _).
Qed.

(** A failed update of a buffer within the ceiling keeps the buffer. *)
Lemma flush_in_place_keeps_buffer o r s :
  length (buffer s) <= maxCharsPerMessage o ->
  after (flush o r s) = s.
Proof.
  intros Hlen. unfold flush. destruct (tsOf s); [|done].
  destruct (negb (truthy (buffer s)) || stopped s); [done|].
  rewrite (proj2 (Nat.ltb_ge _ _)) by done.
  by destruct (updateMessage r _ _ _).
Qed.

(** C3: the code breaks the claim.  In a tick that splits, the buffer
    is cut before the update is sent: when the update fails, the error
    is logged and not propagated, but the slice that was being sent is
    gone from the buffer, and the next tick sends only what follows
    it. *)
Theorem flush_failure_loses_slice :
  let s := sampleStreamer (js "abcdefghij") in
  let o1 := tick sampleOptions failing s in
  let o2 := tick sampleOptions (reliable (js "100.3")) (after o1) in
  rejected o1 = false /\ logged o1 = 1 /\
  calls o1 = [UpdateMessage (js "C1") (js "100.2") (block (js "abcd"))] /\
  buffer (after o1) = js "efghij" /\
  calls o2 = [UpdateMessage (js "C1") (js "100.2") (block (js "efgh"));
              PostMessage (js "C1") CONTINUED (Some (js "100.1"))] /\
  buffer (after o2) = js "ij".
Proof. vm_compute. repeat split. Qed.





Lemma stopped_finish o r exitCode s :
  stopped (after (finish o r exitCode s)) = true.
Proof.
  unfold finish. destruct (tsOf _); [|done].
  by destruct (updateMessage r _ _ _).
Qed.

Lemma ticking_finish o r exitCode s :
  flushTimer s <> None -> ticking (after (finish o r exitCode s)) = false.
Proof.
  intros Ht. unfold finish. destruct (flushTimer s) eqn:Hf; [|done].
  destruct (tsOf _); [|done]. by destruct (updateMessage r _ _ _).
Qed.

(** C10: once [finish] has been invoked, whatever its own update does,
    every push leaves the streamer (buffer and current message target
    included) as it is, every call of [flush] and every tick makes no
    outbound call and leaves the streamer as it is, and this stays so
    for any number of pushes and flushes. *)
Theorem inert_after_finish (o : Options) (r r' : Reporter) (exitCode : Z)
    (s : Streamer) (data : str) :
  let s' := after (finish o r exitCode s) in
  push data s' = s' /\
  flush o r' s' = mkOutcome s' [] 0 false /\
  tick o r' s' = mkOutcome s' [] 0 false /\
  stopped (push data s') = true /\
  stopped (after (flush o r' s')) = true.
Proof.
  intros s'. pose proof (stopped_finish o r exitCode s) as Hstop.
  fold s' in Hstop.
  assert (flush o r' s' = mkOutcome s' [] 0 false) as Hflush.
  { unfold flush. rewrite Hstop, orb_true_r. by destruct (tsOf s'). }
  assert (push data s' = s') as Hpush by (unfold push; by rewrite Hstop).
  rewrite Hpush, Hflush. repeat split; try done.
  unfold tick. rewrite Hflush. by destruct (ticking s').
Qed.

End StreamerProperties.

(** ** Deterministic identifiers *)
Module UuidProperties.
Import Sha1 SessionId.

Example sha1_abc :
  digestHex (utf8 (js "abc")) = js "a9993e364706816aba3e25717850c26c9cd0d89d".
Proof. vm_compute. reflexivity. Qed.

Example sha1_empty :
  digestHex [] = js "da39a3ee5e6b4b0d3255bfef95601890afd80709".
Proof. vm_compute. reflexivity. Qed.

Example sha1_two_blocks :
  digestHex (utf8 (js
    "abcdbcdecdefdefgefghfghighijhijkijkljklmklmnlmnomnopnopq"))
  = js "84983e441c3bd26ebaae4aa1f95129e5e54670f1".
Proof. vm_compute. reflexivity. Qed.

Example stringToUuid_thread :
  stringToUuid (js "slack-C1-100.1")
  = js "de0a3534-7032-5b3d-997c-891bb3a484d1".
Proof. vm_compute. reflexivity. Qed.

Example isUuidV5_rejects :
  map isUuidV5
    [js "de0a3534-7032-4b3d-997c-891bb3a484d1";
     js "de0a3534-7032-5b3d-c97c-891bb3a484d1";
     js "DE0A3534-7032-5B3D-997C-891BB3A484D1";
     js "de0a3534-7032-5b3d-997c-891bb3a484d";
     js "de0a35347032-5b3d-997c-891bb3a484d1";
     js "de0a3534-7032-5b3d-997c-891bb3a484d1"]
  = [false; false; false; false; false; true].
Proof. vm_compute. reflexivity. Qed.

Local Open Scope N_scope.

Lemma isLowerHex_hexDigit n : isLowerHex (hexDigit n) = true.
Proof.
  destruct n as [|p]; [done|].
  do 4 (destruct p as [p|p|]; try done).
Qed.

Lemma isLowerHex_not_hyphen c :
  isLowerHex c = true -> Ascii.eqb c "-"%char = false.
Proof.
  intros H. destruct (Ascii.eqb c "-") eqn:E; [|done].
  apply Ascii.eqb_eq in E as ->. done.
Qed.

Lemma splitHyphen_group cur g rest :
  forallb isLowerHex g = true ->
  splitHyphen cur (g ++ "-"%char :: rest)
  = (rev cur ++ g) :: splitHyphen [] rest.
Proof.
  revert cur. induction g as [|c g IH]; intros cur Hg; simpl.
  - by rewrite app_nil_r.
  - simpl in Hg. apply andb_true_iff in Hg as [Hc Hg].
    rewrite (isLowerHex_not_hyphen c Hc), IH by done.
    simpl. by rewrite <- app_assoc.
Qed.

Lemma splitHyphen_last cur g :
  forallb isLowerHex g = true -> splitHyphen cur g = [rev cur ++ g].
Proof.
  revert cur. induction g as [|c g IH]; intros cur Hg; simpl.
  - by rewrite app_nil_r.
  - simpl in Hg. apply andb_true_iff in Hg as [Hc Hg].
    rewrite (isLowerHex_not_hyphen c Hc), IH by done.
    simpl. by rewrite <- app_assoc.
Qed.

Lemma isUuidV5_groups g1 g2 g3 g4 g5 :
  forallb isLowerHex (g1 ++ g2 ++ g3 ++ g4 ++ g5) = true ->
  map length [g1; g2; g3; g4; g5] = [8; 4; 4; 4; 12]%nat ->
  head g3 = Some "5"%char ->
  head g4 ∈ [Some "8"%char; Some "9"%char; Some "a"%char; Some "b"%char] ->
  isUuidV5 (join (js "-") [g1; g2; g3; g4; g5]) = true.
Proof.
  intros Hhex Hlen H3 H4. unfold isUuidV5. cbn [join js list_ascii_of_string].
  pose proof Hhex as Hall.
  rewrite !forallb_app in Hall.
  apply andb_true_iff in Hall as [Hg1 Hall].
  apply andb_true_iff in Hall as [Hg2 Hall].
  apply andb_true_iff in Hall as [Hg3 Hall].
  apply andb_true_iff in Hall as [Hg4 Hg5].
  cbn [app].
  rewrite !splitHyphen_group, splitHyphen_last by done.
  cbn [rev app]. rewrite Hhex.
  rewrite !bool_decide_eq_true_2 by done. done.
Qed.

Lemma variantGroupOk_all b : b < 256 -> variantGroupOk b = true.
Proof.
  intros Hb.
  assert (forallb variantGroupOk (map N.of_nat (seq 0 256)) = true) as Hall
    by (vm_compute; reflexivity).
  rewrite forallb_forall in Hall. apply Hall.
  apply in_map_iff. exists (N.to_nat b). split; [lia|].
  apply in_seq. lia.
Qed.

Lemma uuidOfHash_chars
    c0 c1 c2 c3 c4 c5 c6 c7 c8 c9 c10 c11 c12 c13 c14 c15 c16 c17 c18 c19
    c20 c21 c22 c23 c24 c25 c26 c27 c28 c29 c30 c31 c32 c33 c34 c35 c36 c37
    c38 c39 :
  uuidOfHash [c0; c1; c2; c3; c4; c5; c6; c7; c8; c9; c10; c11; c12; c13;
              c14; c15; c16; c17; c18; c19; c20; c21; c22; c23; c24; c25;
              c26; c27; c28; c29; c30; c31; c32; c33; c34; c35; c36; c37;
              c38; c39]
  = join (js "-")
      [[c0; c1; c2; c3; c4; c5; c6; c7]; [c8; c9; c10; c11];
       ["5"%char; c13; c14; c15]; variantGroup c16 c17 ++ [c18; c19];
       [c20; c21; c22; c23; c24; c25; c26; c27; c28; c29; c30; c31]].
Proof. reflexivity. Qed.

Lemma digest_bytes msg :
  exists b0 b1 b2 b3 b4 b5 b6 b7 b8 b9 b10 b11 b12 b13 b14 b15 b16 b17
         b18 b19,
    digest msg = [b0; b1; b2; b3; b4; b5; b6; b7; b8; b9; b10; b11; b12;
                  b13; b14; b15; b16; b17; b18; b19] /\ b8 < 256.
Proof.
  unfold digest, wordBytes. do 20 eexists. split; [reflexivity|].
  by apply N.mod_lt.
Qed.

Lemma uuidOfHash_wellformed msg : isUuidV5 (uuidOfHash (digestHex msg)) = true.
Proof.
  destruct (digest_bytes msg) as
    (b0 & b1 & b2 & b3 & b4 & b5 & b6 & b7 & b8 & b9 & b10 & b11 & b12 & b13
     & b14 & b15 & b16 & b17 & b18 & b19 & Hd & Hb8).
  unfold digestHex. rewrite Hd. cbn [flat_map app hexByte].
  rewrite uuidOfHash_chars.
  pose proof (variantGroupOk_all b8 Hb8) as Hv. unfold variantGroupOk in Hv.
  destruct (variantGroup (hexDigit (b8 / 16)) (hexDigit (b8 mod 16)))
    as [|d1 [|d2 [|]]]; try done.
  apply andb_true_iff in Hv as [Hd1 Hd2].
  apply bool_decide_eq_true in Hd1.
  apply isUuidV5_groups.
  - cbn [app forallb]. rewrite !isLowerHex_hexDigit, Hd2. cbn [andb].
    rewrite !andb_true_r.
    set_unfold in Hd1. by destruct Hd1 as [->|[->|[->|[->|[]]]]].
  - reflexivity.
  - reflexivity.
  - cbn [app head]. set_unfold. set_unfold in Hd1.
    destruct Hd1 as [->|[->|[->|[->|[]]]]]; tauto.
Qed.

(** C9: [stringToUuid] gives equal outputs for equal inputs, and every
    output is a well-formed version-5 UUID: five hyphen-separated
    groups of lower-case hexadecimal digits, of lengths 8-4-4-4-12, the
    third beginning with 5 and the fourth with 8, 9, a or b. *)
Theorem stringToUuid_wellformed :
  (forall a b : str, a = b -> stringToUuid a = stringToUuid b) /\
  (forall input : str, isUuidV5 (stringToUuid input) = true).
Proof.
  split.
  - by intros a b ->.
  - intros input. apply uuidOfHash_wellformed.
Qed.

Lemma stringToUuid_wellformed_witness :
  stringToUuid (js "slack-C1-100.1") = stringToUuid (js "slack-C1-100.1") /\
  isUuidV5 (stringToUuid (js "slack-C1-100.1")) = true.
Proof.
  split.
  - apply (proj1 stringToUuid_wellformed). reflexivity.
  - apply (proj2 stringToUuid_wellformed).
Defined.

End UuidProperties.

(** ** Session continuation and finalisation *)
Module SessionProperties.
Import SessionId SessionManager.

Lemma binding_after_spawn promptText sid startTs channel ts cmd cfg m :
  is_Some (given (sessionFlag cfg)) \/ is_Some (given (sessionIdFlag cfg)) ->
  threadBindings
    (spawn promptText sid startTs Started (cliOptions channel ts cmd cfg) m)
    !! bindingKey channel ts
  = Some (mkBinding (prefix cfg)
            (continuationId (cliOptions channel ts cmd cfg)) channel).
Proof.
  intros Hflag. unfold spawn, registerBinding. simpl.
  assert (bool_decide (is_Some (given (sessionFlag cfg)))
          || bool_decide (is_Some (given (sessionIdFlag cfg))) = true) as ->.
  { apply orb_true_iff.
    destruct Hflag; [left|right]; by apply bool_decide_eq_true. }
  simpl. apply lookup_insert_eq.
Qed.

(** The events of the event loop leave the thread bindings alone. *)
Lemma finalise_keeps_bindings thread code m :
  threadBindings (finalise thread code m) = threadBindings m.
Proof.
  unfold finalise. destruct (sessions m !! thread); [|done].
  by destruct (objects m !! _).
Qed.

Lemma step_keeps_bindings e m :
  threadBindings (step e m) = threadBindings m.
Proof.
  destruct e as [proc code|timer|k]; simpl.
  - unfold onExit. destruct (listeners m !! proc) as [l|]; [|done].
    destruct (exitedFlag l); [done|]. by rewrite finalise_keeps_bindings.
  - unfold onTimeout. destruct (timeouts m !! timer); [|done].
    by rewrite finalise_keeps_bindings.
  - unfold resume. destruct (finalising m !! k) as [f|]; [|done].
    destruct (objects m !! _) as [session|]; [|done].
    destruct (stage f); [|done]. by destruct (given (messageTs session)).
Qed.

Lemma run_keeps_bindings evs m :
  threadBindings (run evs m) = threadBindings m.
Proof.
  revert m. induction evs as [|e evs IH]; intros m; [done|].
  simpl. change (fold_left _ evs (step e m)) with (run evs (step e m)).
  by rewrite IH, step_keeps_bindings.
Qed.

(** The process that a spawn starts, as the first of its effects. *)
Lemma spawn_started_effects promptText sid startTs o m :
  SessionApi.effectsSince m (spawn promptText sid startTs Started o m)
  = [SpawnProcess (binary (config o)) (spawnArgs promptText o);
     RouterStart (fresh m)]
    ++ (if negb (isTrue (isContinuation o))
        then [match mode (config o) with
              | oneShot =>
                  PostMessage (channelId o)
                    (js "🚀 Session started — " ++ description (config o))
                    (threadTs o)
              | interactive =>
                  PostMessageWithButton (channelId o)
                    (js "🚀 Session started — " ++ description (config o)
                       ++ js " (log: `" ++ sid ++ js "`)") (threadTs o)
              end]
        else []).
Proof.
  unfold SessionApi.effectsSince, spawn. cbn [effects].
  by rewrite drop_app_length.
Qed.

(** C8: a one-shot command is spawned on a channel and thread; the
    event loop runs on (the process may exit and the session be
    finalised); then a reply in the thread is spawned as the
    continuation that the thread binding of the first spawn gives.
    Both spawns start a process of the configured binary.  With a
    reusable session flag, the arguments of both processes are the
    configured arguments, that flag and the same id (the plain id
    [slack-<channel>-<thread>], or its UUID when a create flag is
    configured as well), then the prompt flag, if one is configured,
    and the text of the message, after the envelope prompt and an
    empty line when the command is in envelope mode and a prompt is
    set.  With a create flag and a resume flag (and no reusable flag),
    the first process gets the create flag and the continuation the
    resume flag, both with the UUID derived from
    [slack-<channel>-<thread>].  The first spawn posts its start
    notice, the continuation posts none. *)
Theorem continuation_flags
    (promptText sid startTs sid' startTs' channel ts cmd text : str)
    (commands : list CommandConfig) (cfg : CommandConfig)
    (evs : list Event) (m : Manager) :
  mode cfg = oneShot -> truthy ts = true ->
  find (fun c => bool_decide (prefix c = prefix cfg)) commands = Some cfg ->
  let first := cliOptions channel ts cmd cfg in
  let m1 := spawn promptText sid startTs Started first m in
  let m2 := run evs m1 in
  let slackId := js "slack-" ++ channel ++ js "-" ++ ts in
  let second id := mkSpawnOptions channel ts text cfg None (Some id)
                     (Some true) in
  let notice := PostMessage channel
                  (js "🚀 Session started — " ++ description cfg) ts in
  let prompted c :=
    let final := if envelope cfg && truthy promptText
                 then promptText ++ [LF; LF] ++ c else c in
    match given (promptFlag cfg) with
    | Some pf => [pf; final]
    | None => [final]
    end in
  (forall f, given (sessionFlag cfg) = Some f ->
     let id := match given (sessionIdFlag cfg) with
               | Some _ => stringToUuid slackId
               | None => slackId
               end in
     continuationOptions commands channel text (Some ts) m2
     = Some (second id) /\
     SessionApi.effectsSince m m1
     = [SpawnProcess (binary cfg)
          (default [] (args cfg) ++ [f; id] ++ prompted cmd);
        RouterStart (fresh m); notice] /\
     SessionApi.effectsSince m2
       (spawn promptText sid' startTs' Started (second id) m2)
     = [SpawnProcess (binary cfg)
          (default [] (args cfg) ++ [f; id] ++ prompted text);
        RouterStart (fresh m2)]) /\
  (forall create resume,
     given (sessionFlag cfg) = None ->
     given (sessionIdFlag cfg) = Some create ->
     given (resumeFlag cfg) = Some resume ->
     let id := stringToUuid slackId in
     continuationOptions commands channel text (Some ts) m2
     = Some (second id) /\
     SessionApi.effectsSince m m1
     = [SpawnProcess (binary cfg)
          (default [] (args cfg) ++ [create; id] ++ prompted cmd);
        RouterStart (fresh m); notice] /\
     SessionApi.effectsSince m2
       (spawn promptText sid' startTs' Started (second id) m2)
     = [SpawnProcess (binary cfg)
          (default [] (args cfg) ++ [resume; id] ++ prompted text);
        RouterStart (fresh m2)]).
Proof.
  intros Hmode Hts Hfind first m1 m2 slackId second notice prompted. split.
  - intros f Hf id. split; [|split].
    + unfold continuationOptions, given at 1. rewrite Hts.
      unfold m2. rewrite run_keeps_bindings.
      unfold m1, first. rewrite binding_after_spawn by (left; by rewrite Hf).
      cbn [bindingPrefix bindingSessionId]. rewrite Hfind.
      unfold continuationId.
      cbn [config cliOptions sessionId channelId threadTs].
      reflexivity.
    + unfold m1. rewrite spawn_started_effects. unfold spawnArgs, sessionArgs,
        continuationId, promptArgs, finalCommand.
      cbn [config first cliOptions sessionId isContinuation isTrue channelId
           threadTs negb command].
      by rewrite Hmode, Hf.
    + rewrite spawn_started_effects. unfold spawnArgs, sessionArgs,
        continuationId, promptArgs, finalCommand.
      cbn [config second sessionId isContinuation isTrue channelId
           threadTs negb command].
      by rewrite Hmode, Hf.
  - intros create resume Hf Hc Hr id. split; [|split].
    + unfold continuationOptions, given at 1. rewrite Hts.
      unfold m2. rewrite run_keeps_bindings.
      unfold m1, first. rewrite binding_after_spawn by (right; by rewrite Hc).
      cbn [bindingPrefix bindingSessionId]. rewrite Hfind.
      unfold continuationId.
      cbn [config cliOptions sessionId channelId threadTs].
      by rewrite Hc.
    + unfold m1. rewrite spawn_started_effects. unfold spawnArgs, sessionArgs,
        continuationId, promptArgs, finalCommand.
      cbn [config first cliOptions sessionId isContinuation isTrue channelId
           threadTs negb command].
      by rewrite Hmode, Hf, Hc.
    + rewrite spawn_started_effects. unfold spawnArgs, sessionArgs,
        continuationId, promptArgs, finalCommand.
      cbn [config second sessionId isContinuation isTrue channelId
           threadTs negb command].
      by rewrite Hmode, Hf, Hc, Hr.
Qed.

Lemma continuation_flags_witness :
  let prompt := js "Use envelopes." in
  let exits := [ExitCallback 0 0; Resume 0; Resume 0] in
  (let first := cliOptions (js "C1") (js "100.1") (js "hello") kimi in
   let m1 := spawn prompt (js "session_1") (js "100.2") Started first empty in
   let m2 := run exits m1 in
   let id := js "slack-C1-100.1" in
   let second := mkSpawnOptions (js "C1") (js "100.1") (js "and then?") kimi
                   None (Some id) (Some true) in
   continuationOptions [kimi; claude] (js "C1") (js "and then?")
     (Some (js "100.1")) m2 = Some second /\
   SessionApi.effectsSince empty m1
   = [SpawnProcess (js "kimi")
        [js "--quiet"; js "-S"; id; js "-p";
         prompt ++ [LF; LF] ++ js "hello"];
      RouterStart 0;
      PostMessage (js "C1") (js "🚀 Session started — Kimi Code")
        (js "100.1")] /\
   SessionApi.effectsSince m2
     (spawn prompt (js "session_2") (js "100.4") Started second m2)
   = [SpawnProcess (js "kimi")
        [js "--quiet"; js "-S"; id; js "-p";
         prompt ++ [LF; LF] ++ js "and then?"];
      RouterStart 2]) /\
  (let first := cliOptions (js "C1") (js "100.1") (js "hello") claude in
   let m1 := spawn prompt (js "session_1") (js "100.2") Started first empty in
   let m2 := run exits m1 in
   let id := stringToUuid (js "slack-C1-100.1") in
   let second := mkSpawnOptions (js "C1") (js "100.1") (js "and then?")
                   claude None (Some id) (Some true) in
   continuationOptions [kimi; claude] (js "C1") (js "and then?")
     (Some (js "100.1")) m2 = Some second /\
   SessionApi.effectsSince empty m1
   = [SpawnProcess (js "claude")
        [js "--print"; js "--session-id"; id; js "-p";
         prompt ++ [LF; LF] ++ js "hello"];
      RouterStart 0;
      PostMessage (js "C1") (js "🚀 Session started — Claude Code")
        (js "100.1")] /\
   SessionApi.effectsSince m2
     (spawn prompt (js "session_2") (js "100.4") Started second m2)
   = [SpawnProcess (js "claude")
        [js "--print"; js "--resume"; id; js "-p";
         prompt ++ [LF; LF] ++ js "and then?"];
      RouterStart 2]).
Proof.
  split.
  - pose proof
      (proj1 (continuation_flags (js "Use envelopes.") (js "session_1")
                (js "100.2") (js "session_2") (js "100.4") (js "C1")
                (js "100.1") (js "hello") (js "and then?") [kimi; claude]
                kimi [ExitCallback 0 0; Resume 0; Resume 0] empty
                eq_refl eq_refl eq_refl) (js "-S") eq_refl) as H.
    vm_compute in H. vm_compute. exact H.
  - pose proof
      (proj2 (continuation_flags (js "Use envelopes.") (js "session_1")
                (js "100.2") (js "session_2") (js "100.4") (js "C1")
                (js "100.1") (js "hello") (js "and then?") [kimi; claude]
                claude [ExitCallback 0 0; Resume 0; Resume 0] empty
                eq_refl eq_refl eq_refl) (js "--session-id") (js "--resume")
         eq_refl eq_refl eq_refl) as H.
    vm_compute in H. vm_compute. exact H.
Defined.

(** *** Finalisation *)

Lemma listeners_finalise thread code m :
  listeners (finalise thread code m) = listeners m.
Proof.
  unfold finalise. destruct (sessions m !! thread); [|done].
  by destruct (objects m !! _).
Qed.

Lemma listeners_resume k m : listeners (resume k m) = listeners m.
Proof.
  unfold resume. destruct (finalising m !! k) as [f|]; [|done].
  destruct (objects m !! _) as [session|]; [|done].
  destruct (stage f); [|done]. by destruct (given (messageTs session)).
Qed.

Lemma exited_step e m proc l :
  listeners m !! proc = Some l -> exitedFlag l = true ->
  exists l', listeners (step e m) !! proc = Some l' /\ exitedFlag l' = true.
Proof.
  intros Hl He. destruct e as [proc' code|timer|k]; simpl.
  - unfold onExit. destruct (listeners m !! proc') as [l0|] eqn:Hl0;
      [|by exists l].
    destruct (exitedFlag l0) eqn:He0; [by exists l|].
    rewrite listeners_finalise. simpl.
    destruct (decide (proc' = proc)) as [->|Hne].
    + rewrite lookup_insert_eq. by eexists.
    + rewrite lookup_insert_ne by done. by exists l.
  - unfold onTimeout. destruct (timeouts m !! timer); [|by exists l].
    rewrite listeners_finalise. by exists l.
  - rewrite listeners_resume. by exists l.
Qed.

Lemma exited_run evs m proc l :
  listeners m !! proc = Some l -> exitedFlag l = true ->
  exists l', listeners (run evs m) !! proc = Some l' /\ exitedFlag l' = true.
Proof.
  revert m l. induction evs as [|e evs IH]; intros m l Hl He; [by exists l|].
  destruct (exited_step e m proc l Hl He) as (l' & Hl' & He').
  simpl. by apply (IH _ l').
Qed.

(** The exit callback of a process does its work once: whatever
    happens after its first firing, a later firing changes nothing. *)
Lemma exit_callback_once proc code code' evs m :
  let m' := run evs (onExit proc code m) in
  onExit proc code' m' = m'.
Proof.
  intros m'. unfold m'.
  destruct (listeners m !! proc) as [l|] eqn:Hl.
  - assert (exists l1, listeners (onExit proc code m) !! proc = Some l1 /\
                       exitedFlag l1 = true) as (l1 & Hl1 & He1).
    { unfold onExit. rewrite Hl. destruct (exitedFlag l) eqn:He.
      - by exists l.
      - rewrite listeners_finalise. simpl. rewrite lookup_insert_eq.
        by eexists. }
    destruct (exited_run evs _ proc l1 Hl1 He1) as (l2 & Hl2 & He2).
    unfold onExit at 1. by rewrite Hl2, He2.
  - assert (forall es m0, listeners m0 !! proc = None ->
                          listeners (run es m0) !! proc = None) as Hnone.
    { induction es as [|e es IH]; intros m0 H0; [done|]. simpl. apply IH.
      destruct e as [proc' c|timer|k]; simpl.
      - unfold onExit. destruct (listeners m0 !! proc') as [l0|] eqn:Hl0;
          [|done].
        destruct (exitedFlag l0); [done|]. rewrite listeners_finalise. simpl.
        rewrite lookup_insert_ne; [done|]. intros ->. congruence.
      - unfold onTimeout. destruct (timeouts m0 !! timer); [|done].
        by rewrite listeners_finalise.
      - by rewrite listeners_resume. }
    unfold onExit at 1. rewrite Hnone; [done|].
    unfold onExit. by rewrite Hl.
Qed.

(** A process that exits while its session is in the map clears the
    session timeout, which then cannot fire. *)
Lemma exit_clears_timeout proc code m l ref session timer :
  listeners m !! proc = Some l -> exitedFlag l = false ->
  sessions m !! listenerThreadTs l = Some ref ->
  objects m !! ref = Some session ->
  timeoutHandle session = Some timer ->
  let m' := onExit proc code m in
  timeouts m' !! timer = None /\ onTimeout timer m' = m' /\
  count isRouterFinish m' = S (count isRouterFinish m).
Proof.
  intros Hl He Hs Ho Ht m'.
  assert (timeouts m' !! timer = None) as Hnone.
  { unfold m', onExit. rewrite Hl, He. unfold finalise. simpl.
    rewrite Hs, Ho, Ht. simpl. apply lookup_delete_eq. }
  split; [done|]. split.
  - unfold onTimeout. by rewrite Hnone.
  - unfold m', onExit. rewrite Hl, He. unfold finalise. simpl.
    rewrite Hs, Ho. unfold count. simpl.
    rewrite filter_app, length_app. simpl. lia.
Qed.

(** C2: the code breaks the claim.  The timeout handler kills the
    process and calls [finalise] without looking at, or setting, the
    flag of the exit callback.  While that [finalise] waits for
    [router.finish] (in full-output mode an update of the outbound
    message) the killed process exits, its exit callback finds the flag
    unset and the session still in the map, and finalises again: two
    calls of [router.finish], two completion notices (the second one
    replaces "timed out" by the exit code of the killed process), two
    removals from the map, and the status [timed_out] overwritten. *)
Theorem timeout_then_exit_finalises_twice :
  let m := run [TimeoutFires 1; ExitCallback 0 1;
                Resume 0; Resume 0; Resume 0; Resume 0] runningShell in
  filter (fun e => isRouterFinish e = true) (effects m)
  = [RouterFinish 0 (-1); RouterFinish 0 1] /\
  filter (fun e => isCompletionNotice e = true) (effects m)
  = [UpdateMessage (js "C1") (js "100.2")
       (js "🚀 Session started — Shell" ++ LF :: js "⏱️ Session timed out");
     UpdateMessage (js "C1") (js "100.2")
       (js "🚀 Session started — Shell" ++ LF
          :: js "❌ Session ended (exit code 1)")] /\
  filter (fun e => isSessionsDelete e = true) (effects m)
  = [SessionsDelete (js "100.1") true; SessionsDelete (js "100.1") false] /\
  status <$> (objects m !! 0) = Some exited /\
  finalising m = [] /\ sessions m = ∅.
Proof. vm_compute. repeat split. Qed.

(** The two scenarios that the exit guard and the cleared timer do
    cover: the exit callback fired twice, and an exit just before the
    timeout. *)
Example exit_twice_finalises_once :
  let m := run [ExitCallback 0 0; ExitCallback 0 0; Resume 0;
                ExitCallback 0 0; Resume 0; TimeoutFires 1] runningShell in
  count isRouterFinish m = 1 /\ count isCompletionNotice m = 1 /\
  count isSessionsDelete m = 1 /\ sessions m = ∅.
Proof. vm_compute. repeat split. Qed.

End SessionProperties.

(** ** The parser and the stripper on sample output *)
Module ParserExamples.
Import EnvelopeParser.

Example stripAnsi_colours :
  stripAnsi (ESC :: js "[31mred" ++ ESC :: js "[0m" ++ [CR; ascii_of_nat 10])
  = js "red" ++ [ascii_of_nat 10].
Proof. vm_compute. reflexivity. Qed.

(** Two envelopes and the start of a third in one chunk; a type outside
    the closed set counts as no type. *)
Example two_envelopes_one_chunk :
  let r := push (js ("x<<<slack:DONE>>> a <<<End_Slack>>><<<SLACK:bogus>>>b"
                     ++ "<<<END_SLACK>>>tail<<<SLACK>>>c")) activatedNew in
  r.2 = [mkMessage (Some done) (js "a") None; mkMessage None (js "b") None] /\
  state r.1 = capturing /\ captureBuffer r.1 = js "c" /\
  (flush r.1).2 = [mkMessage None (js "c") (Some true)].
Proof. vm_compute. repeat split. Qed.

Example scenario :
  pushAll [js "hello <<<SLA"; js "CK:done>>>finished<<<END_SLA"; js "CK>>>world"]
    activatedNew
  = (mkParser scanning (js "world") [] (Some done) true 0 None [] 2,
     [mkMessage (Some done) (js "finished") None]).
Proof. vm_compute. reflexivity. Qed.

End ParserExamples.

(** ** The timers and buffers of the envelope parser *)
Module TimerFacts.
Import EnvelopeParser StringFacts ParserFacts ParserTimers.

Lemma filter_ne_swap (a b : Timer) (l : list Timer) :
  filter (fun t => t <> a) (filter (fun t => t <> b) l)
  = filter (fun t => t <> b) (filter (fun t => t <> a) l).
Proof.
  induction l as [|x l IH]; [done|].
  rewrite !filter_cons.
  destruct (decide (x <> b)), (decide (x <> a));
    rewrite ?filter_cons; repeat case_decide; try done; by rewrite IH.
Qed.

Lemma filter_ne_singleton (t : Timer) : filter (fun u => u <> t) [t] = [].
Proof. rewrite filter_cons. by case_decide. Qed.

Lemma pendingUnclosed_clear t p :
  pendingUnclosed (clearTimeout t p)
  = filter (fun u => u <> t) (pendingUnclosed p).
Proof. unfold pendingUnclosed. simpl. apply filter_ne_swap. Qed.

Lemma pendingUnclosed_disarm p :
  pendingUnclosed p = ownedUnclosed p ->
  pendingUnclosed (disarmUnclosed p) = [].
Proof.
  unfold disarmUnclosed, ownedUnclosed. intros H.
  destruct (unclosedTimer p) as [t|] eqn:Hu.
  - change (pendingUnclosed (clearTimeout t p) = []).
    rewrite pendingUnclosed_clear, H.
    destruct (state p); [done|apply filter_ne_singleton].
  - rewrite H. by destruct (state p).
Qed.

Lemma keepTail_length s : length (keepTail s) <= SCAN_TAIL.
Proof.
  unfold keepTail, sliceLast.
  destruct (SCAN_TAIL <? length s) eqn:E.
  - apply Nat.ltb_lt in E. rewrite length_drop. lia.
  - apply Nat.ltb_ge in E. done.
Qed.

Lemma trimScan_length p : length (scanBuffer (trimScan p)) <= SCAN_TAIL.
Proof. rewrite Chunking.trimScan_eq. apply keepTail_length. Qed.

Lemma timers_rules :
  (forall p r, ScanOpen p r ->
     activationTimer p = 0 -> 0 < nextTimer p -> state p = scanning ->
     pendingUnclosed p = [] ->
     pendingUnclosed r.1 = ownedUnclosed r.1 /\
     length (scanBuffer r.1) <= SCAN_TAIL) /\
  (forall p r, Close p r ->
     activationTimer p = 0 -> 0 < nextTimer p -> state p = capturing ->
     scanBuffer p = [] -> pendingUnclosed p = ownedUnclosed p ->
     pendingUnclosed r.1 = ownedUnclosed r.1 /\
     length (scanBuffer r.1) <= SCAN_TAIL).
Proof.
  apply ScanOpen_Close_ind.
  - intros p He Ha Hn Hst Hp. simpl. split; [|apply trimScan_length].
    unfold trimScan. destruct (_ <? _); unfold ownedUnclosed; simpl;
      by rewrite Hst.
  - intros p m r He _ IH Ha Hn Hst Hp. apply IH; simpl; try done; [lia|].
    unfold pendingUnclosed in *. simpl. rewrite filter_cons.
    rewrite decide_True by lia. by rewrite Hp.
  - intros p Hi Ha Hn Hst Hsb Hp. simpl. rewrite Hsb. split; [done|].
    simpl. lia.
  - intros p idx Hi Hsb Ha Hn Hst Hsb' Hp. cbn [fst]. rewrite Hsb.
    split; [|simpl; lia].
    transitivity (pendingUnclosed (disarmUnclosed p)); [done|].
    by rewrite pendingUnclosed_disarm.
  - intros p idx r Hi Hsb _ IH Ha Hn Hst Hsb' Hp.
    destruct (disarmUnclosed_fields p) as (E1 & E2 & E3 & _).
    apply IH; simpl; try congruence.
    transitivity (pendingUnclosed (disarmUnclosed p)); [done|].
    by rewrite pendingUnclosed_disarm.
Qed.

Lemma tidy_push data p : tidy p -> tidy (push data p).1.
Proof.
  intros (Hwf & Hp & Hl). split; [by apply wellFormed_push|].
  unfold push. destruct (activated p) eqn:Hact; [|done]. simpl.
  pose proof Hwf as (Ha & Hn & Hs).
  destruct (state p) eqn:Hst.
  - apply (proj1 timers_rules _ _ (tryScanOpen_rules
      (setScanBuffer (scanBuffer p ++ data) p))); try done.
    change (pendingUnclosed p = []). rewrite Hp. unfold ownedUnclosed.
    by rewrite Hst.
  - apply (proj2 timers_rules _ _ (tryClose_rules
      (setCaptureBuffer (captureBuffer p ++ data) p))); try done.
    simpl. by destruct Hs.
Qed.

Lemma tidy_fire t p : tidy p -> tidy (fire t p).1.
Proof.
  intros (Hwf & Hp & Hl). split; [by apply wellFormed_fire|].
  unfold fire. destruct (bool_decide (t ∈ pending p)) eqn:Hin; [|done].
  apply bool_decide_eq_true in Hin.
  pose proof Hwf as (Ha & Hn & Hs).
  destruct (bool_decide (t = activationTimer (clearTimeout t p))) eqn:Ht.
  - apply bool_decide_eq_true in Ht. simpl in Ht. cbn [fst].
    split; [|done].
    change (pendingUnclosed (clearTimeout t p) = ownedUnclosed p).
    rewrite pendingUnclosed_clear, <- Hp. unfold pendingUnclosed.
    rewrite <- Ht. rewrite list_filter_filter. apply list_filter_iff.
    tauto.
  - apply bool_decide_eq_false in Ht. simpl in Ht.
    unfold flushPartial. cbn [fst]. split; [|done].
    change (pendingUnclosed (clearTimeout t p) = []).
    rewrite pendingUnclosed_clear.
    assert (t ∈ pendingUnclosed p) as Hin'
      by (by apply list_elem_of_filter).
    rewrite Hp in Hin' |- *. unfold ownedUnclosed in *.
    destruct (state p); [by apply elem_of_nil in Hin'|].
    destruct (unclosedTimer p) as [u|]; [|by apply elem_of_nil in Hin'].
    apply list_elem_of_singleton in Hin' as ->. apply filter_ne_singleton.
Qed.

Lemma pending_flush p :
  tidy p -> pending (flush p).1 = [].
Proof.
  intros (Hwf & Hp & Hl). unfold flush. cbn [fst]. unfold reset.
  assert (forall q, pending (setCurrentType None
            (setCaptureBuffer [] (setScanBuffer [] (setState scanning q))))
          = pending q) as -> by done.
  assert (pendingUnclosed p = [] \/
          exists t, unclosedTimer p = Some t /\ pendingUnclosed p = [t])
    as Hcase.
  { rewrite Hp. unfold ownedUnclosed. destruct (state p); [by left|].
    destruct (unclosedTimer p) as [t|]; [right; by exists t|by left]. }
  change (unclosedTimer (clearTimeout (activationTimer p) p))
    with (unclosedTimer p).
  destruct Hcase as [Hnil|(t & Ht & Hone)].
  - assert (pending (clearTimeout (activationTimer p) p) = [])
      as Hclear by exact Hnil.
    destruct (unclosedTimer p) as [t|]; [|done].
    simpl in *. unfold pendingUnclosed in Hnil. by rewrite Hnil.
  - rewrite Ht. simpl. unfold pendingUnclosed in Hone. rewrite Hone.
    apply filter_ne_singleton.
Qed.

Lemma tidy_flush p : tidy p -> tidy (flush p).1.
Proof.
  intros Ht. pose proof (pending_flush p Ht) as Hpend.
  destruct Ht as (Hwf & Hp & Hl). split; [by apply wellFormed_flush|].
  split.
  - unfold pendingUnclosed. rewrite Hpend. unfold flush, ownedUnclosed.
    simpl. by destruct (unclosedTimer p).
  - unfold flush. simpl. destruct (unclosedTimer p); simpl; lia.
Qed.

Lemma tidy_new : tidy new.
Proof.
  split; [apply wellFormed_new|]. split; [done|]. simpl. lia.
Qed.

Lemma tidy_step e p : tidy p -> tidy (step e p).1.
Proof.
  destruct e; simpl; [apply tidy_push|apply tidy_fire|apply tidy_flush].
Qed.

Lemma tidy_run evs p : tidy p -> tidy (run evs p).1.
Proof.
  revert p. induction evs as [|e evs IH]; intros p Ht; [done|].
  simpl. apply IH. by apply tidy_step.
Qed.

Lemma tidy_reachable p : reachable p -> tidy p.
Proof. intros [evs <-]. apply tidy_run, tidy_new. Qed.

End TimerFacts.

(** ** [trim] *)
Module TrimFacts.

Lemma dropWhile_suffix f s : dropWhile f s `suffix_of` s.
Proof.
  induction s as [|c s IH]; simpl; [done|].
  destruct (f c); [by apply suffix_cons_r|done].
Qed.

Lemma dropWhile_head f s c r : dropWhile f s = c :: r -> f c = false.
Proof.
  induction s as [|d s IH]; simpl; [done|].
  destruct (f d) eqn:E; [done|]. by intros [= <- _].
Qed.

Lemma dropWhile_fixed f s :
  (forall c r, s = c :: r -> f c = false) -> dropWhile f s = s.
Proof.
  destruct s as [|c s]; [done|]. intros H. simpl.
  by rewrite (H c s).
Qed.

Lemma dropWhile_idem f s : dropWhile f (dropWhile f s) = dropWhile f s.
Proof.
  apply dropWhile_fixed. intros c r. apply dropWhile_head.
Qed.

Lemma trim_trim s : trim (trim s) = trim s.
Proof.
  unfold trim.
  set (a := dropWhile isSpace s).
  set (b := dropWhile isSpace (rev a)).
  assert (dropWhile isSpace (rev b) = rev b) as ->.
  { apply dropWhile_fixed. intros c r Hb.
    destruct (dropWhile_suffix isSpace (rev a)) as [k Hk].
    fold b in Hk. apply (f_equal (@rev ascii)) in Hk.
    rewrite rev_involutive, rev_app_distr, Hb in Hk.
    apply (dropWhile_head isSpace s c (r ++ rev k)). exact Hk. }
  rewrite rev_involutive. unfold b. by rewrite dropWhile_idem.
Qed.

Lemma elem_of_dropWhile f s c : c ∈ dropWhile f s -> c ∈ s.
Proof.
  destruct (dropWhile_suffix f s) as [k Hk]. intros H.
  rewrite Hk. apply elem_of_app. by right.
Qed.

Lemma elem_of_trim s c : c ∈ trim s -> c ∈ s.
Proof.
  unfold trim. rewrite !list_elem_of_In, <- in_rev, <- !list_elem_of_In.
  intros H%elem_of_dropWhile.
  rewrite list_elem_of_In, <- in_rev, <- list_elem_of_In in H.
  by apply elem_of_dropWhile in H.
Qed.

Lemma trim_nil : trim [] = [].
Proof. done. Qed.

Lemma stripAnsi_no_CR s : CR ∉ stripAnsi s.
Proof.
  unfold stripAnsi. intros [H _]%list_elem_of_filter. done.
Qed.

End TrimFacts.

(** ** The life of an envelope parser *)
Module ParserLifecycle.
Import EnvelopeParser StringFacts ParserFacts ParserTimers TimerFacts
  TrimFacts.

(** An envelope as [tryClose] emits it. *)
Lemma closeMessage_clean idx p :
  incomplete (closeMessage idx p) = None /\
  trim (text (closeMessage idx p)) = text (closeMessage idx p) /\
  CR ∉ text (closeMessage idx p).
Proof.
  simpl. split; [done|]. split; [apply trim_trim|].
  intros H%elem_of_trim. by apply stripAnsi_no_CR in H.
Qed.

Lemma rules_clean :
  (forall p r, ScanOpen p r ->
     Forall (fun m => incomplete m = None /\ trim (text m) = text m /\
                      CR ∉ text m) r.2) /\
  (forall p r, Close p r ->
     Forall (fun m => incomplete m = None /\ trim (text m) = text m /\
                      CR ∉ text m) r.2).
Proof.
  apply ScanOpen_Close_ind; simpl; intros; try done.
  - constructor; [apply closeMessage_clean|done].
  - constructor; [apply closeMessage_clean|done].
Qed.

(** X1: whatever the state of the parser and whatever the chunk,
    [push] emits only envelopes that are not marked incomplete, and
    their text is trimmed (trimming it again changes nothing) and holds
    no carriage return. *)
Theorem push_emits_complete (data : str) (p : Parser) :
  Forall (fun m => incomplete m = None /\ trim (text m) = text m /\
                   CR ∉ text m) (push data p).2.
Proof.
  unfold push. destruct (activated p); [|done]. simpl.
  destruct (state p).
  - apply (proj1 rules_clean _ _ (tryScanOpen_rules _)).
  - apply (proj2 rules_clean _ _ (tryClose_rules _)).
Qed.

(** X2: in every parser state that the events of a parser's life lead
    to, the unclosed-envelope timeouts scheduled on the host are: none
    while the parser scans, and exactly the one held in its field while
    it captures.  No timeout outlives the capture it was armed for. *)
Theorem timer_discipline (p : Parser) :
  reachable p ->
  match state p with
  | scanning => pendingUnclosed p = []
  | capturing => exists t, unclosedTimer p = Some t /\
                           pendingUnclosed p = [t]
  end.
Proof.
  intros Hr. destruct (tidy_reachable p Hr) as ((_ & _ & Hs) & Hp & _).
  unfold ownedUnclosed in Hp. destruct (state p); [done|].
  destruct Hs as (_ & _ & t & Ht & _). exists t. by rewrite Ht in Hp.
Qed.

Lemma timer_discipline_witness :
  exists t, unclosedTimer capturingExample = Some t /\
            pendingUnclosed capturingExample = [t].
Proof.
  apply (timer_discipline capturingExample).
  exists [Fire 0; Push (js "noise <<<SLACK:warning>>> disk ");
          Push (js "almost full")]. vm_compute. reflexivity.
Defined.

(** X3: in every parser state that the events of a parser's life lead
    to, the scan buffer holds at most [SCAN_TAIL] = 40 code units, however
    much output without an open tag was pushed. *)
Theorem scan_buffer_bounded (p : Parser) :
  reachable p -> length (scanBuffer p) <= SCAN_TAIL.
Proof. intros Hr. by destruct (tidy_reachable p Hr) as (_ & _ & Hl). Qed.

Lemma scan_buffer_bounded_witness :
  length (scanBuffer (run [Fire 0; Push (repeat "x"%char 100)] new).1)
  <= SCAN_TAIL.
Proof.
  apply (scan_buffer_bounded
           (run [Fire 0; Push (repeat "x"%char 100)] new).1).
  by exists [Fire 0; Push (repeat "x"%char 100)].
Defined.

Lemma reset_scanning p :
  state p = scanning -> scanBuffer p = [] -> captureBuffer p = [] ->
  currentType p = None -> reset p = p.
Proof. destruct p. simpl. by intros -> -> -> ->. Qed.

(** X4: [flush] on a parser that the events of a parser's life lead to
    leaves no timeout scheduled, emits at most one envelope, which is
    marked incomplete, and leaves the parser scanning with empty buffers
    and no current type; a second [flush] emits nothing and changes
    nothing. *)
Theorem flush_stops_parser (p : Parser) :
  reachable p ->
  let q := (flush p).1 in
  pending q = [] /\ length (flush p).2 <= 1 /\
  Forall (fun m => incomplete m = Some true) (flush p).2 /\
  state q = scanning /\ scanBuffer q = [] /\ captureBuffer q = [] /\
  currentType q = None /\ flush q = (q, []).
Proof.
  intros Hr q. pose proof (pending_flush p (tidy_reachable p Hr)) as Hpend.
  fold q in Hpend. split; [done|].
  assert (state q = scanning /\ scanBuffer q = [] /\
          captureBuffer q = [] /\ currentType q = None) as (H1 & H2 & H3 & H4).
  { unfold q, flush. simpl. done. }
  split; [|split; [|repeat split; try done]].
  - unfold flush. cbn [snd]. destruct (_ && _); simpl; lia.
  - unfold flush. cbn [snd]. destruct (_ && _); repeat constructor.
  - unfold flush at 1. cbn zeta.
    assert (clearTimeout (activationTimer q) q = q) as ->.
    { unfold clearTimeout. rewrite Hpend. destruct q; simpl in *.
      by subst. }
    assert (match unclosedTimer q with
            | Some t => clearTimeout t q
            | None => q
            end = q) as ->.
    { destruct (unclosedTimer q) eqn:E; [|done].
      unfold clearTimeout. rewrite Hpend. destruct q; simpl in *.
      by subst. }
    rewrite H1. simpl. by rewrite reset_scanning.
Qed.

Lemma flush_stops_parser_witness :
  let q := (flush capturingExample).1 in
  pending q = [] /\ length (flush capturingExample).2 <= 1 /\
  Forall (fun m => incomplete m = Some true) (flush capturingExample).2 /\
  state q = scanning /\ scanBuffer q = [] /\ captureBuffer q = [] /\
  currentType q = None /\ flush q = (q, []).
Proof.
  apply (flush_stops_parser capturingExample).
  exists [Fire 0; Push (js "noise <<<SLACK:warning>>> disk ");
          Push (js "almost full")]. vm_compute. reflexivity.
Defined.

Lemma deaf_step e p : deaf p -> deaf (step e p).1 /\ (step e p).2 = [].
Proof.
  intros (Hact & Hpend & Hst). destruct e as [data|t|]; simpl.
  - unfold push. rewrite Hact. done.
  - unfold fire. rewrite Hpend.
    rewrite bool_decide_eq_false_2 by apply not_elem_of_nil. done.
  - unfold flush, deaf. simpl.
    destruct (unclosedTimer p); simpl; rewrite Hst, Hpend; done.
Qed.

Lemma deaf_run evs p :
  deaf p -> (run evs p).2 = [] /\ activated (run evs p).1 = false.
Proof.
  revert p. induction evs as [|e evs IH]; intros p Hd.
  - split; [done|]. by destruct Hd.
  - destruct (deaf_step e p Hd) as [Hd' Hout].
    destruct (IH _ Hd') as [Hm Ha]. simpl. by rewrite Hout, Hm.
Qed.

(** X5: a parser flushed before its activation timer fired stays deaf:
    the flush cancelled the timer, so whatever happens afterwards
    (chunks with well-formed envelopes, any timer, further flushes),
    the parser is never activated and never emits an envelope. *)
Theorem deaf_after_early_flush (p : Parser) (evs : list Event) :
  reachable p -> activated p = false ->
  (run evs (flush p).1).2 = [] /\
  activated (run evs (flush p).1).1 = false.
Proof.
  intros Hr Hact. apply deaf_run.
  pose proof (pending_flush p (tidy_reachable p Hr)) as Hpend.
  split; [|split; [done|]].
  - unfold flush. simpl. by destruct (unclosedTimer p).
  - unfold flush. simpl. done.
Qed.

Lemma deaf_after_early_flush_witness :
  (run [Fire 0; Push (js "<<<SLACK:done>>>late<<<END_SLACK>>>"); Flush]
     (flush new).1).2 = [] /\
  activated
    (run [Fire 0; Push (js "<<<SLACK:done>>>late<<<END_SLACK>>>"); Flush]
       (flush new).1).1 = false.
Proof.
  apply (deaf_after_early_flush new
           [Fire 0; Push (js "<<<SLACK:done>>>late<<<END_SLACK>>>"); Flush]).
  - by exists [].
  - reflexivity.
Defined.

End ParserLifecycle.

(** ** ansiStrip.ts *)
Module AnsiProperties.
Import StringFacts.

Lemma ansiMatchAt_not_ESC c s : c <> ESC -> ansiMatchAt (c :: s) = None.
Proof.
  intros Hc. unfold ansiMatchAt. destruct s as [|d s]; [done|].
  destruct (Ascii.eqb c ESC) eqn:E; [|done].
  by apply eqb_true_iff in E.
Qed.

Lemma removeAnsi_clean_app pre s :
  ESC ∉ pre -> removeAnsi 0 (pre ++ s) = pre ++ removeAnsi 0 s.
Proof.
  induction pre as [|c pre IH]; intros Hpre; [done|].
  apply not_elem_of_cons in Hpre as [Hc Hpre].
  change (removeAnsi 0 (c :: (pre ++ s)) = c :: (pre ++ removeAnsi 0 s)).
  cbn [removeAnsi]. rewrite ansiMatchAt_not_ESC by done.
  by rewrite IH.
Qed.

Lemma removeAnsi_skip a r : removeAnsi (length a) (a ++ r) = removeAnsi 0 r.
Proof. induction a as [|c a IH]; [done|]. simpl. exact IH. Qed.

Lemma filter_CR_clean (s : str) : CR ∉ s -> filter (fun c => c <> CR) s = s.
Proof.
  induction s as [|c s IH]; [done|]. intros [Hc Hs]%not_elem_of_cons.
  rewrite filter_cons, decide_True by done. by rewrite IH.
Qed.

Lemma stripAnsi_clean_app pre s :
  ESC ∉ pre -> CR ∉ pre -> stripAnsi (pre ++ s) = pre ++ stripAnsi s.
Proof.
  intros He Hc. unfold stripAnsi. rewrite removeAnsi_clean_app by done.
  by rewrite filter_app, filter_CR_clean.
Qed.

(** X6: a text without an escape character and without a carriage
    return comes back unchanged. *)
Theorem stripAnsi_clean_unchanged (s : str) :
  ESC ∉ s -> CR ∉ s -> stripAnsi s = s.
Proof.
  intros He Hc. rewrite <- (app_nil_r s) at 1.
  rewrite stripAnsi_clean_app by done. by rewrite app_nil_r.
Qed.

Lemma stripAnsi_clean_unchanged_witness :
  stripAnsi (js "plain text, two lines") = js "plain text, two lines".
Proof.
  apply (stripAnsi_clean_unchanged (js "plain text, two lines"));
    vm_compute; intros H; repeat (apply elem_of_cons in H as [H|H];
      [discriminate|]); by apply elem_of_nil in H.
Defined.

Lemma removeAnsi_sublist k s : removeAnsi k s `sublist_of` s.
Proof.
  revert k. induction s as [|c s IH]; intros k; [done|].
  cbn [removeAnsi]. destruct k as [|k].
  - destruct (ansiMatchAt (c :: s)) as [[|j]|].
    + by apply sublist_skip.
    + by apply sublist_cons.
    + by apply sublist_skip.
  - by apply sublist_cons.
Qed.

(** X7: [stripAnsi] only removes code units: its result is a
    subsequence of its argument (nothing is added, replaced or
    reordered), and no carriage return is left in it. *)
Theorem stripAnsi_sublist (s : str) :
  stripAnsi s `sublist_of` s /\ CR ∉ stripAnsi s.
Proof.
  split.
  - unfold stripAnsi. etransitivity; [apply sublist_filter|].
    apply removeAnsi_sublist.
  - unfold stripAnsi. intros [H _]%list_elem_of_filter. done.
Qed.

Lemma takeWhile_app_all f w t :
  forallb f w = true -> (forall c r, t = c :: r -> f c = false) ->
  takeWhile f (w ++ t) = w.
Proof.
  intros Hw Ht. induction w as [|c w IH]; simpl in *.
  - destruct t as [|c r]; [done|]. simpl. by rewrite (Ht c r).
  - apply andb_true_iff in Hw as [-> Hw]. by rewrite IH.
Qed.

Lemma ansiMatchAt_csi params inter final rest :
  forallb (inRange 48 63) params = true ->
  forallb (inRange 32 47) inter = true ->
  inRange 64 126 final = true ->
  ansiMatchAt (ESC :: "["%char :: params ++ inter ++ final :: rest)
  = Some (2 + length params + length inter + 1).
Proof.
  intros Hp Hi Hf. unfold ansiMatchAt.
  change (Ascii.eqb ESC ESC) with true.
  change (inRange 64 90 "[" || inRange 92 95 "[") with false.
  change (Ascii.eqb "[" "[") with true. cbn [negb].
  assert (forall c, inRange 64 126 c = true -> inRange 48 63 c = false)
    as H1 by (intros c; all_chars c).
  assert (forall c, inRange 64 126 c = true -> inRange 32 47 c = false)
    as H2 by (intros c; all_chars c).
  assert (forall c, inRange 32 47 c = true -> inRange 48 63 c = false)
    as H3 by (intros c; all_chars c).
  rewrite (takeWhile_app_all _ params).
  - rewrite drop_app_length. rewrite (takeWhile_app_all _ inter).
    + rewrite drop_app_length. by rewrite Hf.
    + done.
    + intros c r [= <- _]. by apply H2.
  - done.
  - intros c r. destruct inter as [|i inter]; simpl.
    + intros [= <- _]. by apply H1.
    + intros [= <- _]. simpl in Hi. apply andb_true_iff in Hi as [Hi _].
      by apply H3.
Qed.

(** X8: a CSI sequence (the escape character, an open bracket,
    parameter bytes 0x30-0x3F, intermediate bytes 0x20-0x2F and a final
    byte 0x40-0x7E) and a two-character escape (the escape character and
    a byte of [@-Z] or of [\-_]) are removed whole; the text before
    them, when it holds no escape character and no carriage return, is
    kept, and what follows is stripped in turn. *)
Theorem stripAnsi_removes_sequences (pre rest : str) :
  ESC ∉ pre -> CR ∉ pre ->
  (forall params inter final,
     forallb (inRange 48 63) params = true ->
     forallb (inRange 32 47) inter = true ->
     inRange 64 126 final = true ->
     stripAnsi (pre ++ ESC :: "["%char :: params ++ inter ++ final :: rest)
     = pre ++ stripAnsi rest) /\
  (forall c,
     inRange 64 90 c || inRange 92 95 c = true ->
     stripAnsi (pre ++ ESC :: c :: rest) = pre ++ stripAnsi rest).
Proof.
  intros He Hc. split.
  - intros params inter final Hp Hi Hf.
    rewrite stripAnsi_clean_app by done. f_equal. unfold stripAnsi.
    f_equal. cbn [removeAnsi]. rewrite ansiMatchAt_csi by done.
    change (2 + length params + length inter + 1)
      with (S (S (length params + length inter + 1))).
    cbn [removeAnsi].
    replace (params ++ inter ++ final :: rest)
      with ((params ++ inter ++ [final]) ++ rest)
      by (by rewrite <- !app_assoc).
    replace (length params + length inter + 1)
      with (length (params ++ inter ++ [final]))
      by (rewrite !length_app; simpl; lia).
    apply removeAnsi_skip.
  - intros c Hcr. rewrite stripAnsi_clean_app by done. f_equal.
    unfold stripAnsi. f_equal. cbn [removeAnsi]. unfold ansiMatchAt.
    change (Ascii.eqb ESC ESC) with true. cbn [negb]. rewrite Hcr.
    done.
Qed.

Lemma stripAnsi_removes_sequences_witness :
  (forall params inter final,
     forallb (inRange 48 63) params = true ->
     forallb (inRange 32 47) inter = true ->
     inRange 64 126 final = true ->
     stripAnsi (js "ok " ++ ESC :: "["%char :: params ++ inter ++
                final :: js " done")
     = js "ok " ++ stripAnsi (js " done")) /\
  (forall c,
     inRange 64 90 c || inRange 92 95 c = true ->
     stripAnsi (js "ok " ++ ESC :: c :: js " done")
     = js "ok " ++ stripAnsi (js " done")).
Proof.
  apply (stripAnsi_removes_sequences (js "ok ") (js " done"));
    vm_compute; intros H; repeat (apply elem_of_cons in H as [H|H];
      [discriminate|]); by apply elem_of_nil in H.
Defined.

End AnsiProperties.

(** ** The full-output streamer over its life *)
Module StreamerRunProperties.
Import Reporter FullStreamer StreamerRun.

(** X9: every call that a tick of the interval makes stays within the
    ceiling: it is an update of the current message with a fenced block
    of at most [maxCharsPerMessage] code units of the buffer, or the
    post of the continuation placeholder in the thread; and a tick
    makes at most two calls. *)
Theorem tick_within_ceiling (o : Options) (r : Reporter) (s : Streamer) :
  length (calls (tick o r s)) <= 2 /\
  Forall (fun c =>
            match c with
            | UpdateMessage ch ts text =>
                ch = channelId o /\ currentTs s = Some ts /\
                exists chunk, text = block chunk /\
                              chunk `prefix_of` buffer s /\
                              length chunk <= maxCharsPerMessage o
            | PostMessage ch text th =>
                ch = channelId o /\ text = CONTINUED /\
                th = Some (threadTs o)
            end) (calls (tick o r s)).
Proof.
  unfold tick. destruct (ticking s); [|simpl; split; [lia|done]].
  unfold flush, tsOf. destruct (currentTs s) as [ts|] eqn:Hts;
    [|simpl; split; [lia|done]].
  destruct (truthy ts); [|simpl; split; [lia|done]].
  destruct (negb (truthy (buffer s)) || stopped s);
    [simpl; split; [lia|done]|].
  destruct (maxCharsPerMessage o <? length (buffer s)) eqn:Hlen.
  - assert (exists chunk,
              block (take (maxCharsPerMessage o) (buffer s)) = block chunk /\
              chunk `prefix_of` buffer s /\
              length chunk <= maxCharsPerMessage o) as Hc.
    { eexists. split; [done|]. split; [apply prefix_take|].
      rewrite length_take. lia. }
    destruct (updateMessage r _ _ _); [destruct (postMessage r _ _ _)|];
      simpl; (split; [lia|]); repeat constructor; done.
  - apply Nat.ltb_ge in Hlen.
    assert (exists chunk,
              block (buffer s) = block chunk /\
              chunk `prefix_of` buffer s /\
              length chunk <= maxCharsPerMessage o) as Hc
      by (by eexists).
    destruct (updateMessage r _ _ _); simpl; (split; [lia|]);
      repeat constructor; done.
Qed.

Lemma mute_act o r a s :
  currentTs s = None ->
  currentTs (after (act o r a s)) = None /\ calls (act o r a s) = [].
Proof.
  intros Hts. destruct a as [data|]; simpl.
  - unfold push. by destruct (stopped s).
  - unfold tick, flush, tsOf. rewrite Hts. by destruct (ticking s).
Qed.

Lemma mute_run o r acts s :
  currentTs s = None ->
  currentTs (runActions o r acts s).2 = None /\
  Forall (fun out => calls out = []) (runActions o r acts s).1.
Proof.
  revert s. induction acts as [|a acts IH]; intros s Hts; [done|].
  destruct (mute_act o r a s Hts) as [Hts' Hc].
  destruct (IH _ Hts') as [H1 H2]. simpl. split; [done|].
  by constructor.
Qed.

(** X11: when the post of the placeholder fails, [start] rejects and
    the streamer is mute from then on: no interval runs, whatever is
    pushed no tick calls the reporter, and [finish] resolves without a
    call and drops the buffer. *)
Theorem mute_after_failed_start (o : Options) (r r' : Reporter)
    (acts : list Action) (exitCode : Z) :
  postMessage r (channelId o) RUNNING (Some (threadTs o)) = None ->
  let s := after (start o r new) in
  rejected (start o r new) = true /\ ticking s = false /\
  Forall (fun out => calls out = []) (runActions o r' acts s).1 /\
  let fin := finish o r' exitCode (runActions o r' acts s).2 in
  calls fin = [] /\ rejected fin = false /\ buffer (after fin) = [].
Proof.
  intros Hpost s. unfold s, start. rewrite Hpost. simpl.
  split; [done|]. split; [done|].
  destruct (mute_run o r' acts new eq_refl) as [Hts Hcalls].
  split; [done|]. unfold finish, tsOf. simpl. rewrite Hts. done.
Qed.

Lemma mute_after_failed_start_witness :
  let s := after (start sampleOptions failing new) in
  rejected (start sampleOptions failing new) = true /\ ticking s = false /\
  Forall (fun out => calls out = [])
    (runActions sampleOptions (reliable (js "100.3"))
       [Push (js "lost"); Tick] s).1 /\
  let fin := finish sampleOptions (reliable (js "100.3")) 0
               (runActions sampleOptions (reliable (js "100.3"))
                  [Push (js "lost"); Tick] s).2 in
  calls fin = [] /\ rejected fin = false /\ buffer (after fin) = [].
Proof.
  apply (mute_after_failed_start sampleOptions failing
           (reliable (js "100.3")) [Push (js "lost"); Tick] 0).
  reflexivity.
Defined.

End StreamerRunProperties.

(** ** The flush loop on the event loop *)
Module FlushLoopProperties.
Import Reporter FullStreamer FlushLoop.

Lemma thread_snoc log ca chat :
  thread (log ++ [ca]) chat = show (thread log chat) ca.
Proof. unfold thread. by rewrite fold_left_app. Qed.

(** An accepted update of the last message of a thread whose
    timestamps differ changes the text of that message only. *)
Lemma show_update_last (closed : Chat) ch ts cur text v :
  NoDup ((closed ++ [(ts, cur)]).*1) ->
  show (closed ++ [(ts, cur)]) (UpdateMessage ch ts text, Resolves v)
  = closed ++ [(ts, text)].
Proof.
  intros Hnd. simpl. rewrite fmap_app. simpl.
  rewrite bool_decide_eq_true_2 by done. f_equal.
  rewrite fmap_app in Hnd. apply NoDup_app in Hnd as (_ & Hnot & _).
  induction closed as [|[ts' x] closed IH]; [done|].
  simpl. rewrite bool_decide_eq_false_2.
  - f_equal. apply IH. intros y Hy. apply Hnot. by right.
  - simpl. intros ->. apply (Hnot ts); [by left|]. simpl. by left.
Qed.

Lemma upToDate_grows text0 buf more cur :
  upToDate text0 buf cur -> upToDate text0 (buf ++ more) cur.
Proof.
  intros [H|[H|(p & Hp & H)]]; [by left|by right; left|].
  right; right. exists p. split; [|done]. by apply prefix_app_r.
Qed.

(** One event of an orderly schedule keeps the account. *)
Lemma step_accountsFor o text0 total chat0 e l :
  accountsFor o text0 total (thread (settled l) chat0) l ->
  admissible chat0 e l = true ->
  accountsFor o text0 (total ++ concat (stripAnsi <$> pushed [e]))
    (thread (settled (step o e l)) chat0) (step o e l).
Proof.
  destruct l as [s sus log errs].
  intros (Hst & closed & slices & ts & cur & Hchat & Hclosed & Hlen & Hnd
          & Hts & Htruthy & Hphase) Hadm.
  cbn [streamer suspended settled] in *.
  destruct e as [data| |k a].
  - (* a chunk is pushed *)
    cbn [step pushed omap list_omap fmap list_fmap concat app streamer
         suspended settled].
    rewrite app_nil_r. unfold push. rewrite Hst.
    split; [done|]. exists closed, slices, ts, cur.
    cbn [streamer suspended settled setBuffer buffer currentTs stopped].
    repeat (split; [done|]).
    destruct sus as [|f [|]]; [| |done].
    + destruct Hphase as [Htot Hup]. split.
      * by rewrite app_assoc, Htot.
      * by apply upToDate_grows.
    + destruct (stage f).
      * destruct Hphase as (c & Hc & Hl & Htot). exists c.
        repeat (split; [done|]).
        by rewrite !app_assoc, <- (app_assoc _ c), Htot.
      * destruct Hphase as (c & Hc & Hcur & Hl & Htot). exists c.
        repeat (split; [done|]).
        by rewrite !app_assoc, <- (app_assoc _ c), Htot.
      * destruct Hphase as ((p & Hp & Hpre) & Htot & Hup).
        split; [exists p; split; [done|by apply prefix_app_r]|].
        split; [by rewrite app_assoc, Htot|by apply upToDate_grows].
  - (* the interval fires *)
    cbn [step pushed omap list_omap fmap list_fmap concat]. rewrite app_nil_r.
    simpl in Hadm. apply bool_decide_eq_true in Hadm. subst sus.
    destruct Hphase as [Htot Hup].
    unfold fire. cbn [streamer suspended settled errors].
    destruct (ticking s);
      [|split; [done|]; exists closed, slices, ts, cur; by repeat split].
    cbn [negb]. unfold tsOf. rewrite Hts, Htruthy, Hst, orb_false_r.
    destruct (truthy (buffer s)) eqn:Hbuf;
      [|split; [done|]; exists closed, slices, ts, cur; by repeat split].
    cbn [negb].
    destruct (maxCharsPerMessage o <? length (buffer s)) eqn:Hover.
    + apply Nat.ltb_lt in Hover. split; [done|].
      exists closed, slices, ts, cur.
      cbn [streamer suspended settled setBuffer buffer currentTs app stage
           awaited].
      repeat (split; [done|]).
      exists (take (maxCharsPerMessage o) (buffer s)).
      split; [done|]. split; [rewrite length_take; lia|].
      by rewrite take_drop.
    + split; [done|]. exists closed, slices, ts, cur.
      cbn [streamer suspended settled app stage awaited].
      repeat (split; [done|]).
      split; [by exists (buffer s)|done].
  - (* an answer arrives *)
    cbn [step pushed omap list_omap fmap list_fmap concat]. rewrite app_nil_r.
    unfold settle. cbn [suspended settled streamer errors].
    cbn [admissible suspended settled] in Hadm.
    destruct (sus !! k) as [f|] eqn:Hk;
      [|split; [done|]; exists closed, slices, ts, cur; by repeat split].
    destruct sus as [|f' [|]]; [done| |done].
    destruct k as [|k]; [|done]. injection Hk as ->.
    cbn [delete list_delete insert list_insert].
    destruct f as [stg call]. cbn [stage awaited] in *.
    destruct stg.
    + (* the update of a split *)
      destruct a as [v|]; [|done].
      destruct Hphase as (c & -> & Hl & Htot).
      cbn [settled streamer suspended]. rewrite thread_snoc, Hchat.
      rewrite show_update_last by by rewrite <- Hchat.
      split; [done|]. exists closed, slices, ts, (block c).
      split; [done|]. split; [done|]. split; [done|].
      split; [by rewrite Hchat in Hnd; rewrite fmap_app in *|].
      split; [done|]. split; [done|].
      cbn [stage awaited]. by exists c.
    + (* the post of the next message *)
      destruct a as [[ts'|]|]; [|done|done].
      apply andb_true_iff in Hadm as [Htruthy' Hnew].
      apply bool_decide_eq_true in Hnew.
      destruct Hphase as (c & -> & -> & Hl & Htot).
      cbn [settled streamer suspended]. rewrite thread_snoc.
      cbn [show]. split; [done|].
      exists (closed ++ [(ts, block c)]), (slices ++ [c]), ts', CONTINUED.
      split; [by rewrite Hchat|].
      split; [by rewrite !fmap_app, Hclosed|].
      split; [apply Forall_app; split; [done|by constructor]|].
      split.
      { rewrite fmap_app. apply NoDup_app. split; [done|].
        split; [|apply NoDup_singleton].
        intros x Hx Hx'. simpl in Hx'.
        apply list_elem_of_singleton in Hx'. by subst. }
      split; [done|]. split; [done|].
      split; [|by right; left].
      by rewrite concat_app, <- app_assoc; simpl; rewrite app_nil_r.
    + (* the update in place *)
      destruct Hphase as ((p & -> & Hpre) & Htot & Hup).
      destruct a as [v|].
      * cbn [settled streamer suspended]. rewrite thread_snoc, Hchat.
        rewrite show_update_last by by rewrite <- Hchat.
        split; [done|]. exists closed, slices, ts, (block p).
        split; [done|]. split; [done|]. split; [done|].
        split; [by rewrite Hchat in Hnd; rewrite fmap_app in *|].
        split; [done|]. split; [done|].
        split; [done|]. right; right. by exists p.
      * cbn [settled streamer suspended]. rewrite thread_snoc. cbn [show].
        split; [done|]. exists closed, slices, ts, cur. by repeat split.
Qed.

Lemma pushed_chunks_cons e evs : pushed (e :: evs) = pushed [e] ++ pushed evs.
Proof. unfold pushed. simpl. by destruct e. Qed.

(** An orderly schedule keeps the account. *)
Lemma run_accountsFor o text0 chat0 evs l total :
  accountsFor o text0 total (thread (settled l) chat0) l ->
  orderly o chat0 evs l = true ->
  accountsFor o text0 (total ++ concat (stripAnsi <$> pushed evs))
    (thread (settled (run o evs l)) chat0) (run o evs l).
Proof.
  revert l total. induction evs as [|e evs IH]; intros l total Hacc Hord.
  - simpl. by rewrite app_nil_r.
  - cbn [orderly] in Hord. apply andb_true_iff in Hord as [Hadm Hord].
    pose proof (step_accountsFor o text0 total chat0 e l Hacc Hadm) as Hstep.
    specialize (IH _ _ Hstep Hord).
    rewrite (pushed_chunks_cons e evs), fmap_app, concat_app, app_assoc.
    exact IH.
Qed.

(** The atomic tick of [FullStreamer] is the interval firing with a
    reporter that answers at once: the same streamer, the same calls in
    the same order, the same number of errors, and nothing left
    suspended. *)
Lemma tick_is_fire_and_answers o r s :
  let l := answered o r (answered o r (fire o (idle s))) in
  streamer l = after (tick o r s) /\
  (settled l).*1 = calls (tick o r s) /\
  errors l = logged (tick o r s) /\
  suspended l = [].
Proof.
  unfold tick, fire, flush, idle. cbn [streamer suspended settled errors].
  destruct (ticking s); [|done]. cbn [negb].
  destruct (tsOf s) as [ts|]; [|done].
  destruct (negb (truthy (buffer s)) || stopped s); [done|].
  destruct (maxCharsPerMessage o <? length (buffer s)).
  - unfold answered at 2, settle. cbn.
    destruct (updateMessage r _ _ _); [|done].
    unfold answered, settle. cbn.
    by destruct (postMessage r _ _ _).
  - unfold answered at 2, settle. cbn.
    by destruct (updateMessage r _ _ _).
Qed.

(** Why the schedule has to be orderly: when the interval fires while
    the update of a split is still awaited, the second tick cuts the
    next slice and sends it to the same message, and the first slice
    is in no message of the thread. *)
Lemma overlapping_ticks_overwrite :
  let evs := [Fire; Fire; Settle 0 (Resolves None); Settle 1 (Resolves None);
              Settle 0 (Resolves (Some (js "100.3")));
              Settle 0 (Resolves (Some (js "100.4")))] in
  let l := run sampleOptions evs (idle (sampleStreamer (js "abcdefghij"))) in
  orderly sampleOptions [(js "100.2", RUNNING)] evs
    (idle (sampleStreamer (js "abcdefghij"))) = false /\
  thread (settled l) [(js "100.2", RUNNING)]
  = [(js "100.2", js "```" ++ [LF] ++ js "efgh" ++ [LF] ++ js "```");
     (js "100.3", js "⏳ …"); (js "100.4", js "⏳ …")] /\
  buffer (streamer l) = js "ij" /\ suspended l = [] /\ errors l = 0.
Proof. vm_compute. repeat split. Qed.

(** X10: a streamer that is started and not finished loses and repeats
    nothing in the thread on an orderly schedule, one on which the
    interval never fires while a call of [flush] awaits the reporter,
    the two calls of every split are accepted, and every post resolves
    with a timestamp that is not empty and that no message of the
    thread has yet.  Once no call is pending, the thread shows one
    fenced block for each split, holding one ceiling-sized slice, in
    messages with timestamps of their own, and then the current
    message; the slices in order followed by the buffer are the buffer
    at the beginning followed by the ANSI-stripped chunks pushed; and
    the current message has the text it had at the beginning, the
    placeholder, or the fenced beginning of the buffer. *)
Theorem orderly_run_keeps_output (o : Options) (s : Streamer)
    (ts0 text0 : str) (evs : list Event) :
  stopped s = false -> currentTs s = Some ts0 -> truthy ts0 = true ->
  orderly o [(ts0, text0)] evs (idle s) = true ->
  suspended (run o evs (idle s)) = [] ->
  let l := run o evs (idle s) in
  let chat := thread (settled l) [(ts0, text0)] in
  let fenced c := js "```" ++ [LF] ++ c ++ [LF] ++ js "```" in
  exists (slices : list str) (current : str),
    chat.*2 = (fenced <$> slices) ++ [current] /\
    NoDup (chat.*1) /\
    last (chat.*1) = currentTs (streamer l) /\
    Forall (fun c => length c = maxCharsPerMessage o) slices /\
    concat slices ++ buffer (streamer l)
    = buffer s ++ concat (stripAnsi <$> pushed evs) /\
    (current = text0 \/ current = js "⏳ …" \/
     exists p, p `prefix_of` buffer (streamer l) /\ current = fenced p).
Proof.
  intros Hst Hts Htruthy Hord Hquiet l chat fenced.
  assert (accountsFor o text0 (buffer s)
            (thread (settled (idle s)) [(ts0, text0)]) (idle s)) as Hacc.
  { split; [done|]. exists [], [], ts0, text0. simpl.
    repeat split; try done; [apply NoDup_singleton|by left]. }
  pose proof (run_accountsFor o text0 [(ts0, text0)] evs (idle s) (buffer s)
                Hacc Hord) as (_ & closed & slices & ts & cur & Hchat
                               & Hclosed & Hlen & Hnd & Hcur & _ & Hphase).
  fold l in Hchat, Hnd, Hcur, Hphase. fold chat in Hchat, Hnd.
  unfold l in Hphase at 1. rewrite Hquiet in Hphase.
  destruct Hphase as [Htot Hup].
  exists slices, cur. split; [|split; [done|split; [|split; [done|split]]]].
  - by rewrite Hchat, fmap_app, Hclosed.
  - rewrite Hchat, fmap_app. change ([(ts, cur)].*1) with [ts].
    by rewrite last_snoc.
  - done.
  - done.
Qed.

Lemma orderly_run_keeps_output_witness :
  let o := sampleOptions in
  let s := sampleStreamer [] in
  let evs := [Push (js "abcdef"); Fire; Settle 0 (Resolves None);
              Settle 0 (Resolves (Some (js "100.3")));
              Push (js "ghi"); Fire; Settle 0 (Resolves None);
              Settle 0 (Resolves (Some (js "100.4")));
              Fire; Settle 0 Rejects; Fire; Settle 0 (Resolves None)] in
  let l := run o evs (idle s) in
  let chat := thread (settled l) [(js "100.2", RUNNING)] in
  let fenced c := js "```" ++ [LF] ++ c ++ [LF] ++ js "```" in
  exists (slices : list str) (current : str),
    chat.*2 = (fenced <$> slices) ++ [current] /\
    NoDup (chat.*1) /\
    last (chat.*1) = currentTs (streamer l) /\
    Forall (fun c => length c = maxCharsPerMessage o) slices /\
    concat slices ++ buffer (streamer l)
    = buffer s ++ concat (stripAnsi <$> pushed evs) /\
    (current = RUNNING \/ current = js "⏳ …" \/
     exists p, p `prefix_of` buffer (streamer l) /\ current = fenced p).
Proof.
  apply (orderly_run_keeps_output sampleOptions (sampleStreamer [])
           (js "100.2") RUNNING
           [Push (js "abcdef"); Fire; Settle 0 (Resolves None);
            Settle 0 (Resolves (Some (js "100.3")));
            Push (js "ghi"); Fire; Settle 0 (Resolves None);
            Settle 0 (Resolves (Some (js "100.4")));
            Fire; Settle 0 Rejects; Fire; Settle 0 (Resolves None)]);
    vm_compute; reflexivity.
Defined.

End FlushLoopProperties.

(** ** The session manager: bindings, input and finalisation *)
Module SessionApiProperties.
Import SessionId SessionManager SessionApi.

Lemma threadBindings_finalise thread code m :
  threadBindings (finalise thread code m) = threadBindings m.
Proof.
  unfold finalise. destruct (sessions m !! thread); [|done].
  by destruct (objects m !! _).
Qed.

Lemma threadBindings_resume k m :
  threadBindings (resume k m) = threadBindings m.
Proof.
  unfold resume. destruct (finalising m !! k) as [f|]; [|done].
  destruct (objects m !! _) as [session|]; [|done].
  destruct (stage f); [|done]. by destruct (given (messageTs session)).
Qed.

Lemma threadBindings_step e m :
  threadBindings (step e m) = threadBindings m.
Proof.
  destruct e as [proc code|timer|k]; simpl.
  - unfold onExit. destruct (listeners m !! proc) as [l|]; [|done].
    destruct (exitedFlag l); [done|]. by rewrite threadBindings_finalise.
  - unfold onTimeout. destruct (timeouts m !! timer); [|done].
    by rewrite threadBindings_finalise.
  - apply threadBindings_resume.
Qed.

Lemma binding_happen key h m :
  rebinds key h = false ->
  threadBindings (happen h m) !! key = threadBindings m !! key.
Proof.
  intros Hr. destruct h as [e|promptText sid startTs outcome o|channel thread];
    simpl in *.
  - by rewrite threadBindings_step.
  - destruct outcome; [|done]. unfold spawn. cbn [threadBindings].
    unfold registerBinding.
    destruct ((bool_decide (is_Some (given (sessionFlag (config o))))
               || bool_decide (is_Some (given (sessionIdFlag (config o)))))
              && negb (isTrue (isContinuation o))) eqn:Hc; [|done].
    apply lookup_insert_ne. intros Hk.
    apply andb_true_iff in Hc as [Hc1 Hc2].
    rewrite (bool_decide_eq_true_2 _ Hk), Hc1, Hc2 in Hr. done.
  - apply lookup_delete_ne. intros Hk.
    by rewrite (bool_decide_eq_true_2 _ Hk) in Hr.
Qed.

Lemma binding_happenAll key hs m :
  Forall (fun h => rebinds key h = false) hs ->
  threadBindings (happenAll hs m) !! key = threadBindings m !! key.
Proof.
  revert m. induction hs as [|h hs IH]; intros m Hall; [done|].
  apply Forall_cons in Hall as [Hh Hall]. simpl.
  unfold happenAll in IH. rewrite IH by done. by apply binding_happen.
Qed.

(** X12: the binding of a channel and thread is written only by a
    first spawn there (a process started for a command with a session
    flag, not as a continuation) and by the Close button.  Whatever
    else happens (processes exit, timeouts fire, finalisations run,
    continuations are spawned in the thread, sessions are spawned and
    closed elsewhere) the binding stays as it is, and a later message in
    the thread is turned into the same continuation as before. *)
Theorem binding_stable (channel ts : str) (hs : list Happening)
    (m : Manager) :
  Forall (fun h => rebinds (bindingKey channel ts) h = false) hs ->
  getThreadBinding channel ts (happenAll hs m) = getThreadBinding channel ts m
  /\ forall commands text,
       continuationOptions commands channel text (Some ts) (happenAll hs m)
       = continuationOptions commands channel text (Some ts) m.
Proof.
  intros Hall. pose proof (binding_happenAll _ hs m Hall) as Hb.
  split; [exact Hb|]. intros commands text. unfold continuationOptions.
  destruct (given (Some ts)) as [ts'|] eqn:Hg; [|done].
  assert (ts' = ts) as ->.
  { simpl in Hg. destruct (truthy ts); by inversion Hg. }
  by rewrite Hb.
Qed.

Lemma binding_stable_witness :
  let m := spawn [] (js "session_1") (js "100.2") Started
             (cliOptions (js "C1") (js "100.1") (js "explain") kimi) empty in
  let hs := [Lifecycle (ExitCallback 0 0); Lifecycle (Resume 0);
             Spawn [] (js "session_2") (js "100.5") Started
               (mkSpawnOptions (js "C1") (js "100.1") (js "go on") kimi None
                  (Some (js "slack-C1-100.1")) (Some true));
             Lifecycle (TimeoutFires 3);
             Close (js "C1") (js "200.1")] in
  getThreadBinding (js "C1") (js "100.1") (happenAll hs m)
  = getThreadBinding (js "C1") (js "100.1") m
  /\ forall commands text,
       continuationOptions commands (js "C1") text (Some (js "100.1"))
         (happenAll hs m)
       = continuationOptions commands (js "C1") text (Some (js "100.1")) m.
Proof.
  apply (binding_stable (js "C1") (js "100.1")).
  repeat constructor.
Defined.

(** X13: the Close button ends continuation.  [removeThreadBinding]
    reports whether the thread had a binding; afterwards a message in
    the thread is no longer turned into a continuation, while the
    bindings under every other key are as before. *)
Theorem close_ends_continuation (channel ts : str) (m : Manager) :
  let m' := (removeThreadBinding channel ts m).2 in
  (removeThreadBinding channel ts m).1
  = bool_decide (is_Some (getThreadBinding channel ts m)) /\
  getThreadBinding channel ts m' = None /\
  (forall commands text thread,
     thread = None \/ thread = Some ts ->
     continuationOptions commands channel text thread m' = None) /\
  (forall channel' ts',
     bindingKey channel' ts' <> bindingKey channel ts ->
     getThreadBinding channel' ts' m' = getThreadBinding channel' ts' m) /\
  sessions m' = sessions m /\ effects m' = effects m.
Proof.
  intros m'. split; [done|].
  assert (getThreadBinding channel ts m' = None) as Hnone
    by apply lookup_delete_eq.
  split; [done|]. split; [|split; [|done]].
  - intros commands text thread [-> | ->]; [done|].
    unfold continuationOptions. destruct (given (Some ts)) as [ts'|] eqn:Hg;
      [|done].
    assert (ts' = ts) as ->.
    { simpl in Hg. destruct (truthy ts); by inversion Hg. }
    unfold getThreadBinding in Hnone. by rewrite Hnone.
  - intros channel' ts' Hne. by apply lookup_delete_ne.
Qed.

(** X14: a reply that arrives while its session is being finalised is
    dropped.  Once the exit callback of a process has run, the session
    is still in the map ([hasSession] holds until [finalise] has
    finished its awaits) but it is no longer running, so [sendInput]
    writes nothing; before, it wrote the text and a line feed to the
    process. *)
Theorem input_dropped_while_finalising
    (proc : nat) (code : Z) (text : str) (m : Manager)
    (l : ExitListener) (ref : nat) (session : Session) :
  listeners m !! proc = Some l -> exitedFlag l = false ->
  sessions m !! listenerThreadTs l = Some ref ->
  objects m !! ref = Some session -> status session = running ->
  let thread := listenerThreadTs l in
  let m' := onExit proc code m in
  sendInput thread text m = Some (process session, text ++ [LF]) /\
  hasSession thread m' = true /\ sendInput thread text m' = None.
Proof.
  intros Hl He Hs Ho Hst thread m'. split; [|split].
  - unfold sendInput, sessionAt. fold thread in Hs. rewrite Hs. simpl.
    by rewrite Ho, Hst.
  - unfold m', onExit. rewrite Hl, He. unfold finalise. simpl.
    rewrite Hs, Ho. unfold hasSession. simpl. fold thread in Hs.
    rewrite Hs. by apply bool_decide_eq_true.
  - unfold m', onExit. rewrite Hl, He. unfold finalise. simpl.
    rewrite Hs, Ho. unfold sendInput, sessionAt. simpl. fold thread in Hs.
    rewrite Hs. simpl. rewrite lookup_insert_eq. simpl.
    by destruct (code =? -1)%Z.
Qed.

Lemma input_dropped_while_finalising_witness :
  sendInput (js "100.1") (js "y") runningShell
  = Some (0, js "y" ++ [LF]) /\
  hasSession (js "100.1") (onExit 0 0 runningShell) = true /\
  sendInput (js "100.1") (js "y") (onExit 0 0 runningShell) = None.
Proof.
  apply (input_dropped_while_finalising 0 0 (js "y") runningShell
           (mkListener (js "100.1") false) 0
           (mkSession (js "session_1") (js "C1") (js "100.1")
              (Some (js "100.2")) (js "sleep 4000") shell running None 0 0
              (Some 1))); reflexivity.
Defined.

(** The session object that [spawn] stores. *)
Lemma spawn_fields promptText sid startTs o m :
  let m1 := spawn promptText sid startTs Started o m in
  listeners m1 !! fresh m = Some (mkListener (threadTs o) false) /\
  sessions m1 !! threadTs o = Some (fresh m) /\
  exists session,
    objects m1 !! fresh m = Some session /\
    status session = running /\ process session = fresh m /\
    router session = fresh m /\ sessionConfig session = config o /\
    sessionChannelId session = channelId o /\
    messageTs session
    = (if negb (isTrue (isContinuation o)) then Some startTs else None) /\
    timeoutHandle session
    = (if negb (bool_decide (timeout (config o) = Some false))
       then Some (S (fresh m)) else None) /\
    finalising m1 = finalising m /\ fresh m1 = S (S (fresh m)).
Proof.
  intros m1. unfold m1, spawn. cbn [listeners sessions objects finalising].
  rewrite !lookup_insert_eq. split; [done|]. split; [done|].
  eexists. split; [done|]. done.
Qed.

Lemma finalise_found thread code ref session m :
  sessions m !! thread = Some ref -> objects m !! ref = Some session ->
  let m' := finalise thread code m in
  effects m' = effects m ++ [RouterFinish (router session) code] /\
  finalising m'
  = finalising m ++ [mkFinalising thread code ref AwaitRouterFinish] /\
  sessions m' = sessions m /\
  (forall t, timeoutHandle session = Some t -> timeouts m' !! t = None) /\
  exists session',
    objects m' = <[ref := session']> (objects m) /\
    status session' = (if (code =? -1)%Z then timed_out else exited) /\
    exitCode session' = Some code /\
    messageTs session' = messageTs session /\
    sessionConfig session' = sessionConfig session /\
    sessionChannelId session' = sessionChannelId session /\
    router session' = router session.
Proof.
  intros Hs Ho m'. unfold m', finalise. rewrite Hs, Ho. simpl.
  split; [done|]. split; [done|]. split; [done|]. split.
  - intros t ->. apply lookup_delete_eq.
  - eexists. split; [done|]. done.
Qed.

Lemma insert_last {A} (l : list A) (x y : A) :
  <[length l := y]> (l ++ [x]) = l ++ [y].
Proof.
  replace (length l) with (length l + 0) at 1 by lia.
  by rewrite insert_app_r.
Qed.

Lemma drop_last {A} (l : list A) (x : A) :
  take (length l) (l ++ [x]) ++ drop (S (length l)) (l ++ [x]) = l.
Proof.
  rewrite take_app_length, drop_ge; [by rewrite app_nil_r|].
  rewrite length_app. simpl. lia.
Qed.

Lemma exit_then_resume (proc : nat) (code : Z) (m : Manager)
    (l : ExitListener) (ref : nat) (session : Session) :
  listeners m !! proc = Some l -> exitedFlag l = false ->
  sessions m !! listenerThreadTs l = Some ref ->
  objects m !! ref = Some session ->
  let thread := listenerThreadTs l in
  let k := length (finalising m) in
  let m' := run [ExitCallback proc code; Resume k; Resume k] m in
  effects m'
  = effects m ++ RouterFinish (router session) code
      :: match given (messageTs session) with
         | Some _ => [completionNotice session code]
         | None => []
         end
      ++ [SessionsDelete thread true] /\
  sessions m' = delete thread (sessions m) /\
  listeners m' = <[proc := mkListener thread true]> (listeners m) /\
  objects m' !! ref = Some (mkSession (id session) (sessionChannelId session)
       (sessionThreadTs session) (messageTs session)
       (sessionCommand session) (sessionConfig session)
       (if (code =? -1)%Z then timed_out else exited) (Some code)
       (process session) (router session) (timeoutHandle session)) /\
  (forall r, r <> ref -> objects m' !! r = objects m !! r) /\
  (forall t, timeoutHandle session <> Some t ->
             timeouts m' !! t = timeouts m !! t) /\
  finalising m' = finalising m /\
  (forall t, timeoutHandle session = Some t ->
             timeouts m' !! t = None /\ onTimeout t m' = m') /\
  (status <$> objects m' !! ref)
  = Some (if (code =? -1)%Z then timed_out else exited).
Proof.
  intros Hl He Hs Ho thread k m'. subst k.
  destruct m as [obj ses tb lis tms fin eff fr]. cbn [listeners] in Hl.
  cbn [sessions] in Hs. cbn [objects] in Ho.
  assert (m' = run [ExitCallback proc code; Resume (length fin);
                    Resume (length fin)]
                 (mkManager obj ses tb lis tms fin eff fr)) as Hm' by done.
  unfold run in Hm'. cbn [fold_left step] in Hm'.
  unfold onExit in Hm'. cbn [listeners] in Hm'. rewrite Hl, He in Hm'.
  unfold finalise in Hm'. manager_fields Hm'. rewrite Hs, Ho in Hm'.
  manager_fields Hm'.
  unfold resume at 2 in Hm'. manager_fields Hm'.
  rewrite list_lookup_middle in Hm' by done. manager_fields Hm'.
  rewrite lookup_insert_eq in Hm'. manager_fields Hm'.
  fold thread in Hm', Hs.
  destruct (given (messageTs session)) as [ts|].
  - unfold resume in Hm'. manager_fields Hm'.
    rewrite list_lookup_insert_eq in Hm'
      by (rewrite length_app; simpl; lia).
    manager_fields Hm'. rewrite lookup_insert_eq in Hm'.
    unfold removeSession in Hm'. manager_fields Hm'.
    rewrite insert_last, drop_last, Hs in Hm'.
    rewrite bool_decide_eq_true_2 in Hm' by done.
    rewrite Hm'. manager_fields_goal. rewrite lookup_insert_eq.
    rewrite <- !app_assoc.
    split; [done|]. split; [done|]. split; [done|]. split; [done|].
    split; [intros r Hr; by apply lookup_insert_ne|].
    split; [intros t Ht; destruct (timeoutHandle session) as [u|];
            [apply lookup_delete_ne; congruence|done]|].
    split; [done|]. split; [|done].
    intros t ->. unfold onTimeout. manager_fields_goal.
    by rewrite lookup_delete_eq.
  - unfold removeSession in Hm'. unfold resume in Hm'. manager_fields Hm'.
    rewrite drop_last, lookup_ge_None_2, Hs in Hm' by done.
    rewrite bool_decide_eq_true_2 in Hm' by done.
    rewrite Hm'. manager_fields_goal. rewrite lookup_insert_eq.
    rewrite <- !app_assoc.
    split; [done|]. split; [done|]. split; [done|]. split; [done|].
    split; [intros r Hr; by apply lookup_insert_ne|].
    split; [intros t Ht; destruct (timeoutHandle session) as [u|];
            [apply lookup_delete_ne; congruence|done]|].
    split; [done|]. split; [|done].
    intros t ->. unfold onTimeout. manager_fields_goal.
    by rewrite lookup_delete_eq.
Qed.

(** X15: a process exits while its session is in the map and its exit
    callback has not run.  The callback and the two continuations of
    [finalise] finish the router once, with the exit code; update the
    start notification once when the session has one (a continuation
    has none) and not at all otherwise; remove the session from the
    map once; leave no call of [finalise] suspended; and clear the
    session timeout, which then does nothing when it fires. *)
Theorem exit_finalises_once (proc : nat) (code : Z) (m : Manager)
    (l : ExitListener) (ref : nat) (session : Session) :
  listeners m !! proc = Some l -> exitedFlag l = false ->
  sessions m !! listenerThreadTs l = Some ref ->
  objects m !! ref = Some session ->
  let thread := listenerThreadTs l in
  let k := length (finalising m) in
  let m' := run [ExitCallback proc code; Resume k; Resume k] m in
  effects m'
  = effects m ++ RouterFinish (router session) code
      :: match given (messageTs session) with
         | Some _ => [completionNotice session code]
         | None => []
         end
      ++ [SessionsDelete thread true] /\
  sessions m' = delete thread (sessions m) /\
  finalising m' = finalising m /\
  (forall t, timeoutHandle session = Some t ->
             timeouts m' !! t = None /\ onTimeout t m' = m') /\
  (status <$> objects m' !! ref)
  = Some (if (code =? -1)%Z then timed_out else exited).
Proof.
  intros Hl He Hs Ho thread k m'.
  destruct (exit_then_resume proc code m l ref session Hl He Hs Ho)
    as (H1 & H2 & _ & H3 & _ & _ & H4 & H5 & H6).
  fold thread k m' in H1, H2, H3, H4, H5, H6.
  split; [done|]. split; [done|]. split; [done|]. split; [done|].
  by rewrite H3.
Qed.

Lemma exit_finalises_once_witness :
  let session :=
    mkSession (js "session_1") (js "C1") (js "100.1") (Some (js "100.2"))
      (js "sleep 4000") shell running None 0 0 (Some 1) in
  let m' := run [ExitCallback 0 0; Resume 0; Resume 0] runningShell in
  effects m'
  = effects runningShell ++ RouterFinish 0 0
      :: match given (messageTs session) with
         | Some _ => [completionNotice session 0]
         | None => []
         end
      ++ [SessionsDelete (js "100.1") true] /\
  sessions m' = delete (js "100.1") (sessions runningShell) /\
  finalising m' = finalising runningShell /\
  (forall t, timeoutHandle session = Some t ->
             timeouts m' !! t = None /\ onTimeout t m' = m') /\
  (status <$> objects m' !! 0) = Some exited.
Proof.
  apply (exit_finalises_once 0 0 runningShell
           (mkListener (js "100.1") false) 0
           (mkSession (js "session_1") (js "C1") (js "100.1")
              (Some (js "100.2")) (js "sleep 4000") shell running None 0 0
              (Some 1))); reflexivity.
Defined.

Lemma run_app evs evs' m : run (evs ++ evs') m = run evs' (run evs m).
Proof. apply fold_left_app. Qed.

(** X16: finalisation goes by thread, not by process.  Two processes
    are started in one thread (a continuation while the first process
    still runs, say).  When the first process exits, its exit callback
    finalises the session of the second: the router of the second
    process is finished with the exit code of the first, the session of
    the second is marked as ended and removed from the map, and its
    timeout is cleared.  The session object of the first process stays
    running, its router is never finished and its timeout stays
    scheduled; and when the second process exits, nothing is
    finalised. *)
Theorem exit_finalises_latest_session
    (promptText1 sid1 startTs1 promptText2 sid2 startTs2 : str)
    (o1 o2 : SessionSpawnOptions) (code code' : Z) (m : Manager) :
  threadTs o1 = threadTs o2 ->
  let m1 := spawn promptText1 sid1 startTs1 Started o1 m in
  let m2 := spawn promptText2 sid2 startTs2 Started o2 m1 in
  let first := fresh m in
  let second := fresh m1 in
  let k := length (finalising m) in
  let m' := run [ExitCallback first code; Resume k; Resume k;
                 ExitCallback second code'] m2 in
  filter (fun e => isRouterFinish e = true) (effectsSince m2 m')
  = [RouterFinish second code] /\
  sessions m' !! threadTs o1 = None /\
  (status <$> objects m' !! second)
  = Some (if (code =? -1)%Z then timed_out else exited) /\
  (status <$> objects m' !! first) = Some running /\
  (timeout (config o2) <> Some false -> timeouts m' !! S second = None) /\
  (timeout (config o1) <> Some false ->
   timeouts m' !! S first = Some (mkTimeout (threadTs o1) first)).
Proof.
  intros Hts m1 m2 first second k m'.
  destruct (spawn_fields promptText1 sid1 startTs1 o1 m)
    as (Hl1 & Hs1 & s1 & Ho1 & Hst1 & _ & _ & _ & _ & _ & Ht1 & Hf1 & Hfr1).
  destruct (spawn_fields promptText2 sid2 startTs2 o2 m1)
    as (Hl2 & Hs2 & s2 & Ho2 & Hst2 & _ & Hr2 & _ & _ & Hm2 & Ht2 & Hf2 & _).
  fold m1 in Hl1, Hs1, Ho1, Hf1, Hfr1, Hl2, Hs2, Ho2, Hf2.
  fold m2 in Hl2, Hs2, Ho2, Hf2. fold first in Hl1, Ho1, Hfr1, Ht1.
  fold second in Hl2, Hs2, Ho2, Hr2, Ht2.
  assert (first <> second) as Hne by (unfold second; rewrite Hfr1; lia).
  assert (listeners m2 !! first = Some (mkListener (threadTs o1) false))
    as Hl.
  { unfold m2, spawn. cbn [listeners]. fold second.
    rewrite lookup_insert_ne by done. exact Hl1. }
  assert (objects m2 !! first = Some s1) as Hob1.
  { unfold m2, spawn. cbn [objects]. fold second.
    rewrite lookup_insert_ne by done. exact Ho1. }
  assert (timeout (config o1) <> Some false ->
          timeouts m2 !! S first = Some (mkTimeout (threadTs o1) first))
    as Htm1.
  { intros Hto. unfold m2, spawn. cbn [timeouts]. fold second.
    assert (timeouts m1 !! S first
            = Some (mkTimeout (threadTs o1) first)) as Hm1.
    { unfold m1, spawn. cbn [timeouts].
      rewrite (bool_decide_eq_false_2 _ Hto). simpl.
      apply lookup_insert_eq. }
    destruct (negb (bool_decide (timeout (config o2) = Some false)));
      [|exact Hm1].
    rewrite lookup_insert_ne; [exact Hm1|]. unfold second. rewrite Hfr1.
    lia. }
  destruct (exit_then_resume first code m2 _ second s2 Hl eq_refl)
    as (H1 & H2 & H3 & H4 & H5 & H6 & H7 & H8 & H9).
  { cbn [listenerThreadTs]. rewrite Hts. exact Hs2. }
  { exact Ho2. }
  cbn [listenerThreadTs] in H1, H2, H3.
  rewrite Hf2, Hf1 in H1, H2, H3, H4, H5, H6, H7, H8, H9.
  fold k in H1, H2, H3, H4, H5, H6, H7, H8, H9.
  set (m3 := run [ExitCallback first code; Resume k; Resume k] m2) in *.
  assert (m' = mkManager (objects m3) (sessions m3) (threadBindings m3)
                 (<[second := mkListener (threadTs o2) true]> (listeners m3))
                 (timeouts m3) (finalising m3) (effects m3) (fresh m3))
    as Hm'.
  { change m' with (onExit second code' m3). unfold onExit.
    rewrite H3, lookup_insert_ne, Hl2 by done. cbn [exitedFlag].
    unfold finalise. cbn [sessions listenerThreadTs].
    rewrite H2, <- Hts, lookup_delete_eq. by rewrite <- H3. }
  rewrite Hm'. unfold effectsSince. cbn [effects sessions objects timeouts].
  split; [|split; [|split; [|split; [|split]]]].
  - rewrite H1, drop_app_length, Hr2. rewrite filter_cons_True by done.
    f_equal. rewrite filter_app.
    assert (filter (fun e => isRouterFinish e = true)
              [SessionsDelete (threadTs o1) true] = []) as -> by done.
    destruct (given (messageTs s2)); [|done]. unfold completionNotice.
    by destruct (mode (sessionConfig s2)).
  - rewrite H2. apply lookup_delete_eq.
  - by rewrite H4.
  - rewrite H5 by done. by rewrite Hob1, <- Hst1.
  - intros Hto. apply H8. rewrite Ht2.
    by rewrite (bool_decide_eq_false_2 _ Hto).
  - intros Hto. rewrite H6; [by apply Htm1|]. rewrite Ht2.
    destruct (negb (bool_decide (timeout (config o2) = Some false)));
      [|done].
    intros [= E]. unfold second in E. rewrite Hfr1 in E. lia.
Qed.

Lemma exit_finalises_latest_session_witness :
  let o1 := cliOptions (js "C1") (js "100.1") (js "explain") kimi in
  let o2 := mkSpawnOptions (js "C1") (js "100.1") (js "go on") kimi None
              (Some (js "slack-C1-100.1")) (Some true) in
  let m1 := spawn [] (js "session_1") (js "100.2") Started o1 empty in
  let m2 := spawn [] (js "session_2") (js "100.3") Started o2 m1 in
  let first := fresh empty in
  let second := fresh m1 in
  let k := length (finalising empty) in
  let m' := run [ExitCallback first 0; Resume k; Resume k;
                 ExitCallback second 0] m2 in
  filter (fun e => isRouterFinish e = true) (effectsSince m2 m')
  = [RouterFinish second 0] /\
  sessions m' !! threadTs o1 = None /\
  (status <$> objects m' !! second) = Some exited /\
  (status <$> objects m' !! first) = Some running /\
  (timeout (config o2) <> Some false -> timeouts m' !! S second = None) /\
  (timeout (config o1) <> Some false ->
   timeouts m' !! S first = Some (mkTimeout (threadTs o1) first)).
Proof.
  apply (exit_finalises_latest_session [] (js "session_1") (js "100.2")
           [] (js "session_2") (js "100.3")
           (cliOptions (js "C1") (js "100.1") (js "explain") kimi)
           (mkSpawnOptions (js "C1") (js "100.1") (js "go on") kimi None
              (Some (js "slack-C1-100.1")) (Some true)) 0 0 empty).
  reflexivity.
Defined.

End SessionApiProperties.

(** ** slackFormat.ts *)
Module SlackFormatProperties.
Import StringFacts SlackFormat.

Lemma replaceGlobal_length matchAt :
  (forall prev s rep n, matchAt prev s = Some (rep, n) ->
                        length rep <= n /\ n <= length s) ->
  forall s k prev,
    length (replaceGlobal matchAt k prev s) <= length s - k.
Proof.
  intros Hm. induction s as [|c s IH]; intros k prev; [simpl; lia|].
  cbn [replaceGlobal]. destruct k as [|k].
  - destruct (matchAt prev (c :: s)) as [[rep [|n]]|] eqn:E.
    + simpl. specialize (IH 0 (Some c)). lia.
    + apply Hm in E as [H1 H2]. rewrite length_app.
      specialize (IH n (Some c)). simpl in *. lia.
    + simpl. specialize (IH 0 (Some c)). lia.
  - specialize (IH k (Some c)). simpl. lia.
Qed.

Lemma takeWhile_length f s : length (takeWhile f s) <= length s.
Proof.
  induction s as [|c s IH]; simpl; [lia|]. destruct (f c); simpl; lia.
Qed.

Lemma headerAt_bounds prev s rep n :
  headerAt prev s = Some (rep, n) -> length rep <= n /\ n <= length s.
Proof.
  unfold headerAt. destruct (negb (atLineStart prev)); [done|].
  set (h := length (takeWhile (Ascii.eqb "#"%char) s)).
  destruct ((h =? 0) || (6 <? h)) eqn:Hh; [done|].
  apply orb_false_iff in Hh as [Hh _]. apply Nat.eqb_neq in Hh.
  destruct (find _ _) as [k|] eqn:Hf; [|done].
  apply find_some in Hf as [Hin Hk].
  apply in_rev, in_seq in Hin.
  destruct (drop h s !! k) as [c|] eqn:Hc; [|done].
  apply lookup_lt_Some in Hc. rewrite length_drop in Hc.
  intros [= <- <-]. simpl. rewrite length_app. simpl.
  pose proof (takeWhile_length (fun c => negb (isLineTerminator c))
                (drop k (drop h s))) as Hd.
  rewrite !length_drop in Hd. lia.
Qed.

Lemma pairAt_bounds d r prev s rep n :
  pairAt d r prev s = Some (rep, n) -> length rep <= n /\ n <= length s.
Proof.
  unfold pairAt. destruct s as [|a [|b s]]; [done..|].
  destruct (Ascii.eqb a d && Ascii.eqb b d); [|done].
  set (run := takeWhile (fun c => negb (Ascii.eqb c d)) s).
  destruct run as [|c0 run'] eqn:Hrun; [done|].
  destruct (drop (length (c0 :: run')) s) as [|x [|y t]] eqn:Hdrop;
    [done..|].
  destruct (Ascii.eqb x d && Ascii.eqb y d); [|done].
  intros [= <- <-]. apply (f_equal length) in Hdrop.
  rewrite length_drop in Hdrop. simpl in *. rewrite length_app. simpl.
  lia.
Qed.

(** X17: converting Markdown to Slack's markup never makes a text
    longer: each of the four replacements puts at most as many code
    units as it takes. *)
Theorem markdownToSlack_length (text : str) :
  length (markdownToSlack text) <= length text.
Proof.
  unfold markdownToSlack.
  pose proof (replaceGlobal_length headerAt headerAt_bounds text 0 None).
  pose proof (replaceGlobal_length _ (pairAt_bounds "*" "*")
                (replaceGlobal headerAt 0 None text) 0 None).
  pose proof (replaceGlobal_length _ (pairAt_bounds "_" "*")
                (replaceGlobal (pairAt "*" "*") 0 None
                   (replaceGlobal headerAt 0 None text)) 0 None).
  pose proof (replaceGlobal_length _ (pairAt_bounds "~" "~")
                (replaceGlobal (pairAt "_" "*") 0 None
                   (replaceGlobal (pairAt "*" "*") 0 None
                      (replaceGlobal headerAt 0 None text))) 0 None).
  lia.
Qed.

Lemma replaceGlobal_id matchAt s prev :
  (forall j p, matchAt p (drop j s) = None) ->
  replaceGlobal matchAt 0 prev s = s.
Proof.
  revert prev. induction s as [|c s IH]; intros prev Hn; [done|].
  cbn [replaceGlobal]. pose proof (Hn 0 prev) as H0. simpl in H0.
  rewrite H0. f_equal.
  apply IH. intros j p. apply (Hn (S j) p).
Qed.

Lemma headerAt_no_hash prev s :
  (forall c t, s = c :: t -> c <> "#"%char) -> headerAt prev s = None.
Proof.
  intros H. unfold headerAt. destruct (negb (atLineStart prev)); [done|].
  assert (takeWhile (Ascii.eqb "#"%char) s = []) as ->; [|done].
  destruct s as [|c t]; [done|]. cbn [takeWhile].
  destruct (Ascii.eqb "#" c) eqn:E; [|done].
  apply eqb_true_iff in E. by destruct (H c t eq_refl).
Qed.

Lemma pairAt_no_delim d r prev s :
  (forall c t, s = c :: t -> c <> d) -> pairAt d r prev s = None.
Proof.
  intros H. unfold pairAt. destruct s as [|a [|b t]]; [done..|].
  destruct (Ascii.eqb a d) eqn:E; [|done].
  apply eqb_true_iff in E. by destruct (H a (b :: t) eq_refl).
Qed.

Lemma not_elem_of_drop_head (d : ascii) (s : str) j c t :
  d ∉ s -> drop j s = c :: t -> c <> d.
Proof.
  intros Hd Hj ->. apply Hd.
  rewrite <- (take_drop j s), Hj. apply elem_of_app. right. left.
Qed.

Lemma replaceHeader_id s prev :
  "#"%char ∉ s -> replaceGlobal headerAt 0 prev s = s.
Proof.
  intros Hs. apply replaceGlobal_id. intros j p. apply headerAt_no_hash.
  intros c t. by apply not_elem_of_drop_head.
Qed.

Lemma replacePair_id d r s prev :
  d ∉ s -> replaceGlobal (pairAt d r) 0 prev s = s.
Proof.
  intros Hs. apply replaceGlobal_id. intros j p. apply pairAt_no_delim.
  intros c t. by apply not_elem_of_drop_head.
Qed.

Lemma plain_not_elem s :
  plain s ->
  ("#"%char ∉ s) /\ ("*"%char ∉ s) /\ ("_"%char ∉ s) /\ ("~"%char ∉ s).
Proof.
  unfold plain. rewrite Forall_forall. intros H.
  repeat split; intros Hin; destruct (H _ Hin) as (? & ? & ? & ?); done.
Qed.

(** X18: a text that holds none of the marks [#], [*], [_] and [~]
    comes back unchanged. *)
Theorem markdownToSlack_plain (text : str) :
  plain text -> markdownToSlack text = text.
Proof.
  intros (H1 & H2 & H3 & H4)%plain_not_elem. unfold markdownToSlack.
  rewrite replaceHeader_id by done.
  rewrite (replacePair_id "*" "*" text) by done.
  rewrite (replacePair_id "_" "*" text) by done.
  by apply replacePair_id.
Qed.

Lemma markdownToSlack_plain_witness :
  markdownToSlack (js "Build finished: 3 files, 0 errors.")
  = js "Build finished: 3 files, 0 errors.".
Proof.
  apply (markdownToSlack_plain (js "Build finished: 3 files, 0 errors.")).
  unfold plain. vm_compute. repeat constructor; discriminate.
Defined.

Lemma replacePair_prev d r k p p' s :
  replaceGlobal (pairAt d r) k p s = replaceGlobal (pairAt d r) k p' s.
Proof.
  revert k p p'. induction s as [|c s IH]; intros k p p'; [done|].
  cbn [replaceGlobal]. destruct k as [|k]; [|done].
  change (pairAt d r p (c :: s)) with (pairAt d r p' (c :: s)).
  done.
Qed.

Lemma replacePair_clean_app d r a t p :
  d ∉ a ->
  replaceGlobal (pairAt d r) 0 p (a ++ t)
  = a ++ replaceGlobal (pairAt d r) 0 None t.
Proof.
  revert p. induction a as [|c a IH]; intros p Ha.
  - apply replacePair_prev.
  - apply not_elem_of_cons in Ha as [Hc Ha].
    change (replaceGlobal (pairAt d r) 0 p (c :: (a ++ t))
            = c :: (a ++ replaceGlobal (pairAt d r) 0 None t)).
    cbn [replaceGlobal]. rewrite pairAt_no_delim.
    + by rewrite IH.
    + intros c' t' [= <- _]. congruence.
Qed.

Lemma replacePair_skip d r a t p :
  replaceGlobal (pairAt d r) (length a) p (a ++ t)
  = replaceGlobal (pairAt d r) 0 None t.
Proof.
  revert p. induction a as [|c a IH]; intros p.
  - apply replacePair_prev.
  - simpl. apply IH.
Qed.

Lemma takeWhile_not_delim (d : ascii) (b t : str) :
  d ∉ b -> takeWhile (fun c => negb (Ascii.eqb c d)) (b ++ d :: t) = b.
Proof.
  intros Hb. apply takeWhile_app_stop.
  - apply forallb_forall. intros c Hc. apply negb_true_iff.
    destruct (Ascii.eqb c d) eqn:E; [|done].
    apply eqb_true_iff in E as ->. by apply list_elem_of_In in Hc.
  - apply negb_false_iff. by apply eqb_true_iff.
Qed.

Lemma pairAt_match d r p b t :
  d ∉ b -> b <> [] ->
  pairAt d r p (d :: d :: b ++ d :: d :: t)
  = Some (r :: b ++ [r], 2 + length b + 2).
Proof.
  intros Hb Hne. unfold pairAt.
  assert (Ascii.eqb d d = true) as Hdd by by apply eqb_true_iff.
  rewrite Hdd. cbn [andb]. rewrite takeWhile_not_delim by done.
  destruct b as [|b0 b']; [done|].
  rewrite drop_app_length. rewrite Hdd. cbn [andb]. done.
Qed.

Lemma replacePair_wrapped d r a b c p :
  d ∉ a -> d ∉ b -> b <> [] -> d ∉ c ->
  replaceGlobal (pairAt d r) 0 p (a ++ d :: d :: b ++ d :: d :: c)
  = a ++ r :: b ++ r :: c.
Proof.
  intros Ha Hb Hne Hc. rewrite replacePair_clean_app by done. f_equal.
  cbn [replaceGlobal]. rewrite pairAt_match by done.
  change (2 + length b + 2) with (S (S (length b + 2))).
  cbn iota beta.
  replace (b ++ d :: d :: c) with ((b ++ [d; d]) ++ c)
    by (by rewrite <- app_assoc).
  replace (length b + 2) with (length (b ++ [d; d]))
    by (rewrite length_app; simpl; lia).
  rewrite replacePair_skip, replacePair_id by done.
  simpl. by rewrite <- app_assoc.
Qed.

Lemma not_elem_of_wrapped (x d : ascii) (a b c : str) :
  x <> d -> x ∉ a -> x ∉ b -> x ∉ c ->
  x ∉ a ++ d :: d :: b ++ d :: d :: c.
Proof.
  intros Hd Ha Hb Hc.
  rewrite !not_elem_of_app, !not_elem_of_cons, !not_elem_of_app,
    !not_elem_of_cons. done.
Qed.

Lemma not_elem_of_wrapped1 (x r : ascii) (a b c : str) :
  x <> r -> x ∉ a -> x ∉ b -> x ∉ c -> x ∉ a ++ r :: b ++ r :: c.
Proof.
  intros Hd Ha Hb Hc.
  rewrite !not_elem_of_app, !not_elem_of_cons, !not_elem_of_app,
    !not_elem_of_cons. done.
Qed.

Lemma replaceGlobal_skip_all matchAt k p s :
  length s <= k -> replaceGlobal matchAt k p s = [].
Proof.
  revert k p. induction s as [|c s IH]; intros k p Hk; [done|].
  simpl in Hk. destruct k as [|k]; [lia|]. simpl. apply IH. lia.
Qed.

Lemma takeWhile_hashes n (t : str) :
  (forall c r, t = c :: r -> c <> "#"%char) ->
  takeWhile (Ascii.eqb "#"%char) (repeat "#"%char n ++ t)
  = repeat "#"%char n.
Proof.
  intros Ht. induction n as [|n IH]; simpl.
  - destruct t as [|c r]; [done|]. cbn [takeWhile].
    destruct (Ascii.eqb "#" c) eqn:E; [|done].
    apply eqb_true_iff in E. by destruct (Ht c r eq_refl).
  - by rewrite IH.
Qed.

Lemma takeWhile_all f (s : str) : forallb f s = true -> takeWhile f s = s.
Proof.
  induction s as [|c s IH]; simpl; [done|].
  intros [-> Hs]%andb_true_iff. by rewrite IH.
Qed.

Lemma headerAt_line n c0 title :
  1 <= n <= 6 -> isSpace c0 = false ->
  forallb (fun c => negb (isLineTerminator c)) (c0 :: title) = true ->
  headerAt None (repeat "#"%char n ++ " "%char :: c0 :: title)
  = Some ("*"%char :: (c0 :: title) ++ ["*"%char],
          n + 1 + length (c0 :: title)).
Proof.
  intros Hn Hsp Hlt. unfold headerAt. cbn [atLineStart negb].
  rewrite takeWhile_hashes by (intros c r [= <- _]; discriminate).
  rewrite repeat_length.
  assert ((n =? 0) || (6 <? n) = false) as ->.
  { apply orb_false_iff. split; [apply Nat.eqb_neq|apply Nat.ltb_ge]; lia. }
  replace (drop n (repeat "#"%char n ++ " "%char :: c0 :: title))
    with (" "%char :: c0 :: title).
  2:{ rewrite <- (repeat_length "#"%char n) at 1.
      by rewrite drop_app_length. }
  cbn [takeWhile]. change (isSpace " ") with true. cbn iota.
  rewrite Hsp. cbn [length seq rev app find lookup list_lookup].
  pose proof Hlt as Hlt'. cbn [forallb] in Hlt'.
  apply andb_true_iff in Hlt' as [Hc0 _]. rewrite Hc0.
  cbn [drop]. by rewrite takeWhile_all.
Qed.

Lemma replaceStars_single p (t : str) :
  "*"%char ∉ t ->
  replaceGlobal (pairAt "*" "*") 0 p ("*"%char :: t ++ ["*"%char])
  = "*"%char :: t ++ ["*"%char].
Proof.
  intros Ht. cbn [replaceGlobal].
  assert (pairAt "*" "*" p ("*"%char :: t ++ ["*"%char]) = None) as ->.
  { unfold pairAt. destruct t as [|c t]; [done|].
    apply not_elem_of_cons in Ht as [Hc _]. simpl app.
    change (Ascii.eqb "*" "*") with true. cbn [andb].
    destruct (Ascii.eqb c "*") eqn:E; [|done].
    apply eqb_true_iff in E. congruence. }
  f_equal. by rewrite replacePair_clean_app.
Qed.

Lemma not_elem_of_starred (x r : ascii) (t : str) :
  x <> r -> x ∉ t -> x ∉ r :: t ++ [r].
Proof.
  intros Hx Ht. apply not_elem_of_cons. split; [done|].
  apply not_elem_of_app. split; [done|].
  apply not_elem_of_cons. split; [done|apply not_elem_of_nil].
Qed.

(** X19: between texts that hold none of the marks, a non-empty text
    without marks wrapped in [**] or in [__] comes out wrapped in single
    [*], and one wrapped in [~~] comes out wrapped in single [~]; the
    texts around it are unchanged.  And a text of one line that does
    not begin with white space, after one to six hashes and a space,
    comes out wrapped in single [*], without the hashes. *)
Theorem markdownToSlack_pairs (a b c : str) :
  plain a -> plain b -> plain c -> b <> [] ->
  markdownToSlack (a ++ js "**" ++ b ++ js "**" ++ c)
  = a ++ js "*" ++ b ++ js "*" ++ c /\
  markdownToSlack (a ++ js "__" ++ b ++ js "__" ++ c)
  = a ++ js "*" ++ b ++ js "*" ++ c /\
  markdownToSlack (a ++ js "~~" ++ b ++ js "~~" ++ c)
  = a ++ js "~" ++ b ++ js "~" ++ c /\
  forall n,
    1 <= n <= 6 -> isSpace <$> head b = Some false ->
    forallb (fun c => negb (isLineTerminator c)) b = true ->
    markdownToSlack (repeat "#"%char n ++ js " " ++ b)
    = js "*" ++ b ++ js "*".
Proof.
  intros (A1 & A2 & A3 & A4)%plain_not_elem
         (B1 & B2 & B3 & B4)%plain_not_elem
         (C1 & C2 & C3 & C4)%plain_not_elem Hne.
  unfold markdownToSlack. simpl js. cbn [app].
  split; [|split; [|split]].
  - rewrite replaceHeader_id by (by apply not_elem_of_wrapped).
    rewrite replacePair_wrapped by done.
    rewrite (replacePair_id "_") by (by apply not_elem_of_wrapped1).
    by rewrite replacePair_id by (by apply not_elem_of_wrapped1).
  - rewrite replaceHeader_id by (by apply not_elem_of_wrapped).
    rewrite (replacePair_id "*") by (by apply not_elem_of_wrapped).
    rewrite replacePair_wrapped by done.
    by rewrite replacePair_id by (by apply not_elem_of_wrapped1).
  - rewrite replaceHeader_id by (by apply not_elem_of_wrapped).
    rewrite (replacePair_id "*") by (by apply not_elem_of_wrapped).
    rewrite (replacePair_id "_") by (by apply not_elem_of_wrapped).
    by rewrite replacePair_wrapped.
  - intros n Hn Hsp Hlt. destruct b as [|c0 title]; [done|].
    simpl in Hsp. injection Hsp as Hsp.
    assert (replaceGlobal headerAt 0 None
              (repeat "#"%char n ++ " "%char :: c0 :: title)
            = "*"%char :: (c0 :: title) ++ ["*"%char]) as ->.
    { destruct n as [|n]; [lia|].
      cbn [repeat app replaceGlobal].
      change ("#"%char :: repeat "#"%char n ++ " "%char :: c0 :: title)
        with (repeat "#"%char (S n) ++ " "%char :: c0 :: title).
      rewrite headerAt_line by done.
      replace (S n + 1 + length (c0 :: title))
        with (S (n + 1 + length (c0 :: title))) by lia.
      cbn iota beta. rewrite replaceGlobal_skip_all.
      - by rewrite app_nil_r.
      - rewrite length_app, repeat_length. simpl. lia. }
    rewrite replaceStars_single by done.
    rewrite (replacePair_id "_") by (by apply not_elem_of_starred).
    by rewrite (replacePair_id "~") by (by apply not_elem_of_starred).
Qed.

Lemma markdownToSlack_pairs_witness :
  markdownToSlack (js "Tests: " ++ js "**" ++ js "all green" ++ js "**"
                   ++ js ".")
  = js "Tests: " ++ js "*" ++ js "all green" ++ js "*" ++ js "." /\
  markdownToSlack (js "Tests: " ++ js "__" ++ js "all green" ++ js "__"
                   ++ js ".")
  = js "Tests: " ++ js "*" ++ js "all green" ++ js "*" ++ js "." /\
  markdownToSlack (js "Tests: " ++ js "~~" ++ js "all green" ++ js "~~"
                   ++ js ".")
  = js "Tests: " ++ js "~" ++ js "all green" ++ js "~" ++ js "." /\
  forall n,
    1 <= n <= 6 -> isSpace <$> head (js "all green") = Some false ->
    forallb (fun c => negb (isLineTerminator c)) (js "all green") = true ->
    markdownToSlack (repeat "#"%char n ++ js " " ++ js "all green")
    = js "*" ++ js "all green" ++ js "*".
Proof.
  apply (markdownToSlack_pairs (js "Tests: ") (js "all green") (js "."));
    try (unfold plain; vm_compute; repeat constructor; discriminate).
Defined.

End SlackFormatProperties.

(** ** logWriter.ts and the output router *)
Module RouterProperties.
Import Reporter EnvelopeParser StringFacts RoundTrip SlackFormat
  LogWriter OutputRouter.

Lemma logWriter_step o r e rt :
  logWriter (after (step o r e rt))
  = match e with
    | Push data => write data (logWriter rt)
    | _ => logWriter rt
    end.
Proof.
  destruct e as [data|t|]; simpl.
  - unfold push, withParser. simpl. by destruct (parser rt).
  - unfold fire, withParser. by destruct (parser rt).
  - unfold tick. by destruct (streamer rt).
Qed.

Lemma pushed_event_cons e evs : pushed (e :: evs) = pushed [e] ++ pushed evs.
Proof. unfold pushed. simpl. by destruct e. Qed.

Lemma log_run_open o r evs rt :
  stream (logWriter rt) = true ->
  stream (logWriter (run o r evs rt).1) = true /\
  file (logWriter (run o r evs rt).1)
  = file (logWriter rt) ++ concat (pushed evs).
Proof.
  revert rt. induction evs as [|e evs IH]; intros rt Hs.
  - simpl. by rewrite app_nil_r.
  - cbn [run fst]. rewrite pushed_event_cons, concat_app.
    destruct (IH (after (step o r e rt))) as [H1 H2].
    + rewrite logWriter_step. destruct e; try done.
      unfold write. by rewrite Hs.
    + split; [done|]. rewrite H2, logWriter_step.
      destruct e as [data| |]; simpl; rewrite ?app_nil_r; try done.
      unfold write. rewrite Hs. simpl. by rewrite <- app_assoc.
Qed.

Lemma log_run_closed o r evs rt :
  stream (logWriter rt) = false ->
  logWriter (run o r evs rt).1 = logWriter rt.
Proof.
  revert rt. induction evs as [|e evs IH]; intros rt Hs; [done|].
  cbn [run fst].
  assert (logWriter (after (step o r e rt)) = logWriter rt) as Hstep.
  { rewrite logWriter_step. destruct e; try done. unfold write.
    by rewrite Hs. }
  rewrite IH; [done|]. by rewrite Hstep.
Qed.

Lemma logWriter_finish o r now code rt :
  logWriter (after (finish o r now code rt))
  = close now code (logWriter rt).
Proof. unfold finish, withParser. simpl. by destruct (parser rt). Qed.

Lemma logWriter_start o r now rt :
  logWriter (after (start o r now rt)) = open now (logWriter rt).
Proof. unfold start. by destruct (streamer rt). Qed.

(** X20: the log is a faithful record.  Whatever the mode, whatever
    the reporter answers and whatever the parser and the streamer do,
    the log file of a session holds, after what it held before: the
    start header, every chunk pushed between [start] and [finish],
    verbatim and in order, and one footer with the exit code.  Chunks
    pushed after [finish] are not written, and a second [finish] adds
    no second footer. *)
Theorem log_is_faithful (o : Options) (r : Reporter)
    (content now now' now'' : str) (code code' : Z)
    (evs late : list Event) :
  let started := after (start o r now (new o content)) in
  let finished :=
    after (finish o r now' code (run o r evs started).1) in
  let later := (run o r late finished).1 in
  file (logWriter later)
  = content ++ header now ++ concat (pushed evs) ++ footer now' code /\
  file (logWriter (after (finish o r now'' code' later)))
  = file (logWriter later).
Proof.
  intros started finished later.
  assert (stream (logWriter started) = true /\
          file (logWriter started) = content ++ header now) as [Hs Hf].
  { unfold started. rewrite logWriter_start. unfold new.
    by destruct (envelope o). }
  destruct (log_run_open o r evs started Hs) as [Hs' Hf'].
  assert (logWriter finished
          = mkLogWriter false
              (content ++ header now ++ concat (pushed evs)
                 ++ footer now' code)) as Hfin.
  { unfold finished. rewrite logWriter_finish. unfold close.
    rewrite Hs', Hf', Hf. by rewrite <- !app_assoc. }
  assert (logWriter later = logWriter finished) as Hlater.
  { apply log_run_closed. by rewrite Hfin. }
  split.
  - by rewrite Hlater, Hfin.
  - rewrite logWriter_finish. unfold close. by rewrite Hlater, Hfin.
Qed.

(** The calls of a run do not depend on the log. *)
Lemma step_same_tracks o r e rt rt' :
  parser rt = parser rt' -> streamer rt = streamer rt' ->
  parser (after (step o r e rt)) = parser (after (step o r e rt')) /\
  streamer (after (step o r e rt)) = streamer (after (step o r e rt')) /\
  calls (step o r e rt) = calls (step o r e rt').
Proof.
  intros Hp Hs. destruct rt as [lw p s], rt' as [lw' p' s'].
  simpl in Hp, Hs. subst p' s'. destruct e as [data|t|]; simpl.
  - unfold push, withParser. simpl. by destruct p.
  - unfold fire, withParser. simpl. by destruct p.
  - unfold tick. simpl. by destruct s.
Qed.

Lemma run_same_tracks o r evs rt rt' :
  parser rt = parser rt' -> streamer rt = streamer rt' ->
  (run o r evs rt).2 = (run o r evs rt').2.
Proof.
  revert rt rt'. induction evs as [|e evs IH]; intros rt rt' Hp Hs; [done|].
  destruct (step_same_tracks o r e rt rt' Hp Hs) as (H1 & H2 & H3).
  cbn [run snd]. rewrite H3. f_equal. by apply IH.
Qed.

Lemma early_push o r rt data p :
  parser rt = Some p -> activated p = false -> streamer rt = None ->
  parser (after (step o r (Push data) rt)) = Some p /\
  streamer (after (step o r (Push data) rt)) = None /\
  calls (step o r (Push data) rt) = [].
Proof.
  intros Hp Hact Hs. simpl. unfold push, withParser. simpl.
  rewrite Hp, Hs. unfold EnvelopeParser.push. rewrite Hact. done.
Qed.

(** X21: in envelope mode, output that arrives before the parser is
    activated never reaches the chat.  Chunks pushed before the
    activation timer fires are written to the log and leave no trace
    on the parser: the calls made from then on, whatever follows, are
    the calls made had those chunks not been pushed at all, also when
    the chunks hold complete envelopes. *)
Theorem early_output_is_dropped (o : Options) (r : Reporter)
    (content now : str) (early : list str) (evs : list Event) :
  envelope o = true ->
  let started := after (start o r now (new o content)) in
  (run o r ((Push <$> early) ++ evs) started).2 = (run o r evs started).2
  /\ file (logWriter (run o r (Push <$> early) started).1)
     = content ++ header now ++ concat early.
Proof.
  intros Henv started.
  assert (parser started = Some EnvelopeParser.new /\
          streamer started = None /\
          stream (logWriter started) = true /\
          file (logWriter started) = content ++ header now)
    as (Hp & Hs & Hst & Hf).
  { unfold started, start, new. rewrite Henv. done. }
  split.
  - assert (forall rt, parser rt = Some EnvelopeParser.new ->
              streamer rt = None ->
              (run o r ((Push <$> early) ++ evs) rt).2 = (run o r evs rt).2)
      as Hgen; [|by apply Hgen].
    induction early as [|c early IH]; intros rt Hp' Hs'; [done|].
    destruct (early_push o r rt c _ Hp' eq_refl Hs') as (H1 & H2 & H3).
    cbn [fmap list_fmap app run snd]. rewrite H3. cbn [app].
    change (list_fmap _ _ Push early) with (Push <$> early).
    rewrite IH by done. apply run_same_tracks; congruence.
  - destruct (log_run_open o r (Push <$> early) started Hst) as [_ H].
    rewrite H, Hf. rewrite <- app_assoc. do 2 f_equal.
    assert (pushed (Push <$> early) = early) as ->; [|done].
    unfold pushed. clear. induction early as [|c early IH]; [done|].
    csimpl. by rewrite IH.
Qed.

Lemma early_output_is_dropped_witness :
  let started :=
    after (start envelopeOptions (FullStreamer.reliable (js "100.2"))
             (js "2026-01-01T00:00:00.000Z") (new envelopeOptions [])) in
  let early := [js "<<<SLACK:done>>>too early<<<END_SLACK>>>"] in
  let evs := [Fire 0; Push (js "<<<SLACK:done>>>in time<<<END_SLACK>>>")] in
  (run envelopeOptions (FullStreamer.reliable (js "100.2"))
     ((Push <$> early) ++ evs) started).2
  = (run envelopeOptions (FullStreamer.reliable (js "100.2")) evs
       started).2
  /\ file (logWriter (run envelopeOptions
                        (FullStreamer.reliable (js "100.2"))
                        (Push <$> early) started).1)
     = [] ++ header (js "2026-01-01T00:00:00.000Z") ++ concat early.
Proof.
  apply (early_output_is_dropped envelopeOptions
           (FullStreamer.reliable (js "100.2")) []
           (js "2026-01-01T00:00:00.000Z")
           [js "<<<SLACK:done>>>too early<<<END_SLACK>>>"]
           [Fire 0; Push (js "<<<SLACK:done>>>in time<<<END_SLACK>>>")]).
  reflexivity.
Defined.

(** X22: from the process to the chat.  In envelope mode, once the
    activation timer has fired, a chunk that holds an open marker with
    a type of the closed set, a text of code units below 256 without
    the close marker, and the close marker (the markers in any letter
    case) makes the router post exactly one message, in the thread of
    the session: the emoji of the type, then the ANSI-stripped, trimmed
    text with its Markdown converted, and no mark of incompleteness.
    The chunk is in the log as it came. *)
Theorem envelope_becomes_one_post (o : Options) (r : Reporter)
    (content now : str) (ty : EnvelopeType) (op body cl : str) :
  envelope o = true ->
  toLowerCase op = toLowerCase (openMarker ty) ->
  toLowerCase cl = CLOSE_TAG ->
  indexOf CLOSE_TAG (toLowerCase body) = None ->
  let started := after (start o r now (new o content)) in
  let out := run o r [Fire 0; Push (op ++ body ++ cl)] started in
  out.2 = [PostMessage (channelId o)
             (ENVELOPE_PREFIX ty
                ++ markdownToSlack (trim (stripAnsi body)))
             (Some (threadTs o))] /\
  file (logWriter out.1) = content ++ header now ++ op ++ body ++ cl.
Proof.
  intros Henv Ho Hc Hb started out.
  assert (started
          = mkRouter (mkLogWriter true (content ++ header now))
              (Some EnvelopeParser.new) None) as Hstarted.
  { unfold started, start, new. by rewrite Henv. }
  split.
  - unfold out. rewrite Hstarted.
    cbn [run step fst snd]. unfold fire at 1 2. unfold withParser at 1 2.
    cbn [parser after calls logWriter streamer].
    change (EnvelopeParser.fire 0 EnvelopeParser.new)
      with (activatedNew, @nil EnvelopeMessage).
    cbn [fst snd fmap list_fmap app].
    unfold push, withParser. cbn [parser after calls logWriter streamer].
    rewrite (roundtrip_one_chunk ty op body cl activatedNew) by done.
    cbn [fst snd fmap list_fmap app after calls logWriter streamer
         option_fmap option_map].
    unfold onEnvelope. cbn [type text isIncomplete incomplete].
    by rewrite !app_nil_r.
  - destruct (log_run_open o r [Fire 0; Push (op ++ body ++ cl)] started)
      as [_ H]; [by rewrite Hstarted|].
    unfold out. rewrite H, Hstarted. simpl.
    by rewrite app_nil_r, <- app_assoc.
Qed.

Lemma envelope_becomes_one_post_witness :
  let started :=
    after (start envelopeOptions (FullStreamer.reliable (js "100.2"))
             (js "2026-01-01T00:00:00.000Z") (new envelopeOptions [])) in
  let out :=
    run envelopeOptions (FullStreamer.reliable (js "100.2"))
      [Fire 0; Push (js "<<<slack:DONE>>>" ++ js " **ok** "
                     ++ js "<<<end_slack>>>")] started in
  out.2 = [PostMessage (channelId envelopeOptions)
             (ENVELOPE_PREFIX done
                ++ markdownToSlack (trim (stripAnsi (js " **ok** "))))
             (Some (threadTs envelopeOptions))] /\
  file (logWriter out.1)
  = [] ++ header (js "2026-01-01T00:00:00.000Z") ++ js "<<<slack:DONE>>>"
    ++ js " **ok** " ++ js "<<<end_slack>>>".
Proof.
  apply (envelope_becomes_one_post envelopeOptions
           (FullStreamer.reliable (js "100.2")) []
           (js "2026-01-01T00:00:00.000Z") done (js "<<<slack:DONE>>>")
           (js " **ok** ") (js "<<<end_slack>>>")); reflexivity.
Defined.

End RouterProperties.

(** ** The command parser *)
Module CommandParserProperties.
Import SessionManager StringFacts CommandParser.

Lemma trim_space_cons c s : isSpace c = true -> trim (c :: s) = trim s.
Proof. intros H. unfold trim. simpl. by rewrite H. Qed.

Lemma isControlOf_spaced ctrl c' rest :
  ctrl ∈ CONTROLS -> c' ∈ CONTROLS ->
  isControlOf (ctrl ++ js " " ++ rest) c' = bool_decide (ctrl = c').
Proof.
  unfold CONTROLS. rewrite !elem_of_cons, !elem_of_nil.
  intros H1 H2. unfold isControlOf.
  rewrite bool_decide_eq_false_2.
  - destruct H1 as [->|[->|[->|[->|[->|[]]]]]];
      destruct H2 as [->|[->|[->|[->|[->|[]]]]]]; reflexivity.
  - destruct H1 as [->|[->|[->|[->|[->|[]]]]]];
      destruct H2 as [->|[->|[->|[->|[->|[]]]]]]; discriminate.
Qed.

Lemma find_control ctrl :
  ctrl ∈ CONTROLS ->
  find (fun c' => bool_decide (ctrl = c')) CONTROLS = Some ctrl.
Proof.
  unfold CONTROLS. rewrite !elem_of_cons, !elem_of_nil.
  intros [->|[->|[->|[->|[->|[]]]]]]; reflexivity.
Qed.

Lemma find_ext {A} (f g : A -> bool) l :
  (forall x, x ∈ l -> f x = g x) -> find f l = find g l.
Proof.
  induction l as [|x l IH]; intros H; [done|]. simpl.
  rewrite (H x) by left. destruct (g x); [done|].
  apply IH. intros y Hy. apply H. by right.
Qed.

(** X23: each of the five control commands is recognised, alone and
    followed by a space and any text, whatever commands are configured
    (controls come before the triggers); the prefix of the result is
    the control command and its arguments are the trimmed text. *)
Theorem parse_control (ctrl rest : str) (commands : list CommandConfig) :
  ctrl ∈ CONTROLS ->
  parseCommand ctrl commands = Some (mkParsed true ctrl []) /\
  parseCommand (ctrl ++ js " " ++ rest) commands
  = Some (mkParsed true ctrl (trim rest)).
Proof.
  intros Hin. split.
  - revert Hin. unfold CONTROLS. rewrite !elem_of_cons, !elem_of_nil.
    intros [->|[->|[->|[->|[->|[]]]]]]; reflexivity.
  - unfold parseCommand.
    rewrite (find_ext _ (fun c' => bool_decide (ctrl = c')))
      by (intros c' Hc'; by apply isControlOf_spaced).
    rewrite find_control by done. rewrite drop_app_length.
    change (js " " ++ rest) with (" "%char :: rest).
    by rewrite (trim_space_cons " "%char rest).
Qed.

Lemma parse_control_witness :
  parseCommand (js "/stop") [kimi; claude]
  = Some (mkParsed true (js "/stop") []) /\
  parseCommand (js "/stop" ++ js " " ++ js " session_1 ") [kimi; claude]
  = Some (mkParsed true (js "/stop") (trim (js " session_1 "))).
Proof.
  apply (parse_control (js "/stop") (js " session_1 ") [kimi; claude]).
  unfold CONTROLS. right. left.
Defined.

Lemma find_first_of_finer {A} (f g : A -> bool) l x :
  find f l = Some x -> (forall y, g y = true -> f y = true) ->
  g x = true -> find g l = Some x.
Proof.
  intros Hf Hgf Hx. induction l as [|y l IH]; [done|]. simpl in *.
  destruct (f y) eqn:Hy.
  - injection Hf as ->. by rewrite Hx.
  - destruct (g y) eqn:Hg; [|by apply IH].
    apply Hgf in Hg. congruence.
Qed.

(** X24: a message parsed as a CLI command can be spawned.  The prefix
    of the result is the prefix of the first configured command whose
    trigger (its prefix and a colon) begins the text, letter case
    aside; looking the prefix up in the configuration, as [handleCli]
    does, finds that very command, never nothing; and the arguments
    are the text after the trigger, trimmed (trimming them again
    changes nothing). *)
Theorem parse_cli_resolves (text : str) (commands : list CommandConfig)
    (r : ParsedCommand) :
  parseCommand text commands = Some r -> isControl r = false ->
  exists cmd,
    find (triggers text) commands = Some cmd /\
    parsedPrefix r = prefix cmd /\
    find (fun c => bool_decide (prefix c = parsedPrefix r)) commands
    = Some cmd /\
    toLowerCase (take (length (prefix cmd) + 1) text)
    = toLowerCase (prefix cmd ++ js ":") /\
    parsedArgs r = trim (drop (length (prefix cmd) + 1) text) /\
    trim (parsedArgs r) = parsedArgs r.
Proof.
  unfold parseCommand. destruct (find (isControlOf text) CONTROLS);
    [intros [= <-]; done|].
  destruct (find (triggers text) commands) as [cmd|] eqn:Hf; [|done].
  intros [= <-] _. exists cmd. cbn [parsedPrefix parsedArgs].
  pose proof (find_some _ _ Hf) as [_ Ht].
  split; [done|]. split; [done|]. split; [|split; [|split]].
  - apply (find_first_of_finer (triggers text)); [done| |].
    + intros y Hy. apply bool_decide_eq_true in Hy. unfold triggers in *.
      by rewrite Hy.
    + by apply bool_decide_eq_true.
  - unfold triggers in Ht. apply startsWith_spec in Ht as [rest Hr].
    rewrite toLowerCase_take, Hr.
    replace (length (prefix cmd) + 1)
      with (length (toLowerCase (prefix cmd ++ js ":")))
      by (rewrite toLowerCase_length, length_app; done).
    by rewrite take_app_length.
  - by rewrite length_app.
  - apply TrimFacts.trim_trim.
Qed.

Lemma parse_cli_resolves_witness :
  exists cmd,
    find (triggers (js "Claude:  fix the tests ")) [kimi; claude]
    = Some cmd /\
    parsedPrefix (mkParsed false (js "claude") (js "fix the tests"))
    = prefix cmd /\
    find (fun c => bool_decide
                     (prefix c
                      = parsedPrefix
                          (mkParsed false (js "claude")
                             (js "fix the tests"))))
      [kimi; claude] = Some cmd /\
    toLowerCase (take (length (prefix cmd) + 1)
                   (js "Claude:  fix the tests "))
    = toLowerCase (prefix cmd ++ js ":") /\
    parsedArgs (mkParsed false (js "claude") (js "fix the tests"))
    = trim (drop (length (prefix cmd) + 1) (js "Claude:  fix the tests "))
    /\
    trim (parsedArgs (mkParsed false (js "claude") (js "fix the tests")))
    = parsedArgs (mkParsed false (js "claude") (js "fix the tests")).
Proof.
  apply (parse_cli_resolves (js "Claude:  fix the tests ") [kimi; claude]
           (mkParsed false (js "claude") (js "fix the tests")));
    reflexivity.
Defined.

End CommandParserProperties.

(** ** The authorizer *)
Module AuthorizerProperties.
Import Authorizer.

Lemma existsb_elem_of {A} (f : A -> bool) (l : list A) x :
  x ∈ l -> f x = true -> existsb f l = true.
Proof.
  intros Hin Hf. apply existsb_exists. exists x.
  split; [by apply list_elem_of_In|done].
Qed.

Lemma user_allowed_channel rules u c :
  isUserAllowed rules u c = true -> isChannelAllowed rules c = true.
Proof.
  unfold isUserAllowed, isChannelAllowed. rewrite !existsb_exists.
  intros (r & Hin & [Hc _]%andb_true_iff). by exists r.
Qed.

(** X25: the rules of a channel are pooled.  When one rule of a
    channel lists a user (or the wildcard) and a rule of the same
    channel, the same or another, allows a prefix, then the channel,
    the user and the prefix all pass: the prefixes a user may use are
    those of every rule of the channel, not only of the rules that
    list the user. *)
Theorem prefix_permission_is_per_channel
    (rules : list AuthRule) (r1 r2 : AuthRule) (u p c : str) :
  r1 ∈ rules -> r2 ∈ rules ->
  c ∈ channels r1 -> u ∈ users r1 \/ js "*" ∈ users r1 ->
  c ∈ channels r2 -> p ∈ allowed_prefixes r2 ->
  isChannelAllowed rules c = true /\ isUserAllowed rules u c = true /\
  isPrefixAllowed rules p c = true.
Proof.
  intros H1 H2 Hc1 Hu Hc2 Hp.
  assert (isUserAllowed rules u c = true) as Huser.
  { apply (existsb_elem_of _ _ r1 H1). unfold includes.
    rewrite (bool_decide_eq_true_2 _ Hc1). simpl.
    destruct Hu as [Hu|Hu]; rewrite (bool_decide_eq_true_2 _ Hu);
      [apply orb_true_r|done]. }
  split; [by apply (user_allowed_channel rules u)|]. split; [done|].
  unfold isPrefixAllowed. apply existsb_exists. exists r2. split.
  - apply filter_In. split; [by apply list_elem_of_In|].
    by apply bool_decide_eq_true.
  - by apply bool_decide_eq_true.
Qed.

Lemma prefix_permission_is_per_channel_witness :
  let rules := [mkRule [js "C1"] [js "U1"] [js "run"];
                mkRule [js "C1"] [js "U2"] [js "claude"]] in
  isChannelAllowed rules (js "C1") = true /\
  isUserAllowed rules (js "U2") (js "C1") = true /\
  isPrefixAllowed rules (js "run") (js "C1") = true.
Proof.
  apply (prefix_permission_is_per_channel
           [mkRule [js "C1"] [js "U1"] [js "run"];
            mkRule [js "C1"] [js "U2"] [js "claude"]]
           (mkRule [js "C1"] [js "U2"] [js "claude"])
           (mkRule [js "C1"] [js "U1"] [js "run"])
           (js "U2") (js "run") (js "C1")).
  - right. left.
  - left.
  - left.
  - left. left.
  - left.
  - left.
Defined.

End AuthorizerProperties.

(** ** The command filter *)
Module CommandFilterProperties.
Import EnvelopeParser StringFacts CommandFilter.

Lemma test_app at_ prev a t :
  at_ (lastOr prev a) t = true -> test at_ prev (a ++ t) = true.
Proof.
  revert prev. induction a as [|c a IH]; intros prev H.
  - unfold lastOr in H. simpl in H. destruct t; simpl; by rewrite H.
  - simpl. apply orb_true_iff. right. apply IH.
    unfold lastOr in *. destruct a as [|c' a]; [done|].
    rewrite last_cons_cons in H.
    destruct (last (c' :: a)) eqn:E; [done|].
    by apply last_None in E.
Qed.

Lemma wordAt_lastOr a : wordAt (lastOr None a) = wordAt (last a).
Proof. unfold lastOr. by destruct (last a). Qed.

Lemma isLetter_lower c l :
  isLetter l = true -> lowerChar l = l -> lowerChar c = l ->
  isLetter c = true /\ isWord c = true.
Proof. intros Hl Hll <-. revert Hl. all_chars c. Qed.

Lemma not_word_not_letter c : isWord c = false -> isLetter c = false.
Proof. all_chars c. Qed.

Lemma spaces_app w c rest :
  w <> [] -> forallb isSpace w = true -> isSpace c = false ->
  spaces (w ++ c :: rest) = Some (c :: rest).
Proof.
  intros Hne Hw Hc. unfold spaces. rewrite takeWhile_app_stop by done.
  destruct w as [|c0 w]; [done|]. by rewrite drop_app_length.
Qed.

(** X26: the first pattern of the blocklist.  A command in which [rm]
    (in any letter case, not preceded by a word character) is followed
    by white space, a dash and a run of letters that ends with an [f]
    after an [r] somewhere before it, the run being followed by no
    word character, is blocked, whatever stands before and after, and
    the reason names that pattern. *)
Theorem rm_rf_is_blocked (a rm w x y b : str) (r f : ascii) :
  wordAt (last a) = false -> toLowerCase rm = js "rm" ->
  w <> [] -> forallb isSpace w = true ->
  forallb isLetter x = true -> forallb isLetter y = true ->
  lowerChar r = "r"%char -> lowerChar f = "f"%char ->
  wordAt (head b) = false ->
  checkCommand (a ++ rm ++ w ++ "-"%char :: x ++ r :: y ++ f :: b)
  = Some (js "Matches blocked pattern `/\brm\s+-[a-z]*r[a-z]*f\b/i`").
Proof.
  intros Ha Hrm Hne Hw Hx Hy Hr Hf Hb.
  destruct (isLetter_lower r "r"%char eq_refl eq_refl Hr) as [Hr1 _].
  destruct (isLetter_lower f "f"%char eq_refl eq_refl Hf) as [Hf1 _].
  assert (test rmAt None
            (a ++ rm ++ w ++ "-"%char :: x ++ r :: y ++ f :: b) = true)
    as Htest.
  { apply test_app. unfold rmAt. apply andb_true_iff. split.
    - unfold boundary. rewrite wordAt_lastOr, Ha.
      destruct rm as [|c1 [|c2 [|]]]; try discriminate.
      injection Hrm as H1 H2. simpl.
      by destruct (isLetter_lower c1 "r"%char eq_refl eq_refl H1) as [_ ->].
    - rewrite (matchLiteral_app (js "rm") rm) by done.
      cbn [mbind option_bind]. rewrite spaces_app by done.
      change (Ascii.eqb "-" "-") with true. cbn [andb].
      replace (x ++ r :: y ++ f :: b) with ((x ++ r :: y ++ [f]) ++ b)
        by (rewrite <- !app_assoc; simpl; by rewrite <- app_assoc).
      rewrite (AnsiProperties.takeWhile_app_all isLetter).
      + rewrite drop_app_length.
        replace (x ++ r :: y ++ [f]) with ((x ++ r :: y) ++ [f])
          by (by rewrite <- app_assoc).
        rewrite toLowerCase_app. simpl (toLowerCase [f]).
        rewrite rev_unit, Hf. change (Ascii.eqb "f" "f") with true.
        rewrite Hb. cbn [andb negb]. rewrite andb_true_r.
        apply existsb_exists. exists "r"%char. split; [|done].
        apply in_rev. rewrite rev_involutive, toLowerCase_app.
        apply in_or_app. right. simpl. left. done.
      + rewrite forallb_app. simpl. rewrite forallb_app. simpl.
        by rewrite Hx, Hr1, Hy, Hf1.
      + intros c t ->. simpl in Hb. by apply not_word_not_letter. }
  unfold checkCommand, BLOCKED. cbn [find fst]. rewrite Htest. done.
Qed.

Lemma rm_rf_is_blocked_witness :
  checkCommand (js "cd /tmp; " ++ js "RM" ++ js "  " ++ "-"%char :: js "v"
                ++ "r"%char :: js "" ++ "f"%char :: js " /")
  = Some (js "Matches blocked pattern `/\brm\s+-[a-z]*r[a-z]*f\b/i`").
Proof.
  apply (rm_rf_is_blocked (js "cd /tmp; ") (js "RM") (js "  ") (js "v")
           (js "") (js " /") "r"%char "f"%char); try reflexivity.
  discriminate.
Defined.

End CommandFilterProperties.

(** ** The command router *)
Module CommandRouterProperties.
Import SessionManager SessionApi StringFacts CommandParser Authorizer
  CommandFilter CommandRouter CommandParserProperties AuthorizerProperties.

Lemma find_elem_of {A} (f : A -> bool) l x :
  find f l = Some x -> x ∈ l /\ f x = true.
Proof.
  intros [H1 H2]%find_some. split; [by apply list_elem_of_In|done].
Qed.

Lemma continuationOptions_inv cmds channel txt thread m o :
  continuationOptions cmds channel txt thread m = Some o ->
  SessionManager.channelId o = channel /\ command o = txt /\
  isContinuation o = Some true /\ config o ∈ cmds /\
  exists ts b, thread = Some ts /\ SessionManager.threadTs o = ts /\
               getThreadBinding channel ts m = Some b /\
               sessionId o = Some (bindingSessionId b) /\
               prefix (config o) = bindingPrefix b.
Proof.
  unfold continuationOptions, getThreadBinding.
  destruct thread as [ts|]; [|done]. simpl.
  destruct (truthy ts); [|done].
  destruct (threadBindings m !! bindingKey channel ts) as [b|] eqn:Hb;
    [|done].
  destruct (find _ cmds) as [c|] eqn:Hf; [|done].
  apply find_elem_of in Hf as [Hin Hp]. apply bool_decide_eq_true in Hp.
  intros [= <-]. simpl. repeat split; try done. by exists ts, b.
Qed.

(** X27: what it takes to start a process.  Whenever [handleMessage]
    spawns a session, the channel is listed by a rule and the user is
    allowed in it, the session is spawned in the channel of the
    message with a configured command, and either the message is a
    reply in a thread with a binding and is spawned, as it stands, as
    the continuation of that binding; or the message has the trigger
    of the command at its head, the prefix is allowed in the channel,
    the arguments are the trimmed rest of the text, are not empty and
    pass the blocklist, and the session is rooted at the message. *)
Theorem spawn_requires (cfg : AppConfig) (msg : IncomingMessage)
    (m : Manager) (o : SessionSpawnOptions) :
  handleMessage cfg msg m = SpawnSession o ->
  isChannelAllowed (rules cfg) (channelId msg) = true /\
  isUserAllowed (rules cfg) (userId msg) (channelId msg) = true /\
  SessionManager.channelId o = channelId msg /\
  config o ∈ commands cfg /\
  ((continuationOptions (commands cfg) (channelId msg) (text msg)
      (threadTs msg) m = Some o /\
    command o = text msg /\ isContinuation o = Some true) \/
   (isContinuation o = None /\ sessionId o = None /\
    SessionManager.threadTs o = ts msg /\
    triggers (text msg) (config o) = true /\
    isPrefixAllowed (rules cfg) (prefix (config o)) (channelId msg) = true /\
    command o = trim (drop (length (prefix (config o)) + 1) (text msg)) /\
    command o <> [] /\ checkCommand (command o) = None)).
Proof.
  unfold handleMessage.
  destruct (isChannelAllowed _ _) eqn:Hch; [|done].
  destruct (isUserAllowed _ _ _) eqn:Hu; [|done]. cbn [negb].
  destruct (continuationOptions _ _ _ _ _) as [o'|] eqn:Hc.
  - intros [= ->].
    destruct (continuationOptions_inv _ _ _ _ _ _ Hc)
      as (H1 & H2 & H3 & H4 & _).
    repeat split; try done. by left.
  - destruct (given (threadTs msg) ≫= _); [done|].
    destruct (parseCommand _ _) as [parsed|] eqn:Hp; [|done].
    destruct (isControl parsed) eqn:Hctl; [done|].
    unfold handleCli.
    destruct (isPrefixAllowed _ _ _) eqn:Hpre; [|done]. cbn [negb].
    destruct (checkCommand _) eqn:Hblock; [done|].
    destruct (truthy (parsedArgs parsed)) eqn:Hargs; [|done]. cbn [negb].
    unfold parseCommand in Hp.
    destruct (find (isControlOf _) CONTROLS);
      [injection Hp as <-; done|].
    destruct (find (triggers _) _) as [cmd|] eqn:Hf; [|done].
    injection Hp as <-. cbn [parsedPrefix parsedArgs] in *.
    apply find_elem_of in Hf as Hcmd. destruct Hcmd as [Hin Htr].
    rewrite (find_first_of_finer (triggers (text msg)) _ _ cmd Hf).
    + intros [= <-]. unfold cliOptions. simpl.
      repeat split; try done. right.
      assert (length (prefix cmd ++ js ":") = length (prefix cmd) + 1)
        as Hlen by (by rewrite length_app).
      change (js ":") with [":"%char] in Hlen. rewrite Hlen in *.
      repeat split; try done. intros E. by rewrite E in Hargs.
    + intros y Hy. apply bool_decide_eq_true in Hy. unfold triggers in *.
      by rewrite Hy.
    + by apply bool_decide_eq_true.
Qed.

Lemma spawn_requires_witness :
  let cfg := mkConfig [kimi; claude]
               [mkRule [js "C1"] [js "*"] [js "kimi"]] in
  let msg := mkMessage (js "C1") (js "U1") (js "Kimi: hello ") None
               (js "100.1") in
  let o := cliOptions (js "C1") (js "100.1") (js "hello") kimi in
  isChannelAllowed (rules cfg) (channelId msg) = true /\
  isUserAllowed (rules cfg) (userId msg) (channelId msg) = true /\
  SessionManager.channelId o = channelId msg /\
  config o ∈ commands cfg /\
  ((continuationOptions (commands cfg) (channelId msg) (text msg)
      (threadTs msg) empty = Some o /\
    command o = text msg /\ isContinuation o = Some true) \/
   (isContinuation o = None /\ sessionId o = None /\
    SessionManager.threadTs o = ts msg /\
    triggers (text msg) (config o) = true /\
    isPrefixAllowed (rules cfg) (prefix (config o)) (channelId msg) = true /\
    command o = trim (drop (length (prefix (config o)) + 1) (text msg)) /\
    command o <> [] /\ checkCommand (command o) = None)).
Proof.
  apply (spawn_requires
           (mkConfig [kimi; claude] [mkRule [js "C1"] [js "*"] [js "kimi"]])
           (mkMessage (js "C1") (js "U1") (js "Kimi: hello ") None
              (js "100.1"))
           empty (cliOptions (js "C1") (js "100.1") (js "hello") kimi)).
  reflexivity.
Defined.

(** X28: a reply in a bound thread is spawned unfiltered.  When the
    thread of a message has a binding whose prefix is configured, and
    the user is allowed in the channel, the text of the message is
    spawned as it stands as the continuation of the binding: no
    control command is recognised, the prefix is not checked against
    the rules, an active session in the thread gets no input, and the
    blocklist is not consulted.  The same text as the arguments of a
    first command, with a reason from the blocklist, is refused by
    [handleCli] with that reason. *)
Theorem continuation_skips_filters (cfg : AppConfig)
    (msg : IncomingMessage) (m : Manager) (thread : str)
    (b : ThreadBinding) (c : CommandConfig) :
  isUserAllowed (rules cfg) (userId msg) (channelId msg) = true ->
  threadTs msg = Some thread -> thread <> [] ->
  getThreadBinding (channelId msg) thread m = Some b ->
  find (fun c => bool_decide (prefix c = bindingPrefix b)) (commands cfg)
  = Some c ->
  handleMessage cfg msg m
  = SpawnSession
      (mkSpawnOptions (channelId msg) thread (text msg) c None
         (Some (bindingSessionId b)) (Some true)) /\
  forall reason,
    checkCommand (text msg) = Some reason ->
    isPrefixAllowed (rules cfg) (prefix c) (channelId msg) = true ->
    handleCli cfg (mkParsed false (prefix c) (text msg)) (channelId msg)
      (ts msg)
    = Post (channelId msg) (js "🚫 " ++ reason) (ts msg).
Proof.
  intros Hu Hts Hne Hb Hc. split.
  - unfold handleMessage.
    rewrite (user_allowed_channel _ _ _ Hu), Hu. cbn [negb].
    unfold continuationOptions. rewrite Hts. simpl.
    destruct thread as [|t0 thread]; [done|]. simpl.
    unfold getThreadBinding in Hb. by rewrite Hb, Hc.
  - intros reason Hr Hp. unfold handleCli. cbn [parsedPrefix parsedArgs].
    by rewrite Hp, Hr.
Qed.

Lemma continuation_skips_filters_witness :
  let cfg := mkConfig [kimi; claude]
               [mkRule [js "C1"] [js "*"] [js "kimi"]] in
  let m := spawn [] (js "session_1") (js "100.2") Started
             (cliOptions (js "C1") (js "100.1") (js "list files") kimi)
             empty in
  let msg := mkMessage (js "C1") (js "U1") (js "rm -rf /")
               (Some (js "100.1")) (js "100.7") in
  handleMessage cfg msg m
  = SpawnSession
      (mkSpawnOptions (channelId msg) (js "100.1") (text msg) kimi None
         (Some (bindingSessionId
                  (mkBinding (js "kimi") (js "slack-C1-100.1") (js "C1"))))
         (Some true)) /\
  forall reason,
    checkCommand (text msg) = Some reason ->
    isPrefixAllowed (rules cfg) (prefix kimi) (channelId msg) = true ->
    handleCli cfg (mkParsed false (prefix kimi) (text msg)) (channelId msg)
      (ts msg)
    = Post (channelId msg) (js "🚫 " ++ reason) (ts msg).
Proof.
  apply (continuation_skips_filters
           (mkConfig [kimi; claude] [mkRule [js "C1"] [js "*"] [js "kimi"]])
           (mkMessage (js "C1") (js "U1") (js "rm -rf /")
              (Some (js "100.1")) (js "100.7"))
           (spawn [] (js "session_1") (js "100.2") Started
              (cliOptions (js "C1") (js "100.1") (js "list files") kimi)
              empty)
           (js "100.1")
           (mkBinding (js "kimi") (js "slack-C1-100.1") (js "C1")) kimi);
    try reflexivity.
  discriminate.
Defined.

End CommandRouterProperties.

(** ** Scheduled jobs *)
Module SchedulerProperties.
Import SessionManager SessionApi Scheduler.

(** X29: a scheduled job goes to the shell verbatim.  The process of a
    job is the platform shell with its one flag and the command of the
    job as one argument: no envelope prompt is put before it, whatever
    prompt is configured, and no session flag is injected.  The spawn
    is a first spawn (its start notice is posted) that binds no
    thread, so that replies in the thread of a job are never
    continuations of it. *)
Theorem scheduled_job_spawn (win32 : bool) (job : JobDefinition)
    (thread promptText sid startTs text : str)
    (commands : list CommandConfig) (m : Manager) :
  let o := jobOptions win32 job thread in
  let m' := spawn promptText sid startTs Started o m in
  spawnArgs promptText o
  = [if win32 then js "/c" else js "-c"; jobCommand job] /\
  effectsSince m m'
  = [SpawnProcess (if win32 then js "cmd" else js "bash")
       [if win32 then js "/c" else js "-c"; jobCommand job];
     RouterStart (fresh m);
     PostMessage (channel job)
       (js "🚀 Session started — " ++ default (name job) (label job))
       thread] /\
  threadBindings m' = threadBindings m /\
  continuationOptions commands (channel job) text (Some thread) m'
  = continuationOptions commands (channel job) text (Some thread) m.
Proof.
  intros o m'. split; [done|]. split; [|split; [done|done]].
  unfold effectsSince, m', spawn. cbn [effects].
  by rewrite drop_app_length.
Qed.

End SchedulerProperties.

(** ** The upload of a log *)
Module LogsProperties.
Import LogsCommand.

Lemma utf8_length s : length (Sha1.utf8 s) <= 2 * length s.
Proof.
  unfold Sha1.utf8. induction s as [|c s IH]; simpl; [lia|].
  rewrite length_app. destruct (N_of_ascii c <? 128)%N; simpl; lia.
Qed.

Lemma byteLength_le s : (byteLength s <= 2 * N.of_nat (length s))%N.
Proof. unfold byteLength. pose proof (utf8_length s). lia. Qed.

Lemma too_big_long s :
  (MAX_UPLOAD_BYTES <? byteLength s)%N = true -> 2 <= length s.
Proof.
  intros H%N.ltb_lt. pose proof (byteLength_le s).
  unfold MAX_UPLOAD_BYTES in H. lia.
Qed.

Lemma dropHalves_fits fuel content :
  length content <= fuel ->
  (byteLength (dropHalves fuel content) <= MAX_UPLOAD_BYTES)%N /\
  dropHalves fuel content `suffix_of` content.
Proof.
  revert content. induction fuel as [|fuel IH]; intros content Hlen.
  - assert (content = []) as -> by (destruct content; [done|simpl in *; lia]).
    simpl. unfold byteLength, MAX_UPLOAD_BYTES. simpl. split; [lia|done].
  - cbn [dropHalves].
    destruct (MAX_UPLOAD_BYTES <? byteLength content)%N eqn:Hbig.
    + pose proof (too_big_long _ Hbig) as H2.
      destruct (IH (drop (length content / 2) content)) as [H3 H4].
      * rewrite length_drop.
        assert (1 <= length content / 2)
          by (apply Nat.div_le_lower_bound; lia).
        lia.
      * split; [done|]. etransitivity; [exact H4|apply suffix_drop].
    + apply N.ltb_ge in Hbig. done.
Qed.

(** X30: what [doUpload] uploads fits.  The loop that drops the first
    half of the content ends, with a content of at most 20 MB that is a
    tail of the file; a file within the limit is uploaded whole; and
    the notice of truncation is posted exactly when something was
    dropped. *)
Theorem upload_fits (content : str) :
  (byteLength (doUpload content).1 <= MAX_UPLOAD_BYTES)%N /\
  (doUpload content).1 `suffix_of` content /\
  ((doUpload content).2 = true <-> (doUpload content).1 <> content) /\
  ((byteLength content <= MAX_UPLOAD_BYTES)%N ->
   doUpload content = (content, false)).
Proof.
  unfold doUpload.
  destruct (MAX_UPLOAD_BYTES <? byteLength content)%N eqn:Hbig; cbn [fst snd].
  - destruct (dropHalves_fits (length content) content) as [H1 H2]; [done|].
    split; [done|]. split; [done|]. split.
    + split; [|done]. intros _ E.
      pose proof (too_big_long _ Hbig) as Hlong.
      destruct (length content) as [|n] eqn:Hn; [lia|].
      cbn [dropHalves] in E. rewrite Hbig in E.
      assert (1 <= length content / 2) as Hhalf
        by (apply Nat.div_le_lower_bound; lia).
      destruct (dropHalves_fits n (drop (length content / 2) content))
        as [_ [k Hk]].
      * rewrite length_drop. lia.
      * rewrite E in Hk. apply (f_equal length) in Hk.
        rewrite length_drop, length_app in Hk. lia.
    + intros Hfit. apply N.ltb_lt in Hbig. lia.
  - apply N.ltb_ge in Hbig. split; [done|]. split; [done|].
    split; [|done]. split; [done|]. intros H. by destruct H.
Qed.

Lemma upload_fits_witness :
  doUpload (js "=== Session started ===")
  = (js "=== Session started ===", false).
Proof.
  apply (proj2 (proj2 (proj2
           (upload_fits (js "=== Session started ==="))))).
  by vm_compute.
Defined.

End LogsProperties.
